(** * Judge-feedback parsing and the revision loop of the bedtime story generator

    A shallow embedding of [parse_judge_feedback], [story_editor] and the
    revision loop of [main] (src/main.py), with the Python text primitives
    and the fragment of the [re] module they rely on. *)

From Stdlib Require Import Ascii String List NArith ZArith Bool Lia Arith.
From Stdlib Require Import DecimalString.
From Stdlib Require QArith.
From ITree Require Import ITree ITreeFacts.
Import ListNotations.

Set Implicit Arguments.

(** ** Python text: a [str] is a sequence of Unicode code points *)

Definition char := N.
Definition str := list char.

(** An ASCII literal of the source, as a [str]. *)
Definition lit (s : string) : str := List.map N_of_ascii (list_ascii_of_string s).

Local Open Scope N_scope.

Definition LF : char := 0x0a%N.       (* '\n' *)
Definition CR : char := 0x0d%N.       (* '\r' *)
Definition SP : char := 0x20%N.       (* ' '  *)
Definition EN_DASH : char := 0x2013%N.
Definition LSQUO : char := 0x2018%N.
Definition RSQUO : char := 0x2019%N.

Fixpoint str_eqb (a b : str) : bool :=
  match a, b with
  | [], [] => true
  | x :: a', y :: b' => N.eqb x y && str_eqb a' b'
  | _, _ => false
  end.

(** [str.isspace] on one character, which is also what [\s] matches in a
    [str] pattern: the code points Python's Unicode database marks as
    whitespace. *)
Definition isspace (c : char) : bool :=
  ((0x09 <=? c) && (c <=? 0x0d)) || ((0x1c <=? c) && (c <=? 0x1f))
  || (c =? 0x20) || (c =? 0x85) || (c =? 0xa0) || (c =? 0x1680)
  || ((0x2000 <=? c) && (c <=? 0x200a)) || (c =? 0x2028) || (c =? 0x2029)
  || (c =? 0x202f) || (c =? 0x205f) || (c =? 0x3000).

(** The line boundaries of [str.splitlines]. *)
Definition islinebreak (c : char) : bool :=
  ((0x0a <=? c) && (c <=? 0x0d)) || ((0x1c <=? c) && (c <=? 0x1e))
  || (c =? 0x85) || (c =? 0x2028) || (c =? 0x2029).

Fixpoint lstrip (s : str) : str :=
  match s with
  | c :: t => if isspace c then lstrip t else s
  | [] => []
  end.

Definition rstrip (s : str) : str := rev (lstrip (rev s)).

(** [s.strip()] *)
Definition strip (s : str) : str := rstrip (lstrip s).

(** [s.replace(a, b)] for one-character [a] and [b]. *)
Definition str_replace (a b : char) (s : str) : str :=
  List.map (fun c => if c =? a then b else c) s.

(** [s.splitlines()]: [cur] holds the current line, reversed. A line is
    closed at every boundary, ['\r\n'] counting as one; what follows the
    last boundary is a line only when it is not empty. *)
Fixpoint splitlines_from (cur : str) (s : str) : list str :=
  match s with
  | [] => match cur with [] => [] | _ => [rev cur] end
  | c :: t =>
      if islinebreak c then
        if c =? CR then
          match t with
          | d :: t' => if d =? LF then rev cur :: splitlines_from [] t'
                       else rev cur :: splitlines_from [] t
          | [] => rev cur :: splitlines_from [] t
          end
        else rev cur :: splitlines_from [] t
      else splitlines_from (c :: cur) t
  end.

Definition splitlines (s : str) : list str := splitlines_from [] s.

Local Close Scope N_scope.

(** [sep.join(parts)] *)
Fixpoint join (sep : str) (parts : list str) : str :=
  match parts with
  | [] => []
  | [p] => p
  | p :: ps => p ++ sep ++ join sep ps
  end.

(** ** The fragment of [re] the parser uses

    A backtracking matcher in continuation-passing style: alternatives are
    tried in the order the [re] module tries them, and the first one whose
    continuation succeeds is the match. Repetition is over one-character
    classes, which is all the three patterns of the source contain. *)

Inductive mode : Type := Greedy | Lazy.

Inductive regex : Type :=
| Eps                                        (* the empty pattern *)
| Bol                                        (* ^ *)
| Eol                                        (* $ *)
| Chr (p : char -> bool)                     (* a literal, a class, \s or . *)
| Star (g : mode) (p : char -> bool)         (* X* and X*? *)
| Seq (r1 r2 : regex)
| Alt (r1 r2 : regex)                        (* r1|r2 *)
| Grp (name : string) (r : regex).           (* (?P<name>r), or a numbered group *)

Declare Scope re_scope.
Delimit Scope re_scope with re.
Bind Scope re_scope with regex.
Infix ";;" := Seq (at level 61, right associativity) : re_scope.

(** X+ and X+? *)
Definition Plus (g : mode) (p : char -> bool) : regex :=
  (Chr p ;; Star g p)%re.

(** The groups captured so far, the most recent first. *)
Definition captures := list (string * str).

Section Exec.
Variable R : Type.

Fixpoint star_greedy (p : char -> bool) (pos : nat) (s : str)
         (k : nat -> str -> option R) : option R :=
  match s with
  | c :: t =>
      if p c then
        match star_greedy p (S pos) t k with
        | Some r => Some r
        | None => k pos s
        end
      else k pos s
  | [] => k pos s
  end.

Fixpoint star_lazy (p : char -> bool) (pos : nat) (s : str)
         (k : nat -> str -> option R) : option R :=
  match k pos s with
  | Some r => Some r
  | None =>
      match s with
      | c :: t => if p c then star_lazy p (S pos) t k else None
      | [] => None
      end
  end.

(** [exec r pos s caps k]: match [r] at offset [pos] of the subject, [s]
    being what is left of the subject from there on. *)
Fixpoint exec (r : regex) (pos : nat) (s : str) (caps : captures)
         (k : nat -> str -> captures -> option R) : option R :=
  match r with
  | Eps => k pos s caps
  | Bol => if Nat.eqb pos 0 then k pos s caps else None
  | Eol =>
      (* the end of the subject, or just before a final newline *)
      match s with
      | [] => k pos s caps
      | [c] => if N.eqb c LF then k pos s caps else None
      | _ => None
      end
  | Chr p =>
      match s with
      | c :: t => if p c then k (S pos) t caps else None
      | [] => None
      end
  | Star g p =>
      match g with
      | Greedy => star_greedy p pos s (fun pos' s' => k pos' s' caps)
      | Lazy => star_lazy p pos s (fun pos' s' => k pos' s' caps)
      end
  | Seq r1 r2 =>
      exec r1 pos s caps (fun pos' s' caps' => exec r2 pos' s' caps' k)
  | Alt r1 r2 =>
      match exec r1 pos s caps k with
      | Some x => Some x
      | None => exec r2 pos s caps k
      end
  | Grp name r1 =>
      exec r1 pos s caps
        (fun pos' s' caps' => k pos' s' ((name, firstn (pos' - pos) s) :: caps'))
  end.
End Exec.

(** The last continuation of a match: the groups are the match object. *)
Definition found : nat -> str -> captures -> option captures :=
  fun _ _ caps => Some caps.

(** [re.match(r, s)]: the groups of the match of [r] at the start of [s]. *)
Definition re_match (r : regex) (s : str) : option captures :=
  exec r 0 s [] found.

(** [m.group(name)]; [None] for a group that took no part in the match. *)
Fixpoint group (m : captures) (name : string) : option str :=
  match m with
  | [] => None
  | (n, v) :: m' => if String.eqb n name then Some v else group m' name
  end.

(** The length of the match of [r] at offset [pos], if there is one. *)
Definition match_len (r : regex) (pos : nat) (s : str) : option nat :=
  exec r pos s [] (fun pos' _ _ => Some (pos' - pos)).

(** [re.split(r, s)] for a pattern [r] without groups whose matches are
    never empty: the pieces of [s] between the successive leftmost matches.
    [skip] counts the characters of the current match still to pass over;
    [cur] holds the current piece, reversed. *)
Fixpoint split_from (r : regex) (pos skip : nat) (cur : str) (s : str)
  : list str :=
  match s with
  | [] => [rev cur]
  | c :: t =>
      match skip with
      | S n => split_from r (S pos) n cur t
      | O =>
          match match_len r pos s with
          | Some (S n) => rev cur :: split_from r (S pos) n [] t
          | _ => split_from r (S pos) 0 (c :: cur) t
          end
      end
  end.

Definition re_split (r : regex) (s : str) : list str := split_from r 0 0 [] s.

(** *** Character classes *)

Local Open Scope N_scope.

Definition is_char (a : char) : char -> bool := fun c => c =? a.
Definition of_ascii (a : ascii) : char -> bool := is_char (N_of_ascii a).

(** [.] without DOTALL: anything but a newline. *)
Definition dot : char -> bool := fun c => negb (c =? LF).

(** [[1-4]] *)
Definition digit14 : char -> bool := fun c => (0x31 <=? c) && (c <=? 0x34).

(** [[:\-–]] *)
Definition separator : char -> bool :=
  fun c => (c =? 0x3a) || (c =? 0x2d) || (c =? EN_DASH).

(** ASCII lower case. *)
Definition ascii_lower (c : char) : char :=
  if (0x41 <=? c) && (c <=? 0x5a) then c + 32 else c.

(** A literal letter under [re.IGNORECASE]: both ASCII cases and, for a
    [str] pattern, the other letters that case-fold to it: U+0130 and
    U+0131 for [i], U+017F for [s], U+212A for [k]. *)
Definition ci_char (a : char) : char -> bool :=
  fun c =>
    (ascii_lower c =? ascii_lower a)
    || ((ascii_lower a =? 0x69) && ((c =? 0x130) || (c =? 0x131)))
    || ((ascii_lower a =? 0x73) && (c =? 0x17f))
    || ((ascii_lower a =? 0x6b) && (c =? 0x212a)).

Local Close Scope N_scope.

(** A literal word; [f] says how a pattern letter matches a character. *)
Definition word (f : char -> char -> bool) (w : string) : regex :=
  fold_right (fun a r => (Chr (f a) ;; r)%re) Eps (lit w).

(** *** The three patterns of [parse_judge_feedback] *)

(** [r'\n\s*\n'], the separator of entries. *)
Definition blank_re : regex :=
  (Chr (is_char LF) ;; Star Greedy isspace ;; Chr (is_char LF))%re.

(** [r'^(?P<cat>.+?)\s*\(\s*(?P<score>[1-4])\s*\)\s*[:\-–]*\s*(?P<reason>.+)$'] *)
Definition inline_re : regex :=
  (Bol ;; Grp "cat" (Plus Lazy dot) ;; Star Greedy isspace ;;
   Chr (of_ascii "(") ;; Star Greedy isspace ;;
   Grp "score" (Chr digit14) ;; Star Greedy isspace ;;
   Chr (of_ascii ")") ;; Star Greedy isspace ;;
   Star Greedy separator ;; Star Greedy isspace ;;
   Grp "reason" (Plus Greedy dot) ;; Eol)%re.

(** [r'^(?P<cat>.+?):\s*(?P<score>[1-4])\s*$'] *)
Definition header_re : regex :=
  (Bol ;; Grp "cat" (Plus Lazy dot) ;; Chr (of_ascii ":") ;;
   Star Greedy isspace ;; Grp "score" (Chr digit14) ;;
   Star Greedy isspace ;; Eol)%re.

(** [r'^(?:Justification|Reasoning):\s*(.+)$'] with [re.IGNORECASE] *)
Definition reason_re : regex :=
  (Bol ;; Alt (word ci_char "Justification") (word ci_char "Reasoning") ;;
   Chr (ci_char (N_of_ascii ":")) ;; Star Greedy isspace ;;
   Grp "1" (Plus Greedy dot) ;; Eol)%re.

(** ** Exceptions *)

Inductive exn : Type := IndexError | AttributeError | ValueError.

Inductive result (A : Type) : Type :=
| Ok (a : A)
| Raise (e : exn).
Arguments Ok {A} a.
Arguments Raise {A} e.

Definition rbind {A B : Type} (x : result A) (f : A -> result B) : result B :=
  match x with
  | Ok a => f a
  | Raise e => Raise e
  end.

Notation "'do' x <- e ; k" := (rbind e (fun x => k))
  (at level 10, x name, e at level 99, k at level 200).

(** [m.group(name).strip()]: an [AttributeError] when the group is [None]. *)
Definition group_strip (m : captures) (name : string) : result str :=
  match group m name with
  | Some v => Ok (strip v)
  | None => Raise AttributeError
  end.

(** [m.group(name)] used as a value. For a group that took no part Python
    would go on with [None] and fail where the value is used; that is an
    error here, and none of the three patterns has such a group. *)
Definition group_val (m : captures) (name : string) : result str :=
  match group m name with
  | Some v => Ok v
  | None => Raise AttributeError
  end.

(** [l[0]] *)
Definition first_item {A : Type} (l : list A) : result A :=
  match l with
  | x :: _ => Ok x
  | [] => Raise IndexError
  end.

(** ** The CritiqueSet: a [dict] from category to score and reasoning

    Python dictionaries keep their keys in insertion order, and assigning
    to a key that is present replaces the value where the key stands. *)

Record critique : Type := { score : str; reasoning : str }.

Definition dict := list (str * critique).

Fixpoint dict_set (k : str) (v : critique) (d : dict) : dict :=
  match d with
  | [] => [(k, v)]
  | (k', v') :: d' =>
      if str_eqb k' k then (k', v) :: d' else (k', v') :: dict_set k v d'
  end.

Fixpoint dict_get (k : str) (d : dict) : option critique :=
  match d with
  | [] => None
  | (k', v') :: d' => if str_eqb k' k then Some v' else dict_get k d'
  end.

Definition keys (d : dict) : list str := List.map fst d.

(** ** [parse_judge_feedback] *)

(** The [for l in lines[1:]] loop: the reasoning of the first line that
    matches, or the empty string. *)
Fixpoint scan_reason (ls : list str) : result str :=
  match ls with
  | [] => Ok []
  | l :: ls' =>
      match re_match reason_re l with
      | Some jm => group_strip jm "1"
      | None => scan_reason ls'
      end
  end.

(** One pass of the body of [for entry in entries]. *)
Definition parse_entry (feedback : dict) (entry0 : str) : result dict :=
  let entry := strip entry0 in
  match entry with
  | [] => Ok feedback                                   (* continue *)
  | _ :: _ =>
      let block := str_replace LF SP entry in
      match re_match inline_re block with
      | Some m1 =>
          do cat <- group_strip m1 "cat";
          do score <- group_val m1 "score";
          do reason <- group_strip m1 "reason";
          Ok (dict_set cat {| score := score; reasoning := reason |} feedback)
      | None =>
          let lines :=
            List.map strip
                (filter (fun l => negb (str_eqb (strip l) [])) (splitlines entry)) in
          do line0 <- first_item lines;
          match re_match header_re line0 with
          | Some m2 =>
              do cat <- group_strip m2 "cat";
              do score <- group_val m2 "score";
              do reason <- scan_reason (tl lines);
              Ok (dict_set cat {| score := score; reasoning := reason |} feedback)
          | None => Ok feedback
          end
      end
  end.

Fixpoint parse_entries (feedback : dict) (entries : list str) : result dict :=
  match entries with
  | [] => Ok feedback
  | e :: es => do feedback' <- parse_entry feedback e; parse_entries feedback' es
  end.

Definition parse_judge_feedback (text : str) : result dict :=
  parse_entries [] (re_split blank_re (strip text)).

(** ** [int] and [str] on integers *)

Local Open Scope N_scope.

Definition digit_value (c : char) : option Z :=
  if (0x30 <=? c) && (c <=? 0x39) then Some (Z.of_N (c - 0x30)) else None.

(** The digits of a decimal literal; one underscore may stand between two
    digits. [acc] is the value read so far, if a digit was just read. *)
Fixpoint read_digits (acc : Z) (after_digit : bool) (s : str) : option Z :=
  match s with
  | [] => if after_digit then Some acc else None
  | c :: t =>
      match digit_value c with
      | Some d => read_digits (10 * acc + d) true t
      | None =>
          if (c =? 0x5f) && after_digit then read_digits acc false t else None
      end
  end.

(** [s.lstrip(...)] and [s.rstrip(...)] for the characters that satisfy
    [p]. *)
Fixpoint lstrip_by (p : char -> bool) (s : str) : str :=
  match s with
  | c :: t => if p c then lstrip_by p t else s
  | [] => []
  end.

Definition rstrip_by (p : char -> bool) (s : str) : str :=
  rev (lstrip_by p (rev s)).

(** The decimal digits of the Unicode database (version 14.0, that of
    CPython 3.11): runs of ten that start at a zero, the mathematical
    digits U+1D7CE to U+1D7FF being five such runs in a row. *)
Definition decimal_runs : list (N * N) :=
  [(0x30, 0x39); (0x660, 0x669); (0x6f0, 0x6f9); (0x7c0, 0x7c9);
   (0x966, 0x96f); (0x9e6, 0x9ef); (0xa66, 0xa6f); (0xae6, 0xaef);
   (0xb66, 0xb6f); (0xbe6, 0xbef); (0xc66, 0xc6f); (0xce6, 0xcef);
   (0xd66, 0xd6f); (0xde6, 0xdef); (0xe50, 0xe59); (0xed0, 0xed9);
   (0xf20, 0xf29); (0x1040, 0x1049); (0x1090, 0x1099); (0x17e0, 0x17e9);
   (0x1810, 0x1819); (0x1946, 0x194f); (0x19d0, 0x19d9); (0x1a80, 0x1a89);
   (0x1a90, 0x1a99); (0x1b50, 0x1b59); (0x1bb0, 0x1bb9); (0x1c40, 0x1c49);
   (0x1c50, 0x1c59); (0xa620, 0xa629); (0xa8d0, 0xa8d9); (0xa900, 0xa909);
   (0xa9d0, 0xa9d9); (0xa9f0, 0xa9f9); (0xaa50, 0xaa59); (0xabf0, 0xabf9);
   (0xff10, 0xff19); (0x104a0, 0x104a9); (0x10d30, 0x10d39);
   (0x11066, 0x1106f); (0x110f0, 0x110f9); (0x11136, 0x1113f);
   (0x111d0, 0x111d9); (0x112f0, 0x112f9); (0x11450, 0x11459);
   (0x114d0, 0x114d9); (0x11650, 0x11659); (0x116c0, 0x116c9);
   (0x11730, 0x11739); (0x118e0, 0x118e9); (0x11950, 0x11959);
   (0x11c50, 0x11c59); (0x11d50, 0x11d59); (0x11da0, 0x11da9);
   (0x16a60, 0x16a69); (0x16ac0, 0x16ac9); (0x16b50, 0x16b59);
   (0x1d7ce, 0x1d7ff); (0x1e140, 0x1e149); (0x1e2f0, 0x1e2f9);
   (0x1e950, 0x1e959); (0x1fbf0, 0x1fbf9)].

Definition in_run (c : char) (r : N * N) : bool :=
  (fst r <=? c) && (c <=? snd r).

(** The value of a decimal digit of any script. *)
Definition decimal_value (c : char) : option N :=
  match find (in_run c) decimal_runs with
  | Some r => Some ((c - fst r) mod 10)
  | None => None
  end.

Definition is_decimal (c : char) : bool := existsb (in_run c) decimal_runs.

(** The blanks of the C locale, which are the ones [int] skips in the
    ASCII text it reads. *)
Definition ascii_space (c : char) : bool :=
  ((0x09 <=? c) && (c <=? 0x0d)) || (c =? 0x20).

(** What [int] makes of a character before it reads the literal: a blank
    of Unicode becomes a space and a decimal digit of any script its ASCII
    digit; any other character beyond ASCII becomes a question mark, on
    which the reading fails. *)
Definition to_decimal_ascii (c : char) : char :=
  if c <? 127 then c
  else if isspace c then SP
  else match decimal_value c with
       | Some d => 0x30 + d
       | None => 0x3f
       end.

Definition ascii_digit (c : char) : bool := (0x30 <=? c) && (c <=? 0x39).

(** [int(s)] for a [str]: the blanks around the literal are skipped, a
    sign may come first, the digits may be of any script and single
    underscores may stand between them; a literal of more than 4300 digits
    is refused, which is the limit of the interpreter unless it is
    reconfigured. [None] stands for [ValueError]. *)
Definition py_int (s : str) : option Z :=
  let a := List.map to_decimal_ascii s in
  let read (body : str) : option Z :=
    if (4300 <? length (filter ascii_digit body))%nat then None
    else read_digits 0 false body in
  match rstrip_by ascii_space (lstrip_by ascii_space a) with
  | c :: t =>
      if c =? 0x2d then option_map Z.opp (read t)
      else if c =? 0x2b then read t
      else read (c :: t)
  | [] => None
  end.

Local Close Scope N_scope.

Definition int_of (s : str) : result Z :=
  match py_int s with
  | Some z => Ok z
  | None => Raise ValueError
  end.

(** [str(n)], as an f-string prints an integer. *)
Definition str_of_int (z : Z) : str := lit (NilZero.string_of_int (Z.to_int z)).

(** ** The collaborators

    [judge_story] and the chat completion behind [story_editor] are calls
    to a remote service; each is an event that answers with a text.
    [JudgeStory] carries the arguments of [judge_story], without the rubric,
    which is a constant of the module; [ChatCompletion] carries the model,
    the two messages and the parameters of the request, and answers with
    [resp.choices[0].message.content]. A call that fails is outside the
    model. *)

Variant llmE : Type -> Type :=
| JudgeStory (story prompt : str) (max_tokens : Z) (temperature : QArith_base.Q)
  : llmE str
| ChatCompletion (model : string) (system user : str)
                 (max_tokens : Z) (temperature : QArith_base.Q)
  : llmE str.

(** ** [story_editor] *)

Definition issue_line (cat : str) (n : Z) (info : critique) : str :=
  lit "- " ++ cat ++ lit ": score " ++ str_of_int n ++ lit " because "
  ++ reasoning info.

(** The loop over [feedback.items()] that fills [issues]. *)
Fixpoint collect_issues (issues : list str) (items : dict)
  : result (list str) :=
  match items with
  | [] => Ok issues
  | (cat, info) :: items' =>
      do n <- int_of (score info);
      if (n <? 4)%Z
      then collect_issues (issues ++ [issue_line cat n info]) items'
      else collect_issues issues items'
  end.

Definition editor_system : str :=
  lit "You are a kind, skilled and creative children's story editor. "
  ++ lit "Revise the story to address all the critiques listed below, "
  ++ lit "while preserving the original story and only replacing the mandatory parts in order to make the story suitable for ages 5" ++ [EN_DASH] ++ lit "10."
  ++ lit "The revised story has to be a bedtime story suitable for kids aged 5" ++ [EN_DASH] ++ lit "10"
  ++ lit "You need to first provide the title, then one-sentense summary and then the story itself"
  ++ lit "The story's purpose is to calm the child down, "
  ++ lit "so the story has to avoid high-stakes tension and favor emotional safety."
  ++ lit "The structure has to be simple and predictable, with a clear beginning, middle, and end, only one story arch, no subplots. "
  ++ lit "Do not start the story with the exact phrase " ++ [LSQUO] ++ lit "Once upon a time." ++ [RSQUO] ++ lit " Instead open with an engaging scene description, action, dialogue, or question"
  ++ lit "Language has to be simple and easy to understand, with an average of 5-8 words. The story's rythm should be gentle"
  ++ lit "Do not use complex metaphors, sarcasm, or high vocabulary density. "
  ++ lit "Protagonist's should be safe, soft, and relatable (for example, a child or young animal)."
  ++ lit "Avoid gender stereotypes, use gender-neutral language. "
  ++ lit "Add 1 psychological trigger per story: verbal and visual cues of being loved and safe, such as hugs, cuddles, warm blankets, soft toys, etc. "
  ++ lit "You should always ensure that the story has 500" ++ [EN_DASH] ++ lit "600 words. When read aloud, at speed ~100" ++ [0x202f%N] ++ lit "wpm, the story has to take 4" ++ [EN_DASH] ++ lit "6" ++ [0xa0%N] ++ lit "minutes to read. The story has to have 30 to 50 sentences. It has to provide narrative richness.".

Definition editor_user_msg (prompt story suggestions : str) : str :=
  lit "Original prompt:" ++ [LF] ++ prompt ++ [LF; LF]
  ++ lit "Original story:" ++ [LF] ++ story ++ [LF; LF]
  ++ lit "Critiques to address:" ++ [LF]
  ++ suggestions ++ [LF; LF]
  ++ lit "Please rewrite the entire story, incorporating improvements for each critique. "
  ++ lit "Maintain a clear beginning, middle, and end. "
  ++ lit "Do not start with 'Once upon a time.'".

Import ITreeNotations.
Local Open Scope itree_scope.
Local Open Scope list_scope.

Definition story_editor (prompt story : str) (feedback : dict)
           (max_tokens : Z) (temperature : QArith_base.Q)
  : itree llmE (result str) :=
  match collect_issues [] feedback with
  | Raise e => Ret (Raise e)
  | Ok [] => Ret (Ok story)                 (* everything scored 4 *)
  | Ok ((_ :: _) as issues) =>
      let suggestions := join [LF] issues in
      resp <- ITree.trigger
                (ChatCompletion "gpt-3.5-turbo" editor_system
                   (editor_user_msg prompt story suggestions)
                   max_tokens temperature);;
      Ret (Ok (strip resp))
  end.

(** ** The revision loop of [main] *)

(** [[(cat, info) for cat, info in parsed_feedback.items()
      if int(info["score"]) < 4]] *)
Fixpoint low_entries (items : dict) : result dict :=
  match items with
  | [] => Ok []
  | (cat, info) :: items' =>
      do n <- int_of (score info);
      do low <- low_entries items';
      Ok (if (n <? 4)%Z then (cat, info) :: low else low)
  end.

(** The body of the [while True] loop from the answer of the judge on;
    [st] is [(story, iteration)]. [inr] is the [break], with the story that
    [main] prints, or an exception; [inl] is the state of the next pass. *)
Definition after_judge (user_input : str) (st : str * Z) (judge_feedback : str)
  : itree llmE ((str * Z) + result str) :=
  let '(story, iteration) := st in
  match parse_judge_feedback judge_feedback with
  | Raise e => Ret (inr (Raise e))
  | Ok parsed_feedback =>
      match low_entries parsed_feedback with
      | Raise e => Ret (inr (Raise e))
      | Ok [] => Ret (inr (Ok story))
      | Ok (_ :: _) =>
          r <- story_editor user_input story parsed_feedback 1200
                            (QArith_base.Qmake 7 10);;
          match r with
          | Raise e => Ret (inr (Raise e))
          | Ok revised_story => Ret (inl (revised_story, (iteration + 1)%Z))
          end
      end
  end.

(** One pass of the loop. *)
Definition revision_step (user_input : str) (st : str * Z)
  : itree llmE ((str * Z) + result str) :=
  judge_feedback <- ITree.trigger
                      (JudgeStory (fst st) user_input 2000
                                  (QArith_base.Qmake 1 10));;
  after_judge user_input st judge_feedback.

Definition revision_loop (user_input story : str) : itree llmE (result str) :=
  ITree.iter (revision_step user_input) (story, 1%Z).

(** ** What a pattern matches

    [Matches r pos a rest c c']: at offset [pos], with [rest] behind it, the
    text [a] is one of the ways [r] can match, turning the groups [c] into
    [c']. The matcher returns the first of these ways that its continuation
    accepts. *)

Inductive Matches : regex -> nat -> str -> str -> captures -> captures -> Prop :=
| M_eps pos rest c : Matches Eps pos [] rest c c
| M_bol rest c : Matches Bol 0 [] rest c c
| M_eol_end pos c : Matches Eol pos [] [] c c
| M_eol_nl pos c : Matches Eol pos [] [LF] c c
| M_chr p pos x rest c : p x = true -> Matches (Chr p) pos [x] rest c c
| M_star g p pos a rest c :
    forallb p a = true -> Matches (Star g p) pos a rest c c
| M_seq r1 r2 pos a1 a2 rest c c1 c2 :
    Matches r1 pos a1 (a2 ++ rest) c c1 ->
    Matches r2 (pos + length a1) a2 rest c1 c2 ->
    Matches (r1 ;; r2) pos (a1 ++ a2) rest c c2
| M_alt_l r1 r2 pos a rest c c' :
    Matches r1 pos a rest c c' -> Matches (Alt r1 r2) pos a rest c c'
| M_alt_r r1 r2 pos a rest c c' :
    Matches r2 pos a rest c c' -> Matches (Alt r1 r2) pos a rest c c'
| M_grp name r pos a rest c c' :
    Matches r pos a rest c c' ->
    Matches (Grp name r) pos a rest c ((name, a) :: c').

(** *** The two shapes, spelled out

    [inline_parts cat d reason s]: [s] reads as a category, a score in
    parentheses, separators and a reasoning, the way the inline pattern
    cuts it. *)
Inductive inline_parts (cat : str) (d : char) (reason : str) : str -> Prop :=
| inline_parts_intro w1 w2 w3 w4 sp w5 tl :
    cat <> [] -> forallb dot cat = true ->
    forallb isspace w1 = true -> forallb isspace w2 = true ->
    digit14 d = true ->
    forallb isspace w3 = true -> forallb isspace w4 = true ->
    forallb separator sp = true -> forallb isspace w5 = true ->
    reason <> [] -> forallb dot reason = true ->
    tl = [] \/ tl = [LF] ->
    inline_parts cat d reason
      (cat ++ w1 ++ lit "(" ++ w2 ++ [d] ++ w3 ++ lit ")" ++ w4 ++ sp ++ w5
           ++ reason ++ tl).

(** [header_parts cat d s]: [s] reads as a category, a colon and a score,
    the way the first-line pattern of the two-line shape cuts it. *)
Inductive header_parts (cat : str) (d : char) : str -> Prop :=
| header_parts_intro w1 w2 tl :
    cat <> [] -> forallb dot cat = true ->
    forallb isspace w1 = true -> digit14 d = true ->
    forallb isspace w2 = true ->
    tl = [] \/ tl = [LF] ->
    header_parts cat d (cat ++ lit ":" ++ w1 ++ [d] ++ w2 ++ tl).

(** What one entry assigns to [feedback], if anything. *)
Definition entry_record (entry : str) : option (str * critique) :=
  match parse_entry [] entry with
  | Ok [kv] => Some kv
  | _ => None
  end.

(** The records of the entries of a judge text, in the order of the text. *)
Fixpoint records_of (entries : list str) : list (str * critique) :=
  match entries with
  | [] => []
  | e :: es =>
      match entry_record e with
      | Some kv => kv :: records_of es
      | None => records_of es
      end
  end.

Definition records (text : str) : list (str * critique) :=
  records_of (re_split blank_re (strip text)).

(** The value of the last record under key [k]. *)
Fixpoint last_value (k : str) (recs : list (str * critique)) : option critique :=
  match recs with
  | [] => None
  | (k', v) :: recs' =>
      match last_value k recs' with
      | Some v' => Some v'
      | None => if str_eqb k' k then Some v else None
      end
  end.

(** The keys in the order of their first occurrence. *)
Fixpoint first_occurrences (seen ks : list str) : list str :=
  match ks with
  | [] => []
  | k :: ks' =>
      if existsb (str_eqb k) seen then first_occurrences seen ks'
      else k :: first_occurrences (k :: seen) ks'
  end.

(** *** Writing a CritiqueSet back as judge text *)

Inductive shape : Type := Inline | TwoLine.

Definition write_entry (sh : shape) (e : str * critique) : str :=
  match sh with
  | Inline =>
      fst e ++ lit " (" ++ score (snd e) ++ lit "): " ++ reasoning (snd e)
  | TwoLine =>
      fst e ++ lit ": " ++ score (snd e) ++ [LF]
          ++ lit "Reasoning: " ++ reasoning (snd e)
  end.

(** Entries separated by one blank line; each entry has its own shape. *)
Definition write_all (l : list (shape * (str * critique))) : str :=
  join [LF; LF] (List.map (fun x => write_entry (fst x) (snd x)) l).

(** A text with no blank at either end. *)
Definition stripped (s : str) : bool :=
  match s with
  | [] => true
  | c :: _ => negb (isspace c) && negb (isspace (last s c))
  end.

Definition open_paren : char := N_of_ascii "(".
Definition colon : char := N_of_ascii ":".

(** Labels that survive the trip: not empty, no blank at either end, on
    one line, without an opening parenthesis. *)
Definition plain_label (c : str) : bool :=
  negb (str_eqb c []) && stripped c
  && forallb (fun x => negb (islinebreak x) && negb (N.eqb x open_paren)) c.

Definition plain_score (s : str) : bool :=
  match s with
  | [d] => digit14 d
  | _ => false
  end.

(** Reasonings that survive the trip: no blank at either end and on one
    line; in the inline shape not empty, in the two-line shape without an
    opening parenthesis. *)
Definition plain_reasoning (sh : shape) (r : str) : bool :=
  stripped r && forallb (fun x => negb (islinebreak x)) r
  && match sh with
     | Inline => negb (str_eqb r [])
     | TwoLine => forallb (fun x => negb (N.eqb x open_paren)) r
     end.

Definition plain_entry (x : shape * (str * critique)) : bool :=
  plain_label (fst (snd x)) && plain_score (score (snd (snd x)))
  && plain_reasoning (fst x) (reasoning (snd (snd x))).

(** The line of a revision request as the specification words it. *)
Definition worded_line (cat n reason : str) : str :=
  cat ++ lit ": score " ++ n ++ lit " because " ++ reason.

(** The entries of a CritiqueSet whose score reads below 4. *)
Definition below4 (e : str * critique) : bool :=
  match py_int (score (snd e)) with
  | Some n => (n <? 4)%Z
  | None => false
  end.

(** *** Parts of the patterns, named for the proofs *)

(** The inline pattern after the closing parenthesis. *)
Definition inline_tail : regex :=
  (Star Greedy isspace ;; Star Greedy separator ;; Star Greedy isspace ;;
   Grp "reason" (Plus Greedy dot) ;; Eol)%re.

(** The inline pattern after the category. *)
Definition inline_rest : regex :=
  (Star Greedy isspace ;; Chr (of_ascii "(") ;; Star Greedy isspace ;;
   Grp "score" (Chr digit14) ;; Star Greedy isspace ;;
   Chr (of_ascii ")") ;; inline_tail)%re.

(** The first-line pattern after the category. *)
Definition header_rest : regex :=
  (Chr (of_ascii ":") ;; Star Greedy isspace ;; Grp "score" (Chr digit14) ;;
   Star Greedy isspace ;; Eol)%re.

(** Every newline of [s] is directly followed by a character that is not
    a blank: [s] holds no blank line and does not end in a newline. *)
Fixpoint newlines_followed (s : str) : bool :=
  match s with
  | [] => true
  | c :: t =>
      (if N.eqb c LF
       then match t with
            | d :: _ => negb (isspace d)
            | [] => false
            end
       else true)
      && newlines_followed t
  end.

(** A block of judge text as [write_all] lays it out: it starts with a
    character that is not a blank and holds no blank line. *)
Definition block_like (b : str) : bool :=
  match b with
  | c :: _ => negb (isspace c) && newlines_followed b
  | [] => false
  end.

(** [f] applied to the last text of a list. *)
Fixpoint map_last (f : str -> str) (l : list str) : list str :=
  match l with
  | [] => []
  | [b] => [f b]
  | b :: l' => b :: map_last f l'
  end.

(** [feedback[cat] = info] for a record [(cat, info)]. *)
Definition assign (d : dict) (kv : str * critique) : dict :=
  dict_set (fst kv) (snd kv) d.

(** *** Score tokens in range

    [s] holds a digit from 1 to 4 in parentheses. *)
Definition has_inline_score (s : str) : Prop :=
  exists pre w2 d w3 post,
    s = pre ++ lit "(" ++ w2 ++ [d] ++ w3 ++ lit ")" ++ post
    /\ forallb isspace w2 = true /\ digit14 d = true
    /\ forallb isspace w3 = true.

(** [l] ends in a colon, blanks and a digit from 1 to 4. *)
Definition has_header_score (l : str) : Prop :=
  exists pre w1 d,
    l = pre ++ lit ":" ++ w1 ++ [d]
    /\ forallb isspace w1 = true /\ digit14 d = true.

(** *** What a pass of the loop does *)

(** The pass ends the loop with story [s]. *)
Definition stops_with (t : itree llmE ((str * Z) + result str)) (s : str) : Prop :=
  observe t = RetF (inr (Ok s)).

(** An event of the collaborators, as a request for a text. *)
Definition request_of {X : Type} (e : llmE X) : llmE str :=
  match e with
  | JudgeStory story prompt max_tokens temperature =>
      JudgeStory story prompt max_tokens temperature
  | ChatCompletion model system user max_tokens temperature =>
      ChatCompletion model system user max_tokens temperature
  end.

(** The call a program starts with, if it starts with one. *)
Definition first_request {R : Type} (t : itree llmE R) : option (llmE str) :=
  match observe t with
  | VisF e _ => Some (request_of e)
  | _ => None
  end.

(** The program calls the collaborator with request [e]. *)
Definition asks {R : Type} (t : itree llmE R) (e : llmE str) : Prop :=
  first_request t = Some e.

(** The line of [issues] for an entry whose score reads as an integer. *)
Definition issue_of (e : str * critique) : str :=
  match py_int (score (snd e)) with
  | Some n => lit "- " ++ worded_line (fst e) (str_of_int n) (reasoning (snd e))
  | None => []
  end.

(** The score of an entry reads as an integer. *)
Definition has_int (e : str * critique) : bool :=
  match py_int (score (snd e)) with
  | Some _ => true
  | None => false
  end.

(** The request [story_editor] sends for [feedback]. *)
Definition revision_request (prompt story : str) (feedback : dict)
           (max_tokens : Z) (temperature : QArith_base.Q) : llmE str :=
  ChatCompletion "gpt-3.5-turbo" editor_system
    (editor_user_msg prompt story
       (join [LF] (List.map issue_of (filter below4 feedback))))
    max_tokens temperature.

From Stdlib Require Import DecimalPos.
From ITree Require Import Props.Leaf.

(** ** The front of [main]: the topic, the suggestions and the first story

    [generate_story], [filter_user_input], [suggest_safe_prompts] and the
    whole of [main], with the text primitives they add to those above. *)

(** *** More of Python's text *)

(** [c in chars] for a character [c]. *)
Definition char_in (chars : str) (c : char) : bool := existsb (N.eqb c) chars.

(** [s.lstrip(chars)] *)
Definition lstrip_chars (chars : str) (s : str) : str :=
  lstrip_by (char_in chars) s.

(** [s.split(sep)] for a separator of one character; [cur] holds the
    current piece, reversed. The empty text gives one empty piece. *)
Fixpoint str_split_from (sep : char) (cur : str) (s : str) : list str :=
  match s with
  | [] => [rev cur]
  | c :: t =>
      if N.eqb c sep then rev cur :: str_split_from sep [] t
      else str_split_from sep (c :: cur) t
  end.

Definition str_split (sep : char) (s : str) : list str :=
  str_split_from sep [] s.

Definition DQUOTE : char := 0x22%N.

Local Open Scope N_scope.

(** The other characters with a digit value: superscripts, subscripts,
    circled and parenthesized digits and the like. *)
Definition other_digit_runs : list (N * N) :=
  [(0xb2, 0xb3); (0xb9, 0xb9); (0x1369, 0x1371); (0x19da, 0x19da);
   (0x2070, 0x2070); (0x2074, 0x2079); (0x2080, 0x2089); (0x2460, 0x2468);
   (0x2474, 0x247c); (0x2488, 0x2490); (0x24ea, 0x24ea); (0x24f5, 0x24fd);
   (0x24ff, 0x24ff); (0x2776, 0x277e); (0x2780, 0x2788); (0x278a, 0x2792);
   (0x10a40, 0x10a43); (0x10e60, 0x10e68); (0x11052, 0x1105a);
   (0x1f100, 0x1f10a)].

Definition isdigit_char (c : char) : bool :=
  is_decimal c || existsb (in_run c) other_digit_runs.

(** [s.isdigit()]: [s] is not empty and all its characters are digits. *)
Definition isdigit (s : str) : bool :=
  negb (str_eqb s []) && forallb isdigit_char s.

Local Close Scope N_scope.

(** *** The user and the chat completions

    [input] and [print] are events of the console. A call to
    [client.chat.completions.create] is an event that carries the model,
    the contents of the system and of the user message and the keyword
    arguments the call passes, [None] for one it leaves out; it answers with
    [response.choices[0].message.content]. The program as a whole has these
    events and those of the revision loop. *)

Variant userE : Type -> Type :=
| Input (prompt : str) : userE str
| Print (text : str) : userE unit.

Variant chatE : Type -> Type :=
| Create (model : string) (system user : str) (stream : option bool)
         (max_tokens : option Z) (temperature : option QArith_base.Q)
  : chatE str.

Definition progE : Type -> Type := userE +' chatE +' llmE.

Definition input (prompt : str) : itree progE str :=
  ITree.trigger (inl1 (Input prompt)).

Definition print (text : str) : itree progE unit :=
  ITree.trigger (inl1 (Print text)).

Definition create (model : string) (system user : str) (stream : option bool)
           (max_tokens : option Z) (temperature : option QArith_base.Q)
  : itree progE str :=
  ITree.trigger (inr1 (inl1 (Create model system user stream max_tokens
                                    temperature))).

(** *** [generate_story] *)

Definition storyteller_system : str :=
  lit "You are a kind and creative children's storyteller.".

Definition storyteller_user_msg (prompt : str) : str :=
  lit "Write an original bedtime story for kids aged 5" ++ [EN_DASH] ++ lit "10 about: " ++ prompt ++ lit ". "
  ++ lit "You need to first provide the title, then one-sentense summary and then the story itself"
  ++ lit "The story's purpose is to calm the child down, "
  ++ lit "so the story has to avoid high-stakes tension and favor emotional safety. It has to include themes suitable for children aged 5" ++ [EN_DASH] ++ lit "10, such as friendship, adventure, discovery, and imagination. "
  ++ lit "The structure has to be simple and predictable, with a clear beginning, middle, and end, only one story arc, no subplots. "
  ++ lit "Do not start the story with the exact phrase " ++ [LSQUO] ++ lit "Once upon a time." ++ [RSQUO] ++ lit " Instead open with an engaging scene description, action, dialogue, or question"
  ++ lit "Language has to be simple and easy to understand, with an average of 5-8 words. The story's rythm should be gentle"
  ++ lit "Do not use complex metaphors, sarcasm, or high vocabulary density. "
  ++ lit "Protagonist's should be safe, soft, and relatable (for example, a child or young animal)."
  ++ lit "Avoid gender stereotypes, use gender-neutral language. "
  ++ lit "Add 1 psychological trigger per story: verbal and visual cues of being loved and safe, such as hugs, cuddles, warm blankets, soft toys, etc. "
  ++ lit "You should always ensure that the story has 500" ++ [EN_DASH] ++ lit "600 words. When read aloud, at speed ~100" ++ [0x202f%N] ++ lit "wpm, the story has to take 4" ++ [EN_DASH] ++ lit "6" ++ [0xa0%N] ++ lit "minutes to read. The story has to have 30 to 50 sentences. It has to provide narrative richness.".

Definition generate_story (prompt : str) (max_tokens : Z)
           (temperature : QArith_base.Q) : itree progE str :=
  create "gpt-3.5-turbo" storyteller_system (storyteller_user_msg prompt)
         (Some false) (Some max_tokens) (Some temperature).

(** *** [filter_user_input] *)

Definition filter_user_input (prompt : str) : itree progE str :=
  content <- create "gpt-3.5-turbo"
               (lit "You help classify children's story ideas.")
               (lit "Is this appropriate for a 5" ++ [EN_DASH]
                ++ lit "10 year-old bedtime story? '" ++ prompt ++ lit "'"
                ++ [LF; LF]
                ++ lit "Categories: [SAFE, AMBIGUOUS, INAPPROPRIATE]. Just return the category.")
               None None None;;
  Ret (strip content).

(** *** [suggest_safe_prompts] *)

(** [line.lstrip("0123456789. ").strip()] *)
Definition clean_line (line : str) : str :=
  strip (lstrip_chars (lit "0123456789. ") line).

(** The topics in the answer of the model: its lines that are not blank,
    without their numbering. *)
Definition topics_of (content : str) : list str :=
  let lines := str_split LF (strip content) in
  List.map clean_line
           (filter (fun line => negb (str_eqb (strip line) [])) lines).

Definition suggest_safe_prompts (n : Z) : itree progE (list str) :=
  content <- create "gpt-3.5-turbo"
               (lit "You help suggest bedtime story topics suitable for children aged 5"
                ++ [EN_DASH] ++ lit "10.")
               (lit "Suggest " ++ str_of_int n
                ++ lit " original, imaginative, and safe bedtime story topics. Each should be calming, age-appropriate, and involve animals, friendships, or gentle adventures. Respond in a plain numbered list, one per line.")
               None (Some 100%Z) (Some (QArith_base.Qmake 7 10));;
  Ret (topics_of content).

(** *** [main]: the loop that settles the topic *)

(** [for i, idea in enumerate(suggestions, start=1): print(f"{i}. {idea}")],
    from number [i] on. *)
Fixpoint print_ideas (i : Z) (ideas : list str) : itree progE unit :=
  match ideas with
  | [] => Ret tt
  | idea :: rest =>
      print (str_of_int i ++ lit ". " ++ idea);;
      print_ideas (i + 1)%Z rest
  end.

(** The [if]/[elif] chain on the answer of the classifier. [inr] is the
    [break], with the topic, or an exception; [inl] is the list of
    suggestions the next pass starts with. *)
Definition after_classification (suggestions : list str)
           (user_input classification : str)
  : itree progE (list str + result str) :=
  if str_eqb classification (lit "SAFE") then Ret (inr (Ok user_input))
  else if str_eqb classification (lit "AMBIGUOUS") then
    print ([LF] ++ lit "That" ++ [RSQUO] ++ lit "s a bit unclear for a story. Can you rephrase it or be more specific?" ++ [LF]);;
    Ret (inl suggestions)
  else if str_eqb classification (lit "INAPPROPRIATE") then
    print ([LF] ++ lit "That topic might not be suitable for a bedtime story.");;
    suggestions' <- suggest_safe_prompts 3;;
    print (lit "Here are some safer ideas:" ++ [LF]);;
    print_ideas 1 suggestions';;
    print ([LF] ++ lit "You can type a number (1" ++ [EN_DASH] ++ lit "3) to use a suggestion above, or enter a new idea." ++ [LF]);;
    Ret (inl suggestions')
  else
    print (lit "Unexpected classification. Please try again.");;
    Ret (inl suggestions).

(** A list is true when it is not empty. *)
Definition truthy {A : Type} (l : list A) : bool :=
  match l with
  | [] => false
  | _ :: _ => true
  end.

(** The body of the loop from the answer of the user on. *)
Definition after_input (suggestions : list str) (raw : str)
  : itree progE (list str + result str) :=
  let user_input := strip raw in
  if isdigit user_input && truthy suggestions then
    (* the user selected one of the numbered suggestions *)
    match py_int user_input with
    | None => Ret (inr (Raise ValueError))
    | Some n =>
        let index := (n - 1)%Z in
        if ((0 <=? index) && (index <? Z.of_nat (length suggestions)))%Z then
          let user_input := nth (Z.to_nat index) suggestions [] in
          print ([LF] ++ lit "Great, we'll use: " ++ [DQUOTE] ++ user_input
                      ++ [DQUOTE]);;
          Ret (inr (Ok user_input))
        else
          print (lit "Invalid number. Please select a number from the list.");;
          Ret (inl suggestions)
    end
  else
    (* the user typed a topic *)
    classification <- filter_user_input user_input;;
    after_classification suggestions user_input classification.

(** One pass of the loop. *)
Definition choose_step (suggestions : list str)
  : itree progE (list str + result str) :=
  raw <- input (if truthy suggestions
                then lit "Enter a new idea or choose a number from above: "
                else lit "What should the story be about? ");;
  after_input suggestions raw.

Definition choose_topic : itree progE (result str) :=
  ITree.iter choose_step [].

(** *** [main]

    [generated_stories] is the list of the module, which [main] appends to;
    the result of [main] here is that list as [main] leaves it. *)
Definition main (generated_stories : list str)
  : itree progE (result (list str)) :=
  r <- choose_topic;;
  match r with
  | Raise e => Ret (Raise e)
  | Ok user_input =>
      story <- generate_story user_input 2000 (QArith_base.Qmake 7 10);;
      let generated_stories := generated_stories ++ [story] in
      r <- translate (fun T (e : llmE T) => inr1 (inr1 e) : progE T)
                     (revision_loop user_input story);;
      match r with
      | Raise e => Ret (Raise e)
      | Ok story =>
          print ([LF] ++ story);;
          Ret (Ok generated_stories)
      end
  end.

(** *** Collaborators that answer by a function of the request

    Used to say what the revision loop computes when the judge and the
    reviser are deterministic. *)

Definition answer (o : forall T, llmE T -> T) : llmE ~> itree void1 :=
  fun T e => Ret (o T e).

(** The story of the next pass, if the judge asks for one. *)
Definition next_story (o : forall T, llmE T -> T) (user_input story : str)
  : option str :=
  match parse_judge_feedback
          (o _ (JudgeStory story user_input 2000 (QArith_base.Qmake 1 10))) with
  | Ok parsed =>
      match filter below4 parsed with
      | [] => None
      | _ :: _ =>
          Some (strip (o _ (revision_request user_input story parsed 1200
                                             (QArith_base.Qmake 7 10))))
      end
  | Raise _ => None
  end.

(** The story the judge is satisfied with, if that takes [n] revisions at
    most. *)
Fixpoint final_story (n : nat) (o : forall T, llmE T -> T)
         (user_input story : str) : option str :=
  match next_story o user_input story with
  | None => Some story
  | Some story' =>
      match n with
      | O => None
      | S n' => final_story n' o user_input story'
      end
  end.

(** *** Texts laid out in blocks

    The blocks [bs] with a separator between each two: a newline, the
    blanks [ws] taken from [seps], a newline. When [seps] runs out the
    separator is one blank line. *)
Fixpoint laid_out (seps : list str) (bs : list str) : str :=
  match bs with
  | [] => []
  | [b] => b
  | b :: bs' =>
      match seps with
      | ws :: seps' => b ++ [LF] ++ ws ++ [LF] ++ laid_out seps' bs'
      | [] => b ++ [LF; LF] ++ laid_out [] bs'
      end
  end.

(** *** The line that carries the reasoning

    [kw] is the word [w] up to the case of its letters. *)
Definition same_letters (w : string) (kw : str) : bool :=
  str_eqb (List.map ascii_lower kw) (List.map ascii_lower (lit w)).

Definition reason_keyword (kw : str) : bool :=
  same_letters "Justification" kw || same_letters "Reasoning" kw.

(** A blank that does not end a line. *)
Definition inline_blank (c : char) : bool := isspace c && negb (islinebreak c).

(** *** Numbered lists

    The characters [suggest_safe_prompts] removes from the start of a
    line. *)
Definition numbering : str := lit "0123456789. ".

(** A topic that comes back as it is: not empty, on one line, no blank at
    either end, and not starting with a digit or a dot. *)
Definition plain_topic (t : str) : bool :=
  match t with
  | c :: _ =>
      stripped t && negb (char_in numbering c)
      && forallb (fun x => negb (N.eqb x LF)) t
  | [] => false
  end.

(** A line of a numbered list: a numbering and a topic. *)
Definition numbered (x : str * str) : str := fst x ++ snd x.

Definition numbered_ok (x : str * str) : bool :=
  forallb (char_in numbering) (fst x) && plain_topic (snd x).

(** *** The number a text of decimal digits stands for *)

Definition digit_step (acc : Z) (c : char) : Z :=
  (10 * acc + match decimal_value c with
              | Some d => Z.of_N d
              | None => 0
              end)%Z.

Definition digits_value (s : str) : Z := fold_left digit_step s 0%Z.

(** The number that decimal digits stand for, after the digits of [acc]. *)
Fixpoint uint_value (acc : Z) (u : Decimal.uint) : Z :=
  match u with
  | Decimal.Nil => acc
  | Decimal.D0 l => uint_value (10 * acc + 0) l
  | Decimal.D1 l => uint_value (10 * acc + 1) l
  | Decimal.D2 l => uint_value (10 * acc + 2) l
  | Decimal.D3 l => uint_value (10 * acc + 3) l
  | Decimal.D4 l => uint_value (10 * acc + 4) l
  | Decimal.D5 l => uint_value (10 * acc + 5) l
  | Decimal.D6 l => uint_value (10 * acc + 6) l
  | Decimal.D7 l => uint_value (10 * acc + 7) l
  | Decimal.D8 l => uint_value (10 * acc + 8) l
  | Decimal.D9 l => uint_value (10 * acc + 9) l
  end.

(** *** Two collaborators for the examples

    A judge that wants the story [draft] revised and is pleased with any
    other, and a judge that is never pleased. *)
Definition pleased_after_one : forall T, llmE T -> T :=
  fun T e =>
    match e in llmE T return T with
    | JudgeStory story _ _ _ =>
        if str_eqb story (lit "draft") then lit "tone: 2" else lit "tone: 4"
    | ChatCompletion _ _ _ _ _ => lit " better "
    end.

Definition never_pleased : forall T, llmE T -> T :=
  fun T e =>
    match e in llmE T return T with
    | JudgeStory _ _ _ _ => lit "tone: 2"
    | ChatCompletion _ _ _ _ _ => lit "again"
    end.

(** *** Lines of text

    A line of text: not empty, no blank at either end, no line boundary
    inside. *)
Definition text_line (l : str) : bool :=
  negb (str_eqb l []) && stripped l
  && forallb (fun x => negb (islinebreak x)) l.

(** *** Scores written in digits

    The score of an entry is written in the digits [0] to [9], no more of
    them than [int] accepts. *)
Definition digits_score (e : str * critique) : bool :=
  let s := score (snd e) in
  negb (str_eqb s []) && forallb ascii_digit s && (length s <=? 4300)%nat.

(** *** The user and the model, answering by a function of the request

    Used to say what a pass of the topic loop computes from the answers it
    gets. *)

Definition reply (o : forall T, progE T -> T) : progE ~> itree void1 :=
  fun T e => Ret (o T e).

(** The answer of [o] to a request to the chat model. *)
Definition chat_answer (o : forall T, progE T -> T) (e : chatE str) : str :=
  o str (inr1 (inl1 e)).

(** The request to the chat model a program starts with, if it starts with
    one. *)
Definition chat_request {R : Type} (t : itree progE R) : option (chatE str) :=
  match observe t with
  | VisF (inr1 (inl1 (Create model system user stream max_tokens temperature))) _ =>
      Some (Create model system user stream max_tokens temperature)
  | _ => None
  end.

(** A user and a model for the examples: the classifier finds every idea
    unsuitable, and the model suggests two topics. *)
Definition cautious_model : forall T, progE T -> T :=
  fun T e =>
    match e with
    | inl1 u =>
        match u in userE X return X with
        | Input _ => lit "dragons "
        | Print _ => tt
        end
    | inr1 (inl1 c) =>
        match c in chatE X return X with
        | Create _ system _ _ _ _ =>
            if str_eqb system (lit "You help classify children's story ideas.")
            then lit " INAPPROPRIATE" ++ [LF]
            else lit "1. a sleepy fox" ++ [LF] ++ lit "2. the moon" ++ [LF]
        end
    | inr1 (inr1 l) => never_pleased l
    end.


(** * Proofs *)

Unset Implicit Arguments.

Section StarFacts.
Variable R : Type.
Implicit Types (k : nat -> str -> option R) (p : char -> bool).

Lemma star_greedy_sound p k : forall s pos x,
  star_greedy p pos s k = Some x ->
  exists a rest, s = a ++ rest /\ forallb p a = true
                 /\ k (pos + length a) rest = Some x.
Proof.
  induction s as [|c t IH]; intros pos x H; simpl in H.
  - exists [], []. simpl. rewrite Nat.add_0_r. auto.
  - destruct (p c) eqn:Hc.
    + destruct (star_greedy p (S pos) t k) eqn:Hg.
      * inversion H; subst. destruct (IH _ _ Hg) as (a & rest & -> & Ha & Hk).
        exists (c :: a), rest. simpl. rewrite Hc, Ha.
        replace (pos + S (length a)) with (S pos + length a) by lia. auto.
      * exists [], (c :: t). simpl. rewrite Nat.add_0_r. auto.
    + exists [], (c :: t). simpl. rewrite Nat.add_0_r. auto.
Qed.

Lemma star_lazy_sound p k : forall s pos x,
  star_lazy p pos s k = Some x ->
  exists a rest, s = a ++ rest /\ forallb p a = true
                 /\ k (pos + length a) rest = Some x
                 /\ forall a' rest', s = a' ++ rest' -> length a' < length a ->
                                     k (pos + length a') rest' = None.
Proof.
  induction s as [|c t IH]; intros pos x H; simpl in H.
  - destruct (k pos []) eqn:Hk; [|discriminate]. inversion H; subst.
    exists [], []. simpl. rewrite Nat.add_0_r. repeat split; auto.
    intros; lia.
  - destruct (k pos (c :: t)) eqn:Hk.
    + inversion H; subst. exists [], (c :: t). simpl. rewrite Nat.add_0_r.
      repeat split; auto. intros; lia.
    + destruct (p c) eqn:Hc; [|discriminate].
      destruct (IH _ _ H) as (a & rest & -> & Ha & Hka & Hmin).
      exists (c :: a), rest. simpl. rewrite Hc, Ha.
      replace (pos + S (length a)) with (S pos + length a) by lia.
      repeat split; auto.
      intros a' rest' E L. destruct a' as [|c' a'].
      * simpl in E. subst rest'. simpl. rewrite Nat.add_0_r. exact Hk.
      * simpl in E. inversion E; subst c'.
        replace (pos + length (c :: a')) with (S pos + length a') by (simpl; lia).
        apply Hmin; auto. simpl in L. lia.
Qed.

Lemma star_greedy_complete p k : forall a rest pos x,
  forallb p a = true -> k (pos + length a) rest = Some x ->
  exists y, star_greedy p pos (a ++ rest) k = Some y.
Proof.
  induction a as [|c a IH]; intros rest pos x Ha Hk; simpl in *.
  - rewrite Nat.add_0_r in Hk. destruct rest as [|d rest]; simpl.
    + eauto.
    + destruct (p d); [|eauto].
      destruct (star_greedy p (S pos) rest k); eauto.
  - apply andb_true_iff in Ha as [Hc Ha]. rewrite Hc.
    replace (pos + S (length a)) with (S pos + length a) in Hk by lia.
    destruct (IH rest (S pos) x Ha Hk) as [y ->]. eauto.
Qed.

Lemma star_lazy_complete p k : forall a rest pos x,
  forallb p a = true -> k (pos + length a) rest = Some x ->
  exists y, star_lazy p pos (a ++ rest) k = Some y.
Proof.
  induction a as [|c a IH]; intros rest pos x Ha Hk; simpl in *.
  - rewrite Nat.add_0_r in Hk. destruct rest; simpl; rewrite Hk; eauto.
  - apply andb_true_iff in Ha as [Hc Ha]. rewrite Hc.
    replace (pos + S (length a)) with (S pos + length a) in Hk by lia.
    destruct (k pos (c :: a ++ rest)); eauto.
Qed.
End StarFacts.

Lemma firstn_consumed (a rest : str) (pos : nat) :
  firstn (pos + length a - pos) (a ++ rest) = a.
Proof.
  replace (pos + length a - pos) with (length a + 0) by lia.
  rewrite firstn_app_2. simpl. apply app_nil_r.
Qed.

Section ExecFacts.
Variable R : Type.

Lemma exec_sound (r : regex) : forall pos s c (k : nat -> str -> captures -> option R) x,
  exec r pos s c k = Some x ->
  exists a rest c', s = a ++ rest /\ Matches r pos a rest c c'
                    /\ k (pos + length a) rest c' = Some x.
Proof.
  induction r; intros pos s c k x H; simpl in H.
  - exists [], s, c. simpl. rewrite Nat.add_0_r. repeat split; auto. constructor.
  - destruct pos; simpl in H; [|discriminate].
    exists [], s, c. repeat split; auto. constructor.
  - destruct s as [|d [|e t]]; try discriminate.
    + exists [], [], c. simpl. rewrite Nat.add_0_r. repeat split; auto. constructor.
    + destruct (N.eqb d LF) eqn:E; [|discriminate].
      apply N.eqb_eq in E. subst d.
      exists [], [LF], c. simpl. rewrite Nat.add_0_r. repeat split; auto. constructor.
  - destruct s as [|d t]; [discriminate|].
    destruct (p d) eqn:E; [|discriminate].
    exists [d], t, c. simpl. replace (pos + 1) with (S pos) by lia.
    repeat split; auto. constructor; auto.
  - destruct g.
    + apply star_greedy_sound in H as (a & rest & -> & Ha & Hk).
      exists a, rest, c. repeat split; auto. constructor; auto.
    + apply star_lazy_sound in H as (a & rest & -> & Ha & Hk & _).
      exists a, rest, c. repeat split; auto. constructor; auto.
  - apply IHr1 in H as (a1 & rest1 & c1 & -> & M1 & H).
    apply IHr2 in H as (a2 & rest & c2 & -> & M2 & H).
    exists (a1 ++ a2), rest, c2. rewrite <- app_assoc. repeat split; auto.
    + econstructor; eauto.
    + rewrite length_app, Nat.add_assoc. exact H.
  - destruct (exec r1 pos s c k) eqn:E.
    + inversion H; subst. apply IHr1 in E as (a & rest & c' & -> & M & Hk).
      exists a, rest, c'. repeat split; auto. apply M_alt_l; auto.
    + apply IHr2 in H as (a & rest & c' & -> & M & Hk).
      exists a, rest, c'. repeat split; auto. apply M_alt_r; auto.
  - apply IHr in H as (a & rest & c' & -> & M & Hk).
    rewrite firstn_consumed in Hk.
    exists a, rest, ((name, a) :: c'). repeat split; auto. constructor; auto.
Qed.

Lemma exec_complete r pos a rest c c' :
  Matches r pos a rest c c' ->
  forall (k : nat -> str -> captures -> option R) v,
    k (pos + length a) rest c' = Some v ->
    exists y, exec r pos (a ++ rest) c k = Some y.
Proof.
  induction 1; intros k v Hk; simpl in *; try rewrite Nat.add_0_r in Hk.
  - eauto.
  - eauto.
  - eauto.
  - eauto.
  - rewrite H. replace (pos + 1) with (S pos) in Hk by lia. eauto.
  - destruct g.
    + eapply star_greedy_complete; eauto.
    + eapply star_lazy_complete; eauto.
  - rewrite length_app, Nat.add_assoc in Hk.
    destruct (IHMatches2 _ _ Hk) as [y Hy].
    rewrite <- app_assoc. eapply IHMatches1. exact Hy.
  - destruct (IHMatches _ _ Hk) as [y ->]. eauto.
  - destruct (IHMatches _ _ Hk) as [y Hy].
    destruct (exec r1 pos (a ++ rest) c k); eauto.
  - eapply IHMatches. rewrite firstn_consumed. exact Hk.
Qed.
End ExecFacts.

(** ** Facts about the text primitives *)

Lemma str_eqb_eq (a b : str) : str_eqb a b = true <-> a = b.
Proof.
  revert b. induction a as [|x a IH]; destruct b as [|y b]; simpl;
    try (split; [discriminate | congruence]); try tauto.
  rewrite andb_true_iff, N.eqb_eq, IH. split.
  - intros [-> ->]. reflexivity.
  - intros E. inversion E. auto.
Qed.

Lemma str_eqb_refl (a : str) : str_eqb a a = true.
Proof. apply str_eqb_eq. reflexivity. Qed.

Lemma str_eqb_neq (a b : str) : str_eqb a b = false <-> a <> b.
Proof.
  rewrite <- str_eqb_eq. destruct (str_eqb a b); split; congruence.
Qed.

Lemma linebreak_isspace (c : char) : islinebreak c = true -> isspace c = true.
Proof.
  unfold islinebreak, isspace. intros H.
  repeat rewrite orb_true_iff in *. repeat rewrite andb_true_iff in *.
  repeat rewrite N.leb_le in *. repeat rewrite N.eqb_eq in *.
  lia.
Qed.

Lemma isspace_LF : isspace LF = true.
Proof. reflexivity. Qed.

Lemma lstrip_blank (w s : str) :
  forallb isspace w = true -> lstrip (w ++ s) = lstrip s.
Proof.
  induction w as [|c w IH]; simpl; auto.
  intros H. apply andb_true_iff in H as [-> H]. auto.
Qed.

Lemma lstrip_split (s : str) :
  exists w, s = w ++ lstrip s /\ forallb isspace w = true.
Proof.
  induction s as [|c s (w & E & H)]; simpl.
  - exists []. auto.
  - destruct (isspace c) eqn:Hc.
    + exists (c :: w). simpl. rewrite Hc, H. split; [f_equal; exact E | reflexivity].
    + exists []. auto.
Qed.

Lemma lstrip_head (s : str) c t : lstrip s = c :: t -> isspace c = false.
Proof.
  induction s as [|d s IH]; simpl; [discriminate|].
  destruct (isspace d) eqn:Hd; auto. intros E. inversion E. subst. auto.
Qed.

Lemma lstrip_keep (c : char) (t : str) :
  isspace c = false -> lstrip (c :: t) = c :: t.
Proof. simpl. intros ->. reflexivity. Qed.

Lemma lstrip_all_blank (w : str) : forallb isspace w = true -> lstrip w = [].
Proof.
  intros H. rewrite <- (app_nil_r w). rewrite lstrip_blank; auto.
Qed.

Lemma forallb_rev {A} (p : A -> bool) (l : list A) :
  forallb p (rev l) = forallb p l.
Proof.
  induction l as [|x l IH]; simpl; auto.
  rewrite forallb_app, IH. simpl. rewrite andb_true_r. apply andb_comm.
Qed.

Lemma rstrip_split (s : str) :
  exists w, s = rstrip s ++ w /\ forallb isspace w = true.
Proof.
  unfold rstrip. destruct (lstrip_split (rev s)) as (w & E & H).
  exists (rev w). rewrite forallb_rev. split; auto.
  rewrite <- rev_app_distr, <- E, rev_involutive. reflexivity.
Qed.

Lemma rstrip_blank (s w : str) :
  forallb isspace w = true -> rstrip (s ++ w) = rstrip s.
Proof.
  intros H. unfold rstrip. rewrite rev_app_distr, lstrip_blank; auto.
  rewrite forallb_rev. exact H.
Qed.

Lemma rstrip_keep (s : str) (c : char) :
  isspace c = false -> rstrip (s ++ [c]) = s ++ [c].
Proof.
  intros H. unfold rstrip. rewrite rev_app_distr. simpl. rewrite H.
  simpl. rewrite rev_involutive. reflexivity.
Qed.

Lemma rstrip_last (s t : str) c : rstrip s = t ++ [c] -> isspace c = false.
Proof.
  unfold rstrip. intros E.
  assert (E' : lstrip (rev s) = c :: rev t).
  { rewrite <- (rev_involutive (lstrip (rev s))), E, rev_app_distr. reflexivity. }
  eapply lstrip_head; eauto.
Qed.

Lemma rstrip_nil : rstrip [] = [].
Proof. reflexivity. Qed.

Lemma stripped_cons (c : char) (t : str) :
  stripped (c :: t) = negb (isspace c) && negb (isspace (last (c :: t) c)).
Proof. reflexivity. Qed.

Lemma stripped_last (s : str) (c : char) :
  stripped (s ++ [c]) = true -> isspace c = false.
Proof.
  destruct s as [|x s].
  - simpl. rewrite andb_true_iff, !negb_true_iff. tauto.
  - change ((x :: s) ++ [c]) with (x :: (s ++ [c])).
    rewrite stripped_cons, andb_true_iff, !negb_true_iff.
    intros [_ H]. change (x :: s ++ [c]) with ((x :: s) ++ [c]) in H.
    rewrite last_last in H. exact H.
Qed.

Lemma stripped_head (c : char) (s : str) :
  stripped (c :: s) = true -> isspace c = false.
Proof. rewrite stripped_cons, andb_true_iff, !negb_true_iff. tauto. Qed.

Lemma strip_id (s : str) : stripped s = true -> strip s = s.
Proof.
  intros H. unfold strip. destruct s as [|c t]; [reflexivity|].
  rewrite lstrip_keep by (eapply stripped_head; eauto).
  destruct (exists_last (l := c :: t)) as (m & d & E); [discriminate|].
  rewrite E in *. apply rstrip_keep. eapply stripped_last; eauto.
Qed.

Lemma strip_split (s : str) :
  exists w1 w2, s = w1 ++ strip s ++ w2
                /\ forallb isspace w1 = true /\ forallb isspace w2 = true.
Proof.
  destruct (lstrip_split s) as (w1 & E1 & H1).
  destruct (rstrip_split (lstrip s)) as (w2 & E2 & H2).
  exists w1, w2. unfold strip. rewrite <- E2, <- E1. auto.
Qed.

Lemma strip_all_blank (w : str) : forallb isspace w = true -> strip w = [].
Proof. intros H. unfold strip. rewrite lstrip_all_blank; auto. Qed.

Lemma strip_head (s : str) c t : strip s = c :: t -> isspace c = false.
Proof.
  unfold strip. intros E.
  destruct (rstrip_split (lstrip s)) as (w & E2 & H2). rewrite E in E2.
  simpl in E2. eapply lstrip_head. eauto.
Qed.

Lemma strip_last (s t : str) c : strip s = t ++ [c] -> isspace c = false.
Proof. unfold strip. apply rstrip_last. Qed.

Lemma strip_stripped (s : str) : stripped (strip s) = true.
Proof.
  destruct (strip s) as [|c t] eqn:E; [reflexivity|].
  rewrite stripped_cons, andb_true_iff, !negb_true_iff. split.
  - eapply strip_head; eauto.
  - destruct (exists_last (l := c :: t)) as (m & d & E'); [discriminate|].
    rewrite E', last_last. eapply strip_last. rewrite E. exact E'.
Qed.

Lemma strip_strip (s : str) : strip (strip s) = strip s.
Proof. apply strip_id, strip_stripped. Qed.

Lemma strip_blank_l (w s : str) :
  forallb isspace w = true -> strip (w ++ s) = strip s.
Proof. intros H. unfold strip. rewrite lstrip_blank; auto. Qed.

(** ** What the three patterns accept *)

Ltac inv_matches :=
  repeat match goal with
  | H : Matches (Seq _ _) _ _ _ _ _ |- _ => inversion H; clear H; subst
  | H : Matches (Grp _ _) _ _ _ _ _ |- _ => inversion H; clear H; subst
  | H : Matches (Chr _) _ _ _ _ _ |- _ => inversion H; clear H; subst
  | H : Matches (Star _ _) _ _ _ _ _ |- _ => inversion H; clear H; subst
  | H : Matches Bol _ _ _ _ _ |- _ => inversion H; clear H; subst
  | H : Matches Eps _ _ _ _ _ |- _ => inversion H; clear H; subst
  | H : Matches (Alt _ _) _ _ _ _ _ |- _ => inversion H; clear H; subst
  end.

Ltac norm_app :=
  cbn [app]; repeat (progress (rewrite <- ?app_assoc; cbn [app])).

Lemma eol_inv pos a rest c c' :
  Matches Eol pos a rest c c' -> a = [] /\ c' = c /\ (rest = [] \/ rest = [LF]).
Proof. inversion 1; subst; auto. Qed.

Lemma of_ascii_true (a : ascii) (x : char) :
  of_ascii a x = true -> x = N_of_ascii a.
Proof. unfold of_ascii, is_char. apply N.eqb_eq. Qed.

Lemma inline_match_inv (s : str) (m : captures) :
  re_match inline_re s = Some m ->
  exists cat d reason,
    m = [("reason"%string, reason); ("score"%string, [d]); ("cat"%string, cat)]
    /\ inline_parts cat d reason s.
Proof.
  unfold re_match. intros H.
  apply exec_sound in H as (a & rest & c' & -> & M & E).
  inversion E; subst c'; clear E.
  unfold inline_re, Plus in M. inv_matches.
  match goal with H : Matches Eol _ _ _ _ _ |- _ =>
    apply eol_inv in H as (-> & -> & Htl) end.
  repeat match goal with H : of_ascii _ _ = true |- _ =>
    apply of_ascii_true in H; subst end.
  do 3 eexists. split; [reflexivity|].
  norm_app.
  match goal with
  | |- inline_parts _ _ _ (?x :: ?a ++ ?w1 ++ _ :: ?w2 ++ ?d :: ?w3 ++ _ :: ?w4 ++ ?sp ++ ?w5 ++ ?y :: ?b ++ ?tl) =>
      change (inline_parts (x :: a) d (y :: b)
                ((x :: a) ++ w1 ++ lit "(" ++ w2 ++ [d] ++ w3 ++ lit ")" ++ w4 ++ sp ++ w5 ++ (y :: b) ++ tl))
  end.
  constructor; simpl; auto; try discriminate;
    try (apply andb_true_iff; split; assumption).
Qed.

Lemma header_match_inv (s : str) (m : captures) :
  re_match header_re s = Some m ->
  exists cat d,
    m = [("score"%string, [d]); ("cat"%string, cat)] /\ header_parts cat d s.
Proof.
  unfold re_match. intros H.
  apply exec_sound in H as (a & rest & c' & -> & M & E).
  inversion E; subst c'; clear E.
  unfold header_re, Plus in M. inv_matches.
  match goal with H : Matches Eol _ _ _ _ _ |- _ =>
    apply eol_inv in H as (-> & -> & Htl) end.
  repeat match goal with H : of_ascii _ _ = true |- _ =>
    apply of_ascii_true in H; subst end.
  do 2 eexists. split; [reflexivity|].
  norm_app.
  match goal with
  | |- header_parts _ _ (?x :: ?a ++ _ :: ?w1 ++ ?d :: ?w2 ++ ?tl) =>
      change (header_parts (x :: a) d
                ((x :: a) ++ lit ":" ++ w1 ++ [d] ++ w2 ++ tl))
  end.
  constructor; simpl; auto; try discriminate;
    try (apply andb_true_iff; split; assumption).
Qed.

Lemma seq_inv r1 r2 pos a rest c c2 :
  Matches (r1 ;; r2) pos a rest c c2 ->
  exists a1 a2 c1, a = a1 ++ a2 /\ Matches r1 pos a1 (a2 ++ rest) c c1
                   /\ Matches r2 (pos + length a1) a2 rest c1 c2.
Proof. inversion 1; subst. eauto 7. Qed.

(** A literal word leaves the groups as they were. *)
Lemma word_groups f w : forall pos a rest c c',
  Matches (word f w) pos a rest c c' -> c' = c.
Proof.
  unfold word. induction (lit w) as [|x l IH]; simpl; intros pos a rest c c' M.
  - inversion M; auto.
  - inversion M; subst. inv_matches. eauto.
Qed.

Lemma reason_match_inv (s : str) (m : captures) :
  re_match reason_re s = Some m ->
  exists g, m = [("1"%string, g)] /\ g <> [] /\ forallb dot g = true.
Proof.
  unfold re_match. intros H.
  apply exec_sound in H as (a & rest & c' & -> & M & E).
  inversion E; subst c'; clear E.
  unfold reason_re, Plus in M.
  apply seq_inv in M as (a1 & a2 & c1 & -> & M1 & M).
  apply seq_inv in M as (a3 & a4 & c2 & -> & M2 & M).
  inversion M1; subst; clear M1.
  assert (c2 = []).
  { inversion M2; subst; eapply word_groups; eauto. }
  subst c2. clear M2. inv_matches.
  match goal with H : Matches Eol _ _ _ _ _ |- _ =>
    apply eol_inv in H as (-> & -> & Htl) end.
  eexists. split; [reflexivity|]. split; [discriminate|].
  simpl. apply andb_true_iff; split; assumption.
Qed.

(** ** [parse_judge_feedback] raises nothing *)

Lemma splitlines_from_cur : forall s cur,
  cur <> [] -> exists pre ls, splitlines_from cur s = (rev cur ++ pre) :: ls.
Proof.
  induction s as [|c t IH]; intros cur Hcur; simpl.
  - destruct cur; [congruence|]. exists [], []. rewrite app_nil_r. reflexivity.
  - destruct (islinebreak c).
    + exists []. rewrite app_nil_r.
      destruct (N.eqb c CR); [destruct t as [|d t']; [|destruct (N.eqb d LF)]|];
        eauto.
    + destruct (IH (c :: cur)) as (pre & ls & E); [discriminate|].
      rewrite E. exists (c :: pre), ls. simpl. rewrite <- app_assoc. reflexivity.
Qed.

Lemma not_blank_not_break (c : char) : isspace c = false -> islinebreak c = false.
Proof.
  intros H. destruct (islinebreak c) eqn:E; auto.
  apply linebreak_isspace in E. congruence.
Qed.

Lemma strip_cons_nonempty (c : char) (t : str) :
  isspace c = false -> strip (c :: t) <> [].
Proof.
  intros H E. unfold strip in E. rewrite lstrip_keep in E by auto.
  destruct (rstrip_split (c :: t)) as (w & E2 & Hw). rewrite E in E2.
  simpl in E2. subst w. simpl in Hw. rewrite H in Hw. discriminate.
Qed.

(** The [lines] of an entry that starts with a character that is not a
    blank: there is a first one. *)
Lemma lines_nonempty (c : char) (t : str) :
  isspace c = false ->
  exists l ls,
    List.map strip
      (filter (fun l => negb (str_eqb (strip l) [])) (splitlines (c :: t)))
    = l :: ls.
Proof.
  intros H. unfold splitlines. simpl.
  rewrite (not_blank_not_break _ H).
  destruct (@splitlines_from_cur t [c]) as (pre & ls & ->); [discriminate|].
  simpl.
  destruct (str_eqb (strip (c :: pre)) []) eqn:E.
  - apply str_eqb_eq in E. exfalso. eapply strip_cons_nonempty; eauto.
  - simpl. eauto.
Qed.

Lemma scan_reason_ok (ls : list str) : exists r, scan_reason ls = Ok r.
Proof.
  induction ls as [|l ls IH]; simpl; eauto.
  destruct (re_match reason_re l) eqn:E; auto.
  apply reason_match_inv in E as (g & -> & _). unfold group_strip. simpl. eauto.
Qed.

Lemma parse_entry_ok (fb : dict) (e : str) : exists fb', parse_entry fb e = Ok fb'.
Proof.
  unfold parse_entry. destruct (strip e) as [|c t] eqn:E; eauto.
  destruct (re_match inline_re _) eqn:M1.
  - apply inline_match_inv in M1 as (cat & d & reason & -> & _).
    unfold group_strip, group_val. simpl. eauto.
  - destruct (@lines_nonempty c t) as (l & ls & ->).
    { eapply strip_head; eauto. }
    simpl. destruct (re_match header_re l) eqn:M2; eauto.
    apply header_match_inv in M2 as (cat & d & -> & _).
    unfold group_strip, group_val. simpl.
    destruct (scan_reason_ok ls) as [r ->]. simpl. eauto.
Qed.

Lemma parse_entries_ok (es : list str) : forall fb,
  exists fb', parse_entries fb es = Ok fb'.
Proof.
  induction es as [|e es IH]; intros fb; simpl; eauto.
  destruct (parse_entry_ok fb e) as [fb' ->]. simpl. apply IH.
Qed.

Lemma M_plus g p pos x a rest c :
  p x = true -> forallb p a = true -> Matches (Plus g p) pos (x :: a) rest c c.
Proof.
  intros Hx Ha. unfold Plus. apply (@M_seq _ _ pos [x] a rest c c c).
  - constructor; auto.
  - constructor; auto.
Qed.

Lemma nonempty_dot (s : str) :
  s <> [] -> forallb dot s = true ->
  exists x a, s = x :: a /\ dot x = true /\ forallb dot a = true.
Proof.
  destruct s as [|x a]; [congruence|]. simpl. intros _ H.
  apply andb_true_iff in H as [? ?]. eauto.
Qed.

Lemma inline_parts_Matches cat d reason s :
  inline_parts cat d reason s ->
  exists a tl, s = a ++ tl /\
    Matches inline_re 0 a tl []
      [("reason"%string, reason); ("score"%string, [d]); ("cat"%string, cat)].
Proof.
  intros []. 
  destruct (@nonempty_dot _ H H0) as (x & cat' & -> & Hx & Hcat').
  destruct (@nonempty_dot _ H8 H9) as (y & r' & -> & Hy & Hr').
  exists ([] ++ (x :: cat') ++ w1 ++ lit "(" ++ w2 ++ [d] ++ w3 ++ lit ")" ++ w4
             ++ sp ++ w5 ++ (y :: r') ++ []), tl.
  split.
  { norm_app. rewrite ?app_nil_r. reflexivity. }
  unfold inline_re.
  repeat (eapply M_seq; [ first [ apply M_bol
                                | apply M_grp; first [ apply M_plus; assumption
                                                     | apply M_chr; assumption ]
                                | apply M_star; assumption
                                | apply M_chr; reflexivity ] | ]).
  destruct H10; subst; constructor.
Qed.

Lemma inline_parts_match cat d reason s :
  inline_parts cat d reason s -> exists m, re_match inline_re s = Some m.
Proof.
  intros H. apply inline_parts_Matches in H as (a & tl & -> & M).
  unfold re_match. eapply exec_complete; [exact M | reflexivity].
Qed.

Lemma header_parts_match cat d s :
  header_parts cat d s -> exists m, re_match header_re s = Some m.
Proof.
  intros [].
  destruct (@nonempty_dot _ H H0) as (x & cat' & -> & Hx & Hcat').
  replace ((x :: cat') ++ lit ":" ++ w1 ++ [d] ++ w2 ++ tl)
    with (([] ++ (x :: cat') ++ lit ":" ++ w1 ++ [d] ++ w2 ++ []) ++ tl)
    by (norm_app; rewrite ?app_nil_r; reflexivity).
  unfold re_match. eapply exec_complete; [|reflexivity].
  unfold header_re.
  repeat (eapply M_seq; [ first [ apply M_bol
                                | apply M_grp; first [ apply M_plus; assumption
                                                     | apply M_chr; assumption ]
                                | apply M_star; assumption
                                | apply M_chr; reflexivity ] | ]).
  destruct H4; subst; constructor.
Qed.

(** ** Running the matcher on texts of a known form *)

Section StarRuns.
Variable R : Type.
Implicit Types (k : nat -> str -> option R) (p : char -> bool).

(** A lazy star passes over [a] when its continuation refuses every
    earlier stop. *)
Lemma star_lazy_skip p k : forall a rest pos x,
  forallb p a = true ->
  (forall a1 a2, a = a1 ++ a2 -> a2 <> [] ->
                 k (pos + length a1) (a2 ++ rest) = None) ->
  k (pos + length a) rest = Some x ->
  star_lazy p pos (a ++ rest) k = Some x.
Proof.
  induction a as [|c a IH]; intros rest pos x Ha Hno Hk.
  - simpl in *. rewrite Nat.add_0_r in Hk.
    destruct rest; simpl; rewrite Hk; reflexivity.
  - simpl in Ha. apply andb_true_iff in Ha as [Hc Ha].
    assert (H0 : k pos (c :: a ++ rest) = None).
    { specialize (Hno [] (c :: a) eq_refl). simpl in Hno.
      rewrite Nat.add_0_r in Hno. apply Hno. discriminate. }
    simpl. rewrite H0, Hc. apply IH; auto.
    + intros a1 a2 E Hne.
      replace (S pos + length a1) with (pos + length (c :: a1)) by (simpl; lia).
      apply Hno; auto. simpl. congruence.
    + replace (S pos + length a) with (pos + length (c :: a)) by (simpl; lia).
      exact Hk.
Qed.

(** A greedy star takes all of [a] when its continuation accepts what
    follows. *)
Lemma star_greedy_all p k : forall a rest pos x,
  forallb p a = true ->
  match rest with [] => True | c :: _ => p c = false end ->
  k (pos + length a) rest = Some x ->
  star_greedy p pos (a ++ rest) k = Some x.
Proof.
  induction a as [|c a IH]; intros rest pos x Ha Hrest Hk.
  - simpl in *. rewrite Nat.add_0_r in Hk.
    destruct rest as [|d rest]; simpl; auto. rewrite Hrest. exact Hk.
  - simpl in Ha. apply andb_true_iff in Ha as [Hc Ha].
    simpl. rewrite Hc. erewrite IH; eauto.
    replace (S pos + length a) with (pos + length (c :: a)) by (simpl; lia).
    exact Hk.
Qed.

(** A greedy star stops at once before a character outside its class. *)
Lemma star_greedy_stop p k c t pos :
  p c = false -> star_greedy p pos (c :: t) k = k pos (c :: t).
Proof. intros H. simpl. rewrite H. reflexivity. Qed.

Lemma star_greedy_nil p k pos : star_greedy p pos [] k = k pos [].
Proof. reflexivity. Qed.

(** One step of a greedy star whose longer attempts succeed. *)
Lemma star_greedy_step p k c t pos x :
  p c = true -> star_greedy p (S pos) t k = Some x ->
  star_greedy p pos (c :: t) k = Some x.
Proof. intros H E. simpl. rewrite H, E. reflexivity. Qed.

(** One step of a greedy star whose longer attempts all fail. *)
Lemma star_greedy_back p k c t pos :
  p c = true -> star_greedy p (S pos) t k = None ->
  star_greedy p pos (c :: t) k = k pos (c :: t).
Proof. intros H E. simpl. rewrite H, E. reflexivity. Qed.
End StarRuns.

Lemma digit_not_space (d : char) : digit14 d = true -> isspace d = false.
Proof.
  unfold digit14, isspace. intros H.
  apply andb_true_iff in H as [H1 H2]. apply N.leb_le in H1, H2.
  repeat rewrite orb_false_iff. repeat rewrite andb_false_iff.
  repeat rewrite N.leb_gt. repeat rewrite N.eqb_neq.
  repeat split; lia.
Qed.

Lemma digit_cases (d : char) :
  digit14 d = true -> d = 0x31%N \/ d = 0x32%N \/ d = 0x33%N \/ d = 0x34%N.
Proof.
  unfold digit14. intros H.
  apply andb_true_iff in H as [H1 H2]. apply N.leb_le in H1, H2. lia.
Qed.

Lemma not_space_not_LF (c : char) : isspace c = false -> N.eqb c LF = false.
Proof.
  intros H. destruct (N.eqb c LF) eqn:E; auto.
  apply N.eqb_eq in E. subst. discriminate.
Qed.

Lemma not_break_dot (c : char) : islinebreak c = false -> dot c = true.
Proof.
  intros H. unfold dot. destruct (N.eqb c LF) eqn:E; auto.
  apply N.eqb_eq in E. subst. discriminate.
Qed.

Lemma firstn_whole (pos : nat) (c : char) (r : str) :
  firstn (S pos + length r - pos) (c :: r) = c :: r.
Proof.
  replace (S pos + length r - pos) with (length (c :: r)) by (cbn [length]; lia).
  apply firstn_all.
Qed.

(** The reasoning group on a one-line text that ends the subject. *)
Lemma reason_group_run (name : string) (c : char) (r : str) pos caps :
  dot c = true -> forallb dot r = true ->
  exec (Grp name (Plus Greedy dot) ;; Eol) pos (c :: r) caps found
  = Some ((name, c :: r) :: caps).
Proof.
  intros Hc Hr. cbn [exec Plus]. rewrite Hc.
  rewrite <- (app_nil_r r) at 1.
  erewrite star_greedy_all; [reflexivity| exact Hr | exact I |].
  cbn [exec found]. rewrite firstn_whole. reflexivity.
Qed.

Lemma plain_reasoning_inline (r : str) :
  plain_reasoning Inline r = true ->
  exists c t, r = c :: t /\ isspace c = false
              /\ forallb dot r = true /\ stripped r = true
              /\ forallb (fun x => negb (islinebreak x)) r = true.
Proof.
  unfold plain_reasoning. rewrite !andb_true_iff. intros [[Hs Hl] Hc].
  destruct r as [|c t]; [discriminate|]. exists c, t.
  repeat split; auto.
  - eapply stripped_head; eauto.
  - rewrite forallb_forall in *. intros x Hx. apply not_break_dot.
    apply negb_true_iff. auto.
Qed.

Lemma inline_tail_reason pos caps (reason : str) :
  plain_reasoning Inline reason = true ->
  exec inline_tail pos (lit ": " ++ reason) caps found
  = Some (("reason"%string, reason) :: caps).
Proof.
  intros H. apply plain_reasoning_inline in H
    as (c & t & -> & Hc & Hdot & _ & _).
  simpl in Hdot. apply andb_true_iff in Hdot as [Hd Hdot].
  change (lit ": ") with [0x3a; 0x20]%N. cbn [app].
  unfold inline_tail. cbn [exec].
  rewrite star_greedy_stop by reflexivity.
  erewrite star_greedy_step; [reflexivity | reflexivity |].
  rewrite star_greedy_stop by reflexivity.
  erewrite star_greedy_step; [reflexivity | reflexivity |].
  rewrite star_greedy_stop by exact Hc.
  apply (@reason_group_run "reason" c t); auto.
Qed.

Lemma firstn_one (pos : nat) (d : char) (t : str) :
  firstn (S pos - pos) (d :: t) = [d].
Proof. replace (S pos - pos) with 1 by lia. reflexivity. Qed.

Lemma firstn_prefix (x : char) (a rest : str) :
  firstn (1 + length a - 0) (x :: a ++ rest) = x :: a.
Proof.
  replace (1 + length a - 0) with (S (length a)) by lia.
  cbn [firstn]. f_equal.
  replace (length a) with (length a + 0) by lia.
  rewrite firstn_app_2. simpl. apply app_nil_r.
Qed.

Lemma plain_label_parts (cat : str) :
  plain_label cat = true ->
  exists x t, cat = x :: t /\ stripped cat = true
    /\ forallb (fun c => negb (islinebreak c)) cat = true
    /\ forallb (fun c => negb (N.eqb c open_paren)) cat = true.
Proof.
  unfold plain_label. rewrite !andb_true_iff. intros [[Hne Hs] Hall].
  destruct cat as [|x t]; [discriminate|]. exists x, t.
  repeat split; auto; rewrite forallb_forall in *; intros c Hc;
    specialize (Hall c Hc); apply andb_true_iff in Hall; tauto.
Qed.

Lemma forallb_app_r {A} (p : A -> bool) (a b : list A) :
  forallb p (a ++ b) = true -> forallb p b = true.
Proof. rewrite forallb_app, andb_true_iff. tauto. Qed.

Lemma forallb_app_l {A} (p : A -> bool) (a b : list A) :
  forallb p (a ++ b) = true -> forallb p a = true.
Proof. rewrite forallb_app, andb_true_iff. tauto. Qed.

Lemma no_break_dot (s : str) :
  forallb (fun c => negb (islinebreak c)) s = true -> forallb dot s = true.
Proof.
  rewrite !forallb_forall. intros H c Hc. apply not_break_dot.
  apply negb_true_iff. auto.
Qed.

(** A text without [q] that does not end in a blank cannot be read as
    blanks followed by [q]. *)
Lemma blanks_then_char (q : char) : forall (a rest w more : str),
  a <> [] ->
  forallb (fun c => negb (N.eqb c q)) a = true ->
  (forall pre c, a = pre ++ [c] -> isspace c = false) ->
  forallb isspace w = true ->
  a ++ rest = w ++ q :: more -> False.
Proof.
  induction a as [|c a IH]; intros rest w more Hne Hq Hlast Hw E; [congruence|].
  simpl in Hq. apply andb_true_iff in Hq as [Hc Hq].
  destruct w as [|c' w]; simpl in E; inversion E; subst.
  - rewrite N.eqb_refl in Hc. discriminate.
  - simpl in Hw. apply andb_true_iff in Hw as [Hc' Hw].
    destruct a as [|c2 a].
    + rewrite (Hlast [] c' eq_refl) in Hc'. discriminate.
    + eapply (IH rest w more); eauto; [discriminate|].
      intros pre c0 E0. apply (Hlast (c' :: pre) c0). simpl. congruence.
Qed.

Lemma stripped_suffix_last (s a1 a2 : str) (c : char) :
  stripped s = true -> s = a1 ++ a2 ++ [c] -> isspace c = false.
Proof.
  intros H E. rewrite app_assoc in E. subst s. eapply stripped_last; eauto.
Qed.

Lemma inline_re_unfold (x : char) (t : str) (k : nat -> str -> captures -> option captures) :
  exec inline_re 0 (x :: t) [] k
  = if dot x
    then star_lazy dot 1 t
           (fun pos' s' =>
              exec inline_rest pos' s'
                   [("cat"%string, firstn (pos' - 0) (x :: t))] k)
    else None.
Proof. reflexivity. Qed.

(** The inline pattern on [cat (d)post]: the category is found where the
    label ends, and the rest of the match is that of [post]. *)
Lemma inline_front (cat : str) (d : char) (post : str) (m : captures) :
  plain_label cat = true -> digit14 d = true ->
  (forall pos, exec inline_tail pos post
                    [("score"%string, [d]); ("cat"%string, cat)] found = Some m) ->
  re_match inline_re (cat ++ lit " (" ++ [d] ++ lit ")" ++ post) = Some m.
Proof.
  intros Hcat Hd Htail.
  apply plain_label_parts in Hcat as (x & t & -> & Hs & Hnb & Hnp).
  pose proof (no_break_dot _ Hnb) as Hdot.
  simpl in Hdot. apply andb_true_iff in Hdot as [Hx Hdot].
  change (lit " (") with [0x20; 0x28]%N. change (lit ")") with [0x29]%N.
  unfold re_match. cbn [app]. rewrite inline_re_unfold, Hx.
  apply star_lazy_skip; auto.
  - intros a1 a2 E Hne.
    match goal with |- ?e = None => destruct e eqn:K; auto end.
    exfalso. apply exec_sound in K as (a & rest & c' & E2 & M & _).
    unfold inline_rest in M. apply seq_inv in M as (w & a' & c1 & -> & M1 & M).
    apply seq_inv in M as (q & a'' & c2 & -> & M2 & _).
    inv_matches.
    match goal with H : of_ascii _ _ = true |- _ =>
      apply of_ascii_true in H; subst end.
    rewrite <- !app_assoc in E2. cbn [app] in E2.
    eapply (@blanks_then_char open_paren a2); eauto.
    + apply (forallb_app_r _ a1). simpl in Hnp.
      apply andb_true_iff in Hnp as [_ Hnp]. exact Hnp.
    + intros pre c0 E3. apply (@stripped_suffix_last _ (x :: a1) pre c0 Hs).
      subst a2. reflexivity.
  - unfold inline_rest. cbn [exec].
    erewrite star_greedy_step; [reflexivity | reflexivity |].
    rewrite star_greedy_stop by reflexivity.
    cbn [of_ascii is_char]. 
    change (N.eqb 40 (N_of_ascii "(")) with true. cbv iota.
    rewrite star_greedy_stop by (apply digit_not_space; exact Hd).
    rewrite Hd.
    rewrite star_greedy_stop by reflexivity.
    change (N.eqb 41 (N_of_ascii ")")) with true. cbv iota.
    rewrite firstn_one, firstn_prefix. apply Htail.
Qed.

(** ** The two-line shape on texts of a known form *)

Lemma str_replace_app a b (s t : str) :
  str_replace a b (s ++ t) = str_replace a b s ++ str_replace a b t.
Proof. apply map_app. Qed.

Lemma str_replace_absent (s : str) :
  forallb (fun c => negb (islinebreak c)) s = true ->
  str_replace LF SP s = s.
Proof.
  induction s as [|c s IH]; simpl; auto.
  rewrite andb_true_iff, negb_true_iff. intros [Hc Hs].
  rewrite IH by auto. destruct (N.eqb c LF) eqn:E; auto.
  apply N.eqb_eq in E. subst. discriminate.
Qed.

Lemma splitlines_from_plain : forall (a : str) (cur rest : str),
  forallb (fun c => negb (islinebreak c)) a = true ->
  splitlines_from cur (a ++ rest) = splitlines_from (rev a ++ cur) rest.
Proof.
  induction a as [|c a IH]; intros cur rest H; simpl; auto.
  simpl in H. apply andb_true_iff in H as [Hc Ha].
  apply negb_true_iff in Hc. rewrite Hc, IH by auto.
  rewrite <- app_assoc. reflexivity.
Qed.

(** Two lines without other breaks, the second not empty. *)
Lemma splitlines_two (a b : str) :
  forallb (fun c => negb (islinebreak c)) a = true ->
  forallb (fun c => negb (islinebreak c)) b = true ->
  b <> [] ->
  splitlines (a ++ LF :: b) = [a; b].
Proof.
  intros Ha Hb Hne. unfold splitlines.
  rewrite splitlines_from_plain by auto. rewrite app_nil_r.
  cbn [splitlines_from]. change (islinebreak LF) with true.
  change (N.eqb LF CR) with false. cbv iota. rewrite rev_involutive.
  f_equal. rewrite <- (app_nil_r b) at 1.
  rewrite splitlines_from_plain by auto. rewrite app_nil_r.
  simpl. destruct (rev b) eqn:E.
  - apply (f_equal (@rev _)) in E. rewrite rev_involutive in E. simpl in E.
    congruence.
  - rewrite <- E, rev_involutive. reflexivity.
Qed.

(** A literal word on a text that spells it. *)
Lemma word_run (R : Type) f (w : string) :
  forall (a s : str) pos c (k : nat -> str -> captures -> option R),
    length a = length (lit w) ->
    forallb (fun xy => f (fst xy) (snd xy)) (combine (lit w) a) = true ->
    exec (word f w) pos (a ++ s) c k = k (pos + length a) s c.
Proof.
  unfold word. induction (lit w) as [|y l IH]; intros a s pos c k L H.
  - destruct a; [|discriminate]. simpl. rewrite Nat.add_0_r. reflexivity.
  - destruct a as [|x a]; [discriminate|]. simpl in *.
    apply andb_true_iff in H as [Hx H]. rewrite Hx.
    rewrite IH by (auto; lia). f_equal. lia.
Qed.

Lemma word_stop (R : Type) f (w : string) (x y : char) (l s : str) pos c
      (k : nat -> str -> captures -> option R) :
  lit w = y :: l -> f y x = false ->
  exec (word f w) pos (x :: s) c k = None.
Proof. unfold word. intros -> H. simpl. rewrite H. reflexivity. Qed.

Lemma exec_seq (R : Type) r1 r2 pos s c (k : nat -> str -> captures -> option R) :
  exec (r1 ;; r2) pos s c k
  = exec r1 pos s c (fun pos' s' c' => exec r2 pos' s' c' k).
Proof. reflexivity. Qed.

Lemma exec_bol (R : Type) s c (k : nat -> str -> captures -> option R) :
  exec Bol 0 s c k = k 0 s c.
Proof. reflexivity. Qed.

Lemma reason_prefix_run (R : Type) (s : str) pos c
      (k : nat -> str -> captures -> option R) :
  exec (Alt (word ci_char "Justification") (word ci_char "Reasoning"))
       pos (lit "Reasoning" ++ s) c k
  = k (pos + 9) s c.
Proof.
  cbn [exec].
  assert (E : exec (word ci_char "Justification") pos (lit "Reasoning" ++ s) c k
              = None).
  { change (lit "Reasoning" ++ s) with (0x52%N :: (lit "easoning" ++ s)).
    eapply word_stop; reflexivity. }
  rewrite E. rewrite word_run by reflexivity. reflexivity.
Qed.

Lemma reason_line_run (c : char) (t : str) :
  isspace c = false -> forallb dot (c :: t) = true ->
  re_match reason_re (lit "Reasoning: " ++ c :: t) = Some [("1"%string, c :: t)].
Proof.
  intros Hc Hdot. simpl in Hdot. apply andb_true_iff in Hdot as [Hd Hdot].
  unfold re_match, reason_re.
  change (lit "Reasoning: ") with (lit "Reasoning" ++ [0x3a; 0x20]%N).
  rewrite <- app_assoc.
  rewrite exec_seq, exec_bol, exec_seq, reason_prefix_run.
  cbn [exec app]. change (ci_char (N_of_ascii ":") 58%N) with true. cbv iota.
  erewrite star_greedy_step; [reflexivity | reflexivity |].
  rewrite star_greedy_stop by exact Hc.
  apply (@reason_group_run "1" c t); auto.
Qed.

Lemma reason_line_empty : re_match reason_re (lit "Reasoning:") = None.
Proof. vm_compute. reflexivity. Qed.

Lemma header_re_unfold (x : char) (t : str) (k : nat -> str -> captures -> option captures) :
  exec header_re 0 (x :: t) [] k
  = if dot x
    then star_lazy dot 1 t
           (fun pos' s' =>
              exec header_rest pos' s'
                   [("cat"%string, firstn (pos' - 0) (x :: t))] k)
    else None.
Proof. reflexivity. Qed.

Lemma colon_not_score_text (w : str) :
  forallb (fun c => isspace c || digit14 c) w = true -> ~ In colon w.
Proof.
  rewrite forallb_forall. intros H Hin. specialize (H _ Hin). discriminate.
Qed.

(** What follows the colon of a first line is blanks and one digit. *)
Lemma header_rest_text pos a rest c c' :
  Matches header_rest pos a rest c c' ->
  exists w, a ++ rest = colon :: w
            /\ forallb (fun c => isspace c || digit14 c) w = true.
Proof.
  unfold header_rest. intros M. inv_matches.
  match goal with H : Matches Eol _ _ _ _ _ |- _ =>
    apply eol_inv in H as (-> & -> & Htl) end.
  match goal with H : of_ascii _ _ = true |- _ =>
    apply of_ascii_true in H; subst end.
  norm_app. eexists. split; [reflexivity|].
  match goal with |- context [?a0 ++ ?x :: ?a3 ++ ?r] =>
    change (a0 ++ x :: a3 ++ r) with (a0 ++ [x] ++ a3 ++ r) end.
  rewrite !forallb_app. cbn [forallb].
  repeat match goal with H : forallb isspace ?w = true |- _ =>
    assert (forallb (fun c => isspace c || digit14 c) w = true)
      by (rewrite forallb_forall in *; intros y Hy; rewrite H by auto; reflexivity);
    clear H end.
  repeat match goal with H : _ = true |- _ => rewrite H end.
  rewrite orb_true_r. simpl.
  destruct Htl; subst; reflexivity.
Qed.

(** The first-line pattern on [cat: d]. *)
Lemma header_run (cat : str) (d : char) :
  cat <> [] -> forallb dot cat = true -> digit14 d = true ->
  re_match header_re (cat ++ lit ": " ++ [d])
  = Some [("score"%string, [d]); ("cat"%string, cat)].
Proof.
  intros Hne Hdot Hd.
  destruct (@nonempty_dot _ Hne Hdot) as (x & t & -> & Hx & Ht).
  change (lit ": ") with [colon; 0x20%N].
  unfold re_match. cbn [app]. rewrite header_re_unfold, Hx.
  apply star_lazy_skip; auto.
  - intros a1 a2 E Hne2.
    match goal with |- ?e = None => destruct e eqn:K; auto end.
    exfalso. apply exec_sound in K as (a & rest & c' & E2 & M & _).
    apply header_rest_text in M as (w & E3 & Hw).
    rewrite <- E2 in E3. destruct a2 as [|y a2]; [congruence|].
    inversion E3; subst.
    apply (colon_not_score_text _ Hw). apply in_or_app. right. left. reflexivity.
  - unfold header_rest. cbn [exec].
    change (of_ascii ":" colon) with true. cbv iota.
    erewrite star_greedy_step; [reflexivity | reflexivity |].
    rewrite star_greedy_stop by (apply digit_not_space; exact Hd).
    rewrite Hd. rewrite star_greedy_nil.
    rewrite firstn_one, firstn_prefix. reflexivity.
Qed.

(** A text without an opening parenthesis has no inline reading. *)
Lemma inline_needs_paren (s : str) :
  forallb (fun c => negb (N.eqb c open_paren)) s = true ->
  re_match inline_re s = None.
Proof.
  intros H. destruct (re_match inline_re s) eqn:E; auto. exfalso.
  apply inline_match_inv in E as (cat & d & reason & _ & P).
  destruct P. apply forallb_app_r, forallb_app_r in H.
  simpl in H. discriminate.
Qed.

(** ** One written entry, read back *)

Lemma stripped_intro (x z : char) (t m : str) :
  isspace x = false -> isspace z = false -> x :: t = m ++ [z] ->
  stripped (x :: t) = true.
Proof.
  intros Hx Hz E. rewrite stripped_cons, Hx, E, last_last, Hz. reflexivity.
Qed.

Lemma stripped_nonempty_last (s : str) :
  s <> [] -> stripped s = true ->
  exists m z, s = m ++ [z] /\ isspace z = false.
Proof.
  intros Hne H. destruct (exists_last Hne) as (m & z & ->).
  exists m, z. split; auto. eapply stripped_last; eauto.
Qed.

Lemma plain_score_parts (sc : str) :
  plain_score sc = true -> exists d, sc = [d] /\ digit14 d = true.
Proof. destruct sc as [|d [|? ?]]; simpl; try discriminate. eauto. Qed.

Lemma digit_not_break (d : char) : digit14 d = true -> islinebreak d = false.
Proof. intros H. apply not_blank_not_break, digit_not_space, H. Qed.

Lemma plain_reasoning_twoline (r : str) :
  plain_reasoning TwoLine r = true ->
  stripped r = true
  /\ forallb (fun x => negb (islinebreak x)) r = true
  /\ forallb (fun x => negb (N.eqb x open_paren)) r = true.
Proof. unfold plain_reasoning. rewrite !andb_true_iff. tauto. Qed.

Lemma inline_entry_stripped (cat r : str) (d : char) :
  plain_label cat = true -> digit14 d = true ->
  plain_reasoning Inline r = true ->
  stripped (cat ++ lit " (" ++ [d] ++ lit "): " ++ r) = true
  /\ forallb (fun x => negb (islinebreak x))
             (cat ++ lit " (" ++ [d] ++ lit "): " ++ r) = true.
Proof.
  intros Hcat Hd Hr.
  apply plain_label_parts in Hcat as (x & t & -> & Hs & Hnb & _).
  apply plain_reasoning_inline in Hr as (c & u & -> & Hc & _ & Hsr & Hnr).
  split.
  - destruct (@stripped_nonempty_last (c :: u)) as (m & z & E & Hz);
      [discriminate | exact Hsr |].
    cbn [app].
    apply (@stripped_intro x z _ (x :: t ++ lit " (" ++ [d] ++ lit "): " ++ m)).
    + eapply stripped_head; eauto.
    + exact Hz.
    + rewrite E. norm_app. reflexivity.
  - rewrite !forallb_app. rewrite Hnb, Hnr.
    change (lit " (") with [0x20; 0x28]%N. change (lit "): ") with [0x29; 0x3a; 0x20]%N.
    cbn [forallb]. rewrite (digit_not_break _ Hd). reflexivity.
Qed.

Lemma parse_entry_inline (fb : dict) (cat sc r : str) :
  plain_label cat = true -> plain_score sc = true ->
  plain_reasoning Inline r = true ->
  parse_entry fb (write_entry Inline (cat, {| score := sc; reasoning := r |}))
  = Ok (dict_set cat {| score := sc; reasoning := r |} fb).
Proof.
  intros Hcat Hsc Hr. apply plain_score_parts in Hsc as (d & -> & Hd).
  destruct (inline_entry_stripped cat r d Hcat Hd Hr) as [Hs Hnb].
  unfold write_entry. cbn [fst snd score reasoning].
  unfold parse_entry. rewrite (strip_id _ Hs), (str_replace_absent _ Hnb).
  assert (M : re_match inline_re (cat ++ lit " (" ++ [d] ++ lit "): " ++ r)
              = Some [("reason"%string, r); ("score"%string, [d]);
                      ("cat"%string, cat)]).
  { change (lit "): ") with (lit ")" ++ lit ": "). rewrite <- app_assoc.
    apply inline_front; auto. intros pos. apply inline_tail_reason. exact Hr. }
  rewrite M.
  pose proof Hcat as Hc2. apply plain_label_parts in Hc2 as (x & t & -> & Hsc & _).
  cbn [app]. unfold group_strip, group_val. cbn [group String.eqb Ascii.eqb Bool.eqb rbind].
  rewrite (strip_id _ Hsc).
  apply plain_reasoning_inline in Hr as (c & u & -> & _ & _ & Hsr & _).
  rewrite (strip_id _ Hsr). reflexivity.
Qed.

Lemma str_eqb_nil_cons (x : char) (t : str) : str_eqb (x :: t) [] = false.
Proof. reflexivity. Qed.

(** An entry of two lines: a first line [cat: d] and a second line
    [line2] in which [scan_reason] finds [reason]. *)
Lemma parse_two_lines (fb : dict) (cat : str) (d : char) (line2 reason : str) :
  plain_label cat = true -> digit14 d = true ->
  line2 <> [] -> stripped line2 = true ->
  forallb (fun x => negb (islinebreak x)) line2 = true ->
  forallb (fun x => negb (N.eqb x open_paren)) line2 = true ->
  scan_reason [line2] = Ok reason ->
  parse_entry fb (cat ++ lit ": " ++ [d] ++ [LF] ++ line2)
  = Ok (dict_set cat {| score := [d]; reasoning := reason |} fb).
Proof.
  intros Hcat Hd Hne Hs2 Hnb2 Hnp2 Hscan.
  pose proof Hcat as Hc2.
  apply plain_label_parts in Hc2 as (x & t & Ecat & Hs & Hnb & Hnp).
  destruct (@stripped_nonempty_last line2 Hne Hs2) as (m2 & z & E2 & Hz).
  assert (Hx : isspace x = false).
  { subst cat. eapply stripped_head; eauto. }
  set (line1 := cat ++ lit ": " ++ [d]).
  assert (Hnb1 : forallb (fun c => negb (islinebreak c)) line1 = true).
  { unfold line1. rewrite !forallb_app, Hnb. cbn [forallb lit].
    rewrite (digit_not_break _ Hd). reflexivity. }
  assert (Hs1 : stripped line1 = true).
  { unfold line1. subst cat. cbn [app].
    apply (@stripped_intro x d _ (x :: t ++ lit ": ")); auto.
    - apply digit_not_space; auto.
    - norm_app. reflexivity. }
  assert (Hentry : cat ++ lit ": " ++ [d] ++ [LF] ++ line2 = line1 ++ LF :: line2).
  { unfold line1. norm_app. reflexivity. }
  rewrite Hentry.
  assert (Hse : stripped (line1 ++ LF :: line2) = true).
  { unfold line1. subst cat. cbn [app].
    apply (@stripped_intro x z _
             (x :: t ++ lit ": " ++ [d] ++ [LF] ++ m2)); auto.
    rewrite E2. norm_app. reflexivity. }
  unfold parse_entry. rewrite (strip_id _ Hse).
  assert (Hblock : re_match inline_re (str_replace LF SP (line1 ++ LF :: line2))
                   = None).
  { apply inline_needs_paren. unfold str_replace.
    rewrite forallb_forall. intros c Hc. apply in_map_iff in Hc as (c0 & <- & Hc0).
    destruct (N.eqb c0 LF) eqn:E0; [reflexivity|].
    apply in_app_or in Hc0 as [Hc0|[Hc0|Hc0]].
    - unfold line1 in Hc0. apply in_app_or in Hc0 as [Hc0|Hc0].
      + rewrite forallb_forall in Hnp. apply Hnp. exact Hc0.
      + apply in_app_or in Hc0 as [Hc0|[Hc0|[]]].
        * destruct Hc0 as [<-|[<-|[]]]; reflexivity.
        * subst c0. destruct (digit_cases _ Hd) as [->|[->|[->| ->]]]; reflexivity.
    - subst c0. discriminate.
    - rewrite forallb_forall in Hnp2. apply Hnp2. exact Hc0. }
  assert (Hshape : exists y u, line1 ++ LF :: line2 = y :: u).
  { unfold line1. subst cat. cbn [app]. eauto. }
  destruct Hshape as (y & u & Eyu). rewrite Eyu. rewrite <- Eyu.
  rewrite Hblock.
  rewrite (splitlines_two _ _ Hnb1 Hnb2 Hne).
  cbn [filter]. rewrite (strip_id _ Hs1), (strip_id _ Hs2).
  assert (N1 : str_eqb line1 [] = false).
  { unfold line1. subst cat. reflexivity. }
  assert (N2 : str_eqb line2 [] = false).
  { destruct line2; [congruence|reflexivity]. }
  rewrite N1, N2. cbn [negb List.map first_item rbind tl].
  rewrite (strip_id _ Hs1), (strip_id _ Hs2).
  unfold line1 at 1. rewrite header_run; auto.
  - unfold group_strip, group_val.
    cbn [group String.eqb Ascii.eqb Bool.eqb rbind].
    rewrite (strip_id _ Hs), Hscan. reflexivity.
  - subst cat. discriminate.
  - apply no_break_dot. exact Hnb.
Qed.

Lemma parse_entry_strip (fb : dict) (e : str) :
  parse_entry fb (strip e) = parse_entry fb e.
Proof. unfold parse_entry. rewrite strip_strip. reflexivity. Qed.

Lemma lstrip_app (s w : str) :
  lstrip s <> [] -> lstrip (s ++ w) = lstrip s ++ w.
Proof.
  induction s as [|c s IH]; simpl; [congruence|].
  destruct (isspace c); auto.
Qed.

Lemma strip_blank_r (s w : str) :
  forallb isspace w = true -> strip (s ++ w) = strip s.
Proof.
  intros Hw. unfold strip. destruct (lstrip s) as [|c t] eqn:E.
  - destruct (lstrip_split s) as (w0 & E0 & H0). rewrite E, app_nil_r in E0.
    subst w0. rewrite lstrip_all_blank; [reflexivity|].
    rewrite forallb_app, H0, Hw. reflexivity.
  - rewrite lstrip_app by congruence. rewrite E. apply rstrip_blank. exact Hw.
Qed.

Lemma parse_entry_twoline (fb : dict) (cat sc r : str) :
  plain_label cat = true -> plain_score sc = true ->
  plain_reasoning TwoLine r = true ->
  parse_entry fb (write_entry TwoLine (cat, {| score := sc; reasoning := r |}))
  = Ok (dict_set cat {| score := sc; reasoning := r |} fb).
Proof.
  intros Hcat Hsc Hr. apply plain_score_parts in Hsc as (d & -> & Hd).
  apply plain_reasoning_twoline in Hr as (Hs & Hnb & Hnp).
  unfold write_entry. cbn [fst snd score reasoning].
  destruct r as [|c u].
  - rewrite <- parse_entry_strip.
    replace (cat ++ lit ": " ++ [d] ++ [LF] ++ lit "Reasoning: " ++ [])
      with ((cat ++ lit ": " ++ [d] ++ [LF] ++ lit "Reasoning:") ++ [SP])
      by (norm_app; reflexivity).
    rewrite strip_blank_r by reflexivity. rewrite parse_entry_strip.
    apply parse_two_lines; auto; try reflexivity; try discriminate.
  - assert (H1 : lit "Reasoning: " ++ c :: u <> []) by discriminate.
    assert (H2 : stripped (lit "Reasoning: " ++ c :: u) = true).
    { destruct (@stripped_nonempty_last (c :: u)) as (m & z & E & Hz);
        [discriminate | exact Hs |].
      change (lit "Reasoning: " ++ c :: u)
        with (0x52%N :: (lit "easoning: " ++ c :: u)).
      apply (@stripped_intro _ z _ (lit "Reasoning: " ++ m)); auto.
      rewrite E. norm_app. reflexivity. }
    assert (H3 : forallb (fun x => negb (islinebreak x))
                         (lit "Reasoning: " ++ c :: u) = true).
    { rewrite forallb_app, Hnb. reflexivity. }
    assert (H4 : forallb (fun x => negb (N.eqb x open_paren))
                         (lit "Reasoning: " ++ c :: u) = true).
    { rewrite forallb_app. apply andb_true_iff. split; [reflexivity | exact Hnp]. }
    assert (H5 : scan_reason [lit "Reasoning: " ++ c :: u] = Ok (c :: u)).
    { cbn [scan_reason]. rewrite reason_line_run.
      - unfold group_strip. cbn [group String.eqb Ascii.eqb Bool.eqb].
        rewrite (strip_id _ Hs). reflexivity.
      - eapply stripped_head; eauto.
      - apply no_break_dot. exact Hnb. }
    apply parse_two_lines; assumption.
Qed.

Lemma parse_entry_written (fb : dict) (x : shape * (str * critique)) :
  plain_entry x = true ->
  parse_entry fb (write_entry (fst x) (snd x))
  = Ok (dict_set (fst (snd x)) (snd (snd x)) fb).
Proof.
  destruct x as [sh [cat [sc r]]]. unfold plain_entry.
  cbn [fst snd score reasoning]. rewrite !andb_true_iff. intros [[H1 H2] H3].
  destruct sh; [apply parse_entry_inline | apply parse_entry_twoline]; auto.
Qed.

(** ** Splitting a text into its entries *)

(** A separator starts with a newline that is followed by a blank. *)
Lemma blank_match_start (pos : nat) (c : char) (t : str) (n : nat) :
  match_len blank_re pos (c :: t) = Some n ->
  c = LF /\ exists d t', t = d :: t' /\ isspace d = true.
Proof.
  unfold match_len. intros H.
  apply exec_sound in H as (a & rest & c' & E & M & _).
  unfold blank_re in M. inv_matches.
  repeat match goal with H : is_char _ _ = true |- _ =>
    apply N.eqb_eq in H; subst end.
  cbn [app] in E. inversion E; subst. split; [reflexivity|].
  match goal with H : forallb isspace ?w = true |- _ =>
    destruct w as [|d w']; cbn [app forallb] in *;
    [ | apply andb_true_iff in H as [Hd _] ] end; eauto.
Qed.

(** A separator is two characters long at least, so that [re.split] never
    meets an empty match. *)
Lemma blank_match_length (pos : nat) (s : str) (n : nat) :
  match_len blank_re pos s = Some n -> 2 <= n.
Proof.
  unfold match_len. intros H.
  apply exec_sound in H as (a & rest & c' & E & M & F).
  inversion F; subst n; clear F.
  unfold blank_re in M. inv_matches.
  rewrite !length_app. cbn [length]. lia.
Qed.

Lemma split_keep (pos : nat) (cur : str) (c : char) (t : str) :
  match_len blank_re pos (c :: t) = None ->
  split_from blank_re pos 0 cur (c :: t)
  = split_from blank_re (S pos) 0 (c :: cur) t.
Proof. intros H. cbn [split_from]. rewrite H. reflexivity. Qed.

(** Inside a block no separator starts. *)
Lemma split_block : forall (b tail : str) (pos : nat) (cur : str),
  newlines_followed b = true ->
  split_from blank_re pos 0 cur (b ++ tail)
  = split_from blank_re (pos + length b) 0 (rev b ++ cur) tail.
Proof.
  induction b as [|c b IH]; intros tail pos cur H.
  - simpl. rewrite Nat.add_0_r. reflexivity.
  - cbn [newlines_followed] in H. apply andb_true_iff in H as [Hc Hb].
    cbn [app]. rewrite split_keep.
    + rewrite IH by exact Hb. cbn [rev length]. rewrite <- app_assoc.
      f_equal. lia.
    + destruct (match_len blank_re pos (c :: b ++ tail)) eqn:E; auto.
      exfalso. apply blank_match_start in E as (-> & d & t' & E & Hd).
      change (N.eqb LF LF) with true in Hc. cbv iota in Hc.
      destruct b as [|d' b']; [discriminate|].
      cbn [app] in E. inversion E; subst. rewrite Hd in Hc. discriminate.
Qed.

(** Between two blocks the separator is the two newlines. *)
Lemma split_separator (pos : nat) (cur : str) (x : char) (t : str) :
  isspace x = false ->
  split_from blank_re pos 0 cur (LF :: LF :: x :: t)
  = rev cur :: split_from blank_re (S (S pos)) 0 [] (x :: t).
Proof.
  intros Hx.
  assert (M : match_len blank_re pos (LF :: LF :: x :: t) = Some 2).
  { unfold match_len, blank_re. cbn [exec].
    change (is_char LF LF) with true. cbv iota.
    rewrite star_greedy_back.
    - change (is_char LF LF) with true. cbv iota. f_equal. lia.
    - reflexivity.
    - rewrite star_greedy_stop by exact Hx.
      unfold is_char. rewrite (not_space_not_LF _ Hx). reflexivity. }
  cbn [split_from]. rewrite M. reflexivity.
Qed.

Lemma block_like_parts (b : str) :
  block_like b = true ->
  exists x t, b = x :: t /\ isspace x = false /\ newlines_followed b = true.
Proof.
  destruct b as [|x t]; [discriminate|]. unfold block_like.
  rewrite andb_true_iff, negb_true_iff. eauto.
Qed.

Lemma join_cons_cons (sep b b2 : str) (bs : list str) :
  join sep (b :: b2 :: bs) = b ++ sep ++ join sep (b2 :: bs).
Proof. reflexivity. Qed.

Lemma join_head (sep : str) (bs : list str) (x : char) (t : str) :
  join sep ((x :: t) :: bs) = x :: (match bs with
                                    | [] => t
                                    | _ :: _ => t ++ sep ++ join sep bs
                                    end).
Proof. destruct bs; reflexivity. Qed.

Lemma split_join : forall (bs : list str) (b : str) (pos : nat) (cur : str),
  forallb block_like (b :: bs) = true ->
  split_from blank_re pos 0 cur (join [LF; LF] (b :: bs))
  = (rev cur ++ b) :: bs.
Proof.
  induction bs as [|b2 bs IH]; intros b pos cur H;
    cbn [forallb] in H; apply andb_true_iff in H as [Hb Hbs].
  - apply block_like_parts in Hb as (x & t & -> & _ & Hn).
    cbn [join]. rewrite <- (app_nil_r (x :: t)) at 1.
    rewrite split_block by exact Hn. cbn [split_from].
    rewrite rev_app_distr, rev_involutive. reflexivity.
  - pose proof Hbs as Hbs'. cbn [forallb] in Hbs'.
    apply andb_true_iff in Hbs' as [Hb2 _].
    apply block_like_parts in Hb as (x & t & -> & _ & Hn).
    apply block_like_parts in Hb2 as (x2 & t2 & -> & Hx2 & _).
    rewrite join_cons_cons, split_block by exact Hn.
    rewrite join_head. cbn [app].
    rewrite split_separator by exact Hx2.
    match goal with |- context [split_from _ _ _ _ ?J] =>
      replace J with (join [LF; LF] ((x2 :: t2) :: bs)) by (apply join_head) end.
    rewrite IH by exact Hbs.
    rewrite rev_app_distr, rev_involutive. reflexivity.
Qed.

Lemma re_split_join (bs : list str) :
  bs <> [] -> forallb block_like bs = true ->
  re_split blank_re (join [LF; LF] bs) = bs.
Proof.
  destruct bs as [|b bs]; [congruence|]. intros _ H.
  unfold re_split. rewrite split_join by exact H. reflexivity.
Qed.

(** ** A written CritiqueSet, read back *)

Lemma newlines_followed_plain (s : str) :
  forallb (fun c => negb (islinebreak c)) s = true -> newlines_followed s = true.
Proof.
  induction s as [|c s IH]; simpl; auto.
  rewrite andb_true_iff, negb_true_iff. intros [Hc Hs].
  rewrite IH by auto. destruct (N.eqb c LF) eqn:E; auto.
  apply N.eqb_eq in E. subst. discriminate.
Qed.

Lemma newlines_followed_app (a s : str) :
  forallb (fun c => negb (islinebreak c)) a = true ->
  newlines_followed s = true -> newlines_followed (a ++ s) = true.
Proof.
  induction a as [|c a IH]; simpl; auto.
  rewrite andb_true_iff, negb_true_iff. intros [Hc Ha] Hs.
  rewrite IH by auto. destruct (N.eqb c LF) eqn:E; auto.
  apply N.eqb_eq in E. subst. discriminate.
Qed.

Lemma write_entry_block_like (x : shape * (str * critique)) :
  plain_entry x = true -> block_like (write_entry (fst x) (snd x)) = true.
Proof.
  destruct x as [sh [cat [sc r]]]. unfold plain_entry.
  cbn [fst snd score reasoning]. rewrite !andb_true_iff. intros [[Hcat Hsc] Hr].
  apply plain_score_parts in Hsc as (d & -> & Hd).
  pose proof Hcat as Hc2.
  apply plain_label_parts in Hc2 as (x & t & -> & Hs & Hnb & _).
  assert (B : forall s, newlines_followed ((x :: t) ++ s) = true ->
                        block_like ((x :: t) ++ s) = true).
  { intros s Hn. cbn [app] in *. unfold block_like.
    rewrite (stripped_head _ _ Hs), Hn. reflexivity. }
  unfold write_entry. cbn [fst snd score reasoning].
  destruct sh; apply B.
  - apply newlines_followed_plain.
    apply (inline_entry_stripped (x :: t) r d Hcat Hd Hr).
  - apply plain_reasoning_twoline in Hr as (_ & Hnr & _).
    apply newlines_followed_app; [exact Hnb|].
    change (lit ": " ++ [d] ++ [LF] ++ lit "Reasoning: " ++ r)
      with ((lit ": " ++ [d]) ++ LF :: 0x52%N :: (lit "easoning: " ++ r)).
    apply newlines_followed_app.
    + change (lit ": ") with [0x3a; 0x20]%N.
      cbn [app forallb]. rewrite (digit_not_break _ Hd). reflexivity.
    + cbn [newlines_followed]. change (N.eqb LF LF) with true. cbv iota.
      change (negb (isspace 82%N)) with true. cbn [andb].
      change (N.eqb 82%N LF) with false. cbv iota. cbn [andb].
      apply newlines_followed_plain. rewrite forallb_app, Hnr. reflexivity.
Qed.

Lemma rstrip_app_r (a b : str) :
  rstrip b <> [] -> rstrip (a ++ b) = a ++ rstrip b.
Proof.
  intros H. unfold rstrip in *. rewrite rev_app_distr.
  rewrite lstrip_app.
  - rewrite rev_app_distr, rev_involutive. reflexivity.
  - intros E. apply H. rewrite E. reflexivity.
Qed.

Lemma rstrip_head (x : char) (t : str) :
  isspace x = false -> exists t', rstrip (x :: t) = x :: t'.
Proof.
  intros Hx. destruct (rstrip_split (x :: t)) as (w & E & Hw).
  destruct (rstrip (x :: t)) as [|y t'].
  - simpl in E. subst w. simpl in Hw. rewrite Hx in Hw. discriminate.
  - simpl in E. inversion E; subst. eauto.
Qed.

Lemma newlines_followed_prefix : forall (p w : str),
  forallb isspace w = true -> newlines_followed (p ++ w) = true ->
  newlines_followed p = true.
Proof.
  induction p as [|c p IH]; intros w Hw H; [reflexivity|].
  cbn [app newlines_followed] in *. apply andb_true_iff in H as [Hc H].
  rewrite (IH w Hw H), andb_true_r.
  destruct (N.eqb c LF); auto.
  destruct p as [|d p]; cbn [app] in Hc; auto.
  destruct w as [|d w]; [discriminate|].
  simpl in Hw. apply andb_true_iff in Hw as [Hd _]. rewrite Hd in Hc.
  discriminate.
Qed.

Lemma block_like_rstrip (b : str) :
  block_like b = true -> block_like (rstrip b) = true.
Proof.
  intros H. apply block_like_parts in H as (x & t & -> & Hx & Hn).
  destruct (rstrip_head x t Hx) as (t' & E).
  destruct (rstrip_split (x :: t)) as (w & E2 & Hw).
  rewrite E in *. unfold block_like. rewrite Hx. cbn [negb andb].
  rewrite E2 in Hn. eapply newlines_followed_prefix; eauto.
Qed.

Lemma map_last_block_like (bs : list str) :
  forallb block_like bs = true ->
  forallb block_like (map_last rstrip bs) = true.
Proof.
  induction bs as [|b [|b2 bs] IH]; intros H; auto.
  - cbn [map_last forallb] in *. apply andb_true_iff in H as [H _].
    rewrite (block_like_rstrip _ H). reflexivity.
  - cbn [forallb] in H. apply andb_true_iff in H as [Hb H].
    change (map_last rstrip (b :: b2 :: bs)) with (b :: map_last rstrip (b2 :: bs)).
    cbn [forallb]. rewrite Hb, IH; auto.
Qed.

Lemma join_block_head (bs : list str) (b : str) :
  block_like b = true ->
  exists x t, join [LF; LF] (b :: bs) = x :: t /\ isspace x = false.
Proof.
  intros H. apply block_like_parts in H as (x & t & -> & Hx & _).
  rewrite join_head. eauto.
Qed.

Lemma rstrip_join : forall (bs : list str),
  bs <> [] -> forallb block_like bs = true ->
  rstrip (join [LF; LF] bs) = join [LF; LF] (map_last rstrip bs).
Proof.
  induction bs as [|b [|b2 bs] IH]; intros Hne H; [congruence|reflexivity|].
  cbn [forallb] in H. apply andb_true_iff in H as [Hb H].
  change (map_last rstrip (b :: b2 :: bs)) with (b :: map_last rstrip (b2 :: bs)).
  assert (E : exists y l, map_last rstrip (b2 :: bs) = y :: l).
  { destruct bs; cbn [map_last]; eauto. }
  destruct E as (y & l & E). rewrite E, !join_cons_cons, <- E.
  rewrite app_assoc, rstrip_app_r, <- app_assoc.
  - rewrite IH; auto. discriminate.
  - pose proof H as H'. cbn [forallb] in H'. apply andb_true_iff in H' as [Hb2 _].
    destruct (join_block_head bs b2 Hb2) as (x & t & -> & Hx).
    destruct (rstrip_head x t Hx) as (t' & ->). discriminate.
Qed.

Lemma strip_join (bs : list str) :
  bs <> [] -> forallb block_like bs = true ->
  strip (join [LF; LF] bs) = join [LF; LF] (map_last rstrip bs).
Proof.
  intros Hne H. unfold strip.
  destruct bs as [|b bs]; [congruence|].
  pose proof H as H'. cbn [forallb] in H'. apply andb_true_iff in H' as [Hb _].
  destruct (join_block_head bs b Hb) as (x & t & E & Hx).
  rewrite E, lstrip_keep, <- E by exact Hx.
  apply rstrip_join; auto.
Qed.

Lemma strip_rstrip (b : str) : strip (rstrip b) = strip b.
Proof.
  destruct (rstrip_split b) as (w & E & Hw).
  rewrite E at 2. rewrite strip_blank_r by exact Hw. reflexivity.
Qed.

Lemma parse_entry_rstrip (fb : dict) (b : str) :
  parse_entry fb (rstrip b) = parse_entry fb b.
Proof.
  rewrite <- parse_entry_strip, strip_rstrip. apply parse_entry_strip.
Qed.

Lemma parse_entries_map_last (bs : list str) : forall fb,
  parse_entries fb (map_last rstrip bs) = parse_entries fb bs.
Proof.
  induction bs as [|b [|b2 bs] IH]; intros fb; auto.
  - cbn [map_last parse_entries]. rewrite parse_entry_rstrip. reflexivity.
  - change (map_last rstrip (b :: b2 :: bs)) with (b :: map_last rstrip (b2 :: bs)).
    cbn [parse_entries]. destruct (parse_entry fb b); cbn [rbind]; auto.
Qed.

(** The text of blocks is read block by block. *)
Lemma parse_blocks (bs : list str) :
  forallb block_like bs = true ->
  parse_judge_feedback (join [LF; LF] bs) = parse_entries [] bs.
Proof.
  intros H. unfold parse_judge_feedback. destruct bs as [|b bs].
  - reflexivity.
  - rewrite strip_join by (auto; discriminate).
    rewrite re_split_join.
    + apply parse_entries_map_last.
    + destruct bs; discriminate.
    + apply map_last_block_like. exact H.
Qed.

(** ** The dictionary *)

Lemma dict_set_fresh (k : str) (v : critique) (d : dict) :
  ~ In k (keys d) -> dict_set k v d = d ++ [(k, v)].
Proof.
  induction d as [|[k' v'] d IH]; simpl; auto. intros H.
  destruct (str_eqb k' k) eqn:E.
  - apply str_eqb_eq in E. tauto.
  - rewrite IH; auto.
Qed.

Lemma keys_dict_set_in (k : str) (v : critique) (d : dict) :
  In k (keys d) -> keys (dict_set k v d) = keys d.
Proof.
  induction d as [|[k' v'] d IH]; simpl; [tauto|]. intros H.
  destruct (str_eqb k' k) eqn:E; auto. simpl. f_equal. apply IH.
  destruct H as [H|H]; auto. subst. rewrite str_eqb_refl in E. discriminate.
Qed.

Lemma keys_dict_set_fresh (k : str) (v : critique) (d : dict) :
  ~ In k (keys d) -> keys (dict_set k v d) = keys d ++ [k].
Proof.
  intros H. rewrite dict_set_fresh by auto. unfold keys.
  rewrite map_app. reflexivity.
Qed.

Lemma dict_get_set_same (k : str) (v : critique) (d : dict) :
  dict_get k (dict_set k v d) = Some v.
Proof.
  induction d as [|[k' v'] d IH]; simpl.
  - rewrite str_eqb_refl. reflexivity.
  - destruct (str_eqb k' k) eqn:E; simpl; rewrite E; auto.
Qed.

Lemma dict_get_set_other (k k0 : str) (v : critique) (d : dict) :
  k0 <> k -> dict_get k (dict_set k0 v d) = dict_get k d.
Proof.
  intros H. induction d as [|[k' v'] d IH]; simpl.
  - apply str_eqb_neq in H. rewrite H. reflexivity.
  - destruct (str_eqb k' k0) eqn:E; simpl.
    + apply str_eqb_eq in E. subst k'.
      apply str_eqb_neq in H. rewrite H. reflexivity.
    + rewrite IH. reflexivity.
Qed.

Lemma existsb_str_eqb (k : str) (seen : list str) :
  existsb (str_eqb k) seen = true <-> In k seen.
Proof.
  rewrite existsb_exists. split.
  - intros (x & Hx & E). apply str_eqb_eq in E. subst. auto.
  - intros H. exists k. split; auto. apply str_eqb_refl.
Qed.

Lemma keys_assign_all : forall (recs : list (str * critique)) (d : dict) (seen : list str),
  (forall k, In k seen <-> In k (keys d)) ->
  keys (fold_left assign recs d)
  = keys d ++ first_occurrences seen (List.map fst recs).
Proof.
  induction recs as [|[k v] recs IH]; intros d seen Hseen; simpl.
  - rewrite app_nil_r. reflexivity.
  - destruct (existsb (str_eqb k) seen) eqn:E.
    + apply existsb_str_eqb in E. apply Hseen in E.
      rewrite (IH _ seen).
      * unfold assign. simpl. rewrite keys_dict_set_in by auto. reflexivity.
      * intros k0. unfold assign. simpl. rewrite keys_dict_set_in by auto.
        apply Hseen.
    + assert (Hk : ~ In k (keys d)).
      { intros Hin. apply Hseen in Hin. apply existsb_str_eqb in Hin.
        congruence. }
      rewrite (IH _ (k :: seen)).
      * unfold assign. simpl. rewrite keys_dict_set_fresh by auto.
        rewrite <- app_assoc. reflexivity.
      * intros k0. unfold assign. simpl. rewrite keys_dict_set_fresh by auto.
        rewrite in_app_iff. simpl. rewrite Hseen. tauto.
Qed.

Lemma NoDup_keys_dict_set (k : str) (v : critique) (d : dict) :
  NoDup (keys d) -> NoDup (keys (dict_set k v d)).
Proof.
  intros H. destruct (in_dec (list_eq_dec N.eq_dec) k (keys d)) as [Hin|Hin].
  - rewrite keys_dict_set_in; auto.
  - rewrite keys_dict_set_fresh by auto.
    apply NoDup_app; auto.
    + constructor; [tauto | constructor].
    + intros x Hx [<-|[]]. tauto.
Qed.

Lemma NoDup_keys_assign_all : forall (recs : list (str * critique)) (d : dict),
  NoDup (keys d) -> NoDup (keys (fold_left assign recs d)).
Proof.
  induction recs as [|kv recs IH]; intros d H; simpl; auto.
  apply IH. apply NoDup_keys_dict_set. exact H.
Qed.

Lemma dict_get_assign_all (k : str) : forall (recs : list (str * critique)) (d : dict),
  dict_get k (fold_left assign recs d)
  = match last_value k recs with
    | Some v => Some v
    | None => dict_get k d
    end.
Proof.
  induction recs as [|[k0 v0] recs IH]; intros d; simpl; auto.
  rewrite IH. destruct (last_value k recs); auto.
  unfold assign. simpl. destruct (str_eqb k0 k) eqn:E.
  - apply str_eqb_eq in E. subst. apply dict_get_set_same.
  - apply str_eqb_neq in E. apply dict_get_set_other. exact E.
Qed.

(** ** What an entry assigns *)

Lemma parse_entry_record (fb : dict) (e : str) :
  parse_entry fb e
  = Ok (match entry_record e with
        | Some kv => assign fb kv
        | None => fb
        end).
Proof.
  unfold entry_record, parse_entry.
  destruct (strip e) as [|c t] eqn:E; [reflexivity|].
  destruct (re_match inline_re _) eqn:M1.
  - apply inline_match_inv in M1 as (cat & d & reason & -> & _).
    reflexivity.
  - destruct (@lines_nonempty c t) as (l & ls & ->).
    { eapply strip_head; eauto. }
    cbn [first_item rbind tl].
    destruct (re_match header_re l) eqn:M2; [|reflexivity].
    apply header_match_inv in M2 as (cat & d & -> & _).
    unfold group_strip, group_val.
    cbn [group String.eqb Ascii.eqb Bool.eqb rbind].
    destruct (scan_reason_ok ls) as [r ->]. reflexivity.
Qed.

Lemma parse_entries_records (es : list str) : forall fb,
  parse_entries fb es = Ok (fold_left assign (records_of es) fb).
Proof.
  induction es as [|e es IH]; intros fb; cbn [parse_entries records_of].
  - reflexivity.
  - rewrite parse_entry_record. cbn [rbind].
    destruct (entry_record e); cbn [fold_left]; apply IH.
Qed.

Lemma parse_records (text : str) :
  parse_judge_feedback text = Ok (fold_left assign (records text) []).
Proof. apply parse_entries_records. Qed.

(** ** Reading back what was written *)

Lemma entry_record_written (x : shape * (str * critique)) :
  plain_entry x = true -> entry_record (write_entry (fst x) (snd x)) = Some (snd x).
Proof.
  intros H. unfold entry_record. rewrite parse_entry_written by exact H.
  destruct x as [sh [k v]]. reflexivity.
Qed.

Lemma records_written (l : list (shape * (str * critique))) :
  forallb plain_entry l = true ->
  records_of (List.map (fun x => write_entry (fst x) (snd x)) l) = List.map snd l.
Proof.
  induction l as [|x l IH]; intros H; cbn [List.map records_of]; auto.
  cbn [forallb] in H. apply andb_true_iff in H as [Hx Hl].
  rewrite entry_record_written by exact Hx. rewrite IH by exact Hl. reflexivity.
Qed.

Lemma assign_all_fresh : forall (recs : list (str * critique)) (d : dict),
  NoDup (keys d ++ List.map fst recs) ->
  fold_left assign recs d = d ++ recs.
Proof.
  induction recs as [|[k v] recs IH]; intros d H; simpl.
  - rewrite app_nil_r. reflexivity.
  - unfold assign at 2. simpl.
    assert (Hk : ~ In k (keys d)).
    { apply NoDup_remove_2 in H. intros Hin. apply H.
      apply in_or_app. auto. }
    rewrite dict_set_fresh by exact Hk. rewrite IH.
    + rewrite <- app_assoc. reflexivity.
    + unfold keys. rewrite map_app. simpl. rewrite <- app_assoc. exact H.
Qed.

Lemma written_blocks_like (l : list (shape * (str * critique))) :
  forallb plain_entry l = true ->
  forallb block_like (List.map (fun x => write_entry (fst x) (snd x)) l) = true.
Proof.
  induction l as [|x l IH]; intros H; cbn [List.map forallb] in *; auto.
  apply andb_true_iff in H as [Hx Hl].
  rewrite write_entry_block_like, IH by auto. reflexivity.
Qed.

(** ** The category of an inline match is the shortest one *)

(** The inline pattern from the category on, on a text that has the parts. *)
Lemma inline_parts_rest cat d reason s :
  inline_parts cat d reason s ->
  exists a tl, s = cat ++ a ++ tl /\
    forall pos c,
      Matches inline_rest pos a tl c
        (("reason"%string, reason) :: ("score"%string, [d]) :: c).
Proof.
  intros [].
  destruct (@nonempty_dot _ H8 H9) as (y & r' & -> & Hy & Hr').
  exists (w1 ++ lit "(" ++ w2 ++ [d] ++ w3 ++ lit ")" ++ w4
             ++ sp ++ w5 ++ (y :: r') ++ []), tl.
  split.
  { norm_app. rewrite ?app_nil_r. reflexivity. }
  intros pos c. unfold inline_rest, inline_tail.
  repeat (eapply M_seq; [ first [ apply M_grp; first [ apply M_plus; assumption
                                                     | apply M_chr; assumption ]
                                | apply M_star; assumption
                                | apply M_chr; reflexivity ] | ]).
  destruct H10; subst; constructor.
Qed.

Lemma inline_match_shortest (block : str) (m : captures) :
  re_match inline_re block = Some m ->
  exists cat d reason,
    m = [("reason"%string, reason); ("score"%string, [d]); ("cat"%string, cat)]
    /\ inline_parts cat d reason block
    /\ forall cat' d' reason',
         inline_parts cat' d' reason' block -> length cat <= length cat'.
Proof.
  intros H. pose proof H as H0.
  apply inline_match_inv in H0 as (cat & d & reason & -> & P).
  exists cat, d, reason. split; [reflexivity|]. split; [exact P|].
  intros cat' d' reason' P'.
  destruct (Nat.le_gt_cases (length cat) (length cat')) as [|L]; [assumption|].
  exfalso.
  destruct block as [|x t].
  { inversion P. destruct cat; [congruence|discriminate]. }
  unfold re_match in H. rewrite inline_re_unfold in H.
  destruct (dot x); [|discriminate].
  apply star_lazy_sound in H as (a & rest & Et & _ & K & Hmin).
  (* the category of the match is [x :: a] *)
  assert (Ecat : cat = x :: a).
  { apply exec_sound in K as (a0 & rest0 & c' & _ & M & F).
    inversion F; subst c'; clear F.
    unfold inline_rest, inline_tail, Plus in M. inv_matches.
    match goal with H : Matches Eol _ _ _ _ _ |- _ =>
      apply eol_inv in H as (_ & E & _) end.
    injection E as _ _ Ec. rewrite Ec. apply firstn_prefix. }
  (* a shorter category would have been found first *)
  assert (Hne' : cat' <> []) by (destruct P'; assumption).
  apply inline_parts_rest in P' as (a' & tl' & E' & M').
  destruct cat' as [|x' c']; [congruence|].
  cbn [app] in E'. inversion E'; subst x'.
  assert (Hlen : length c' < length a).
  { subst cat. simpl in L. lia. }
  specialize (Hmin c' (a' ++ tl') H1 Hlen).
  destruct (@exec_complete _ _ _ _ _ _ _ (M' (1 + length c') _) found
              (("reason"%string, reason') :: ("score"%string, [d'])
                 :: [("cat"%string, firstn (1 + length c' - 0) (x :: t))])
              eq_refl) as [y Hy].
  rewrite Hy in Hmin. discriminate.
Qed.

Lemma str_replace_no_LF (s : str) : ~ In LF (str_replace LF SP s).
Proof.
  unfold str_replace. intros H. apply in_map_iff in H as (c & E & _).
  destruct (N.eqb c LF) eqn:Ec; [discriminate|].
  apply N.eqb_neq in Ec. congruence.
Qed.

Lemma str_replace_last (s m : str) (z : char) :
  s = m ++ [z] -> isspace z = false ->
  str_replace LF SP s = str_replace LF SP m ++ [z].
Proof.
  intros -> Hz. rewrite str_replace_app. simpl.
  rewrite (not_space_not_LF _ Hz). reflexivity.
Qed.

(** A text that reaches the end of a stripped text is stripped at its end. *)
Lemma suffix_strip (s pre r m : str) (z : char) :
  s = pre ++ r -> r <> [] -> s = m ++ [z] -> isspace z = false ->
  exists pre', s = pre' ++ strip r.
Proof.
  intros E Hne Ez Hz.
  destruct (exists_last Hne) as (r' & z' & ->).
  assert (z' = z).
  { rewrite E, app_assoc in Ez. apply app_inj_tail in Ez. tauto. }
  subst z'.
  destruct (lstrip_split (r' ++ [z])) as (w & Ew & Hw).
  assert (Hl : exists l, lstrip (r' ++ [z]) = l ++ [z]).
  { destruct (lstrip (r' ++ [z])) as [|c l] eqn:El.
    - rewrite app_nil_r in Ew. subst w. rewrite forallb_app in Hw.
      simpl in Hw. rewrite Hz in Hw. rewrite andb_false_r in Hw. discriminate.
    - destruct (@exists_last _ (c :: l)) as (l' & z' & El'); [discriminate|].
      rewrite El' in Ew. rewrite app_assoc in Ew. apply app_inj_tail in Ew.
      destruct Ew as [_ <-]. eauto. }
  destruct Hl as (l & Hl).
  exists (pre ++ w). unfold strip. rewrite Hl, rstrip_keep by exact Hz.
  rewrite <- Hl, <- app_assoc, <- Ew. exact E.
Qed.

Lemma inline_no_match_nil : re_match inline_re [] = None.
Proof. reflexivity. Qed.

Lemma entry_block_end (e : str) :
  strip e <> [] ->
  exists m z, str_replace LF SP (strip e) = m ++ [z] /\ isspace z = false.
Proof.
  intros Hne.
  destruct (@stripped_nonempty_last (strip e) Hne (strip_stripped e))
    as (m & z & E & Hz).
  exists (str_replace LF SP m), z. split; auto.
  apply str_replace_last; auto.
Qed.

Lemma inline_parts_end cat d reason s :
  inline_parts cat d reason s -> ~ In LF s ->
  exists before, s = before ++ reason.
Proof.
  intros [] Hno.
  assert (tl = []).
  { destruct H10 as [->| ->]; auto. exfalso. apply Hno.
    repeat (apply in_or_app; right). left. reflexivity. }
  subst tl. rewrite app_nil_r.
  exists (cat ++ w1 ++ lit "(" ++ w2 ++ [d] ++ w3 ++ lit ")" ++ w4 ++ sp ++ w5).
  norm_app. reflexivity.
Qed.


(** ** Scores are digits from 1 to 4 *)

Lemma entry_record_score (e : str) (k : str) (v : critique) :
  entry_record e = Some (k, v) -> plain_score (score v) = true.
Proof.
  unfold entry_record, parse_entry.
  destruct (strip e) as [|c t] eqn:E; [discriminate|].
  destruct (re_match inline_re _) eqn:M1.
  - apply inline_match_inv in M1 as (cat & d & reason & -> & P).
    cbn. intros F. inversion F; subst. simpl. destruct P; assumption.
  - destruct (@lines_nonempty c t) as (l & ls & ->).
    { eapply strip_head; eauto. }
    cbn [first_item rbind tl].
    destruct (re_match header_re l) eqn:M2; [|discriminate].
    apply header_match_inv in M2 as (cat & d & -> & P).
    unfold group_strip, group_val.
    cbn [group String.eqb Ascii.eqb Bool.eqb rbind].
    destruct (scan_reason_ok ls) as [r ->]. cbn.
    intros F. inversion F; subst. simpl. destruct P; assumption.
Qed.

Lemma records_of_scores (es : list str) :
  Forall (fun kv => plain_score (score (snd kv)) = true) (records_of es).
Proof.
  induction es as [|e es IH]; cbn [records_of]; [constructor|].
  destruct (entry_record e) as [[k v]|] eqn:E; auto.
  constructor; auto. simpl. eapply entry_record_score; eauto.
Qed.

Lemma in_dict_set (k0 : str) (v0 : critique) (d : dict) k v :
  In (k, v) (dict_set k0 v0 d) -> v = v0 \/ In (k, v) d.
Proof.
  induction d as [|[k' v'] d IH]; simpl.
  - intros [E|[]]. inversion E. auto.
  - destruct (str_eqb k' k0); simpl.
    + intros [E|H]; [inversion E; auto | auto].
    + intros [E|H]; [auto | destruct (IH H); auto].
Qed.

Lemma in_assign_all : forall (recs : list (str * critique)) (d : dict) k v,
  In (k, v) (fold_left assign recs d) ->
  In (k, v) d \/ exists k', In (k', v) recs.
Proof.
  induction recs as [|[k0 v0] recs IH]; intros d k v H; simpl in *; auto.
  apply IH in H as [H|(k' & H)].
  - unfold assign in H. simpl in H. apply in_dict_set in H as [->|H]; eauto.
  - eauto.
Qed.

Lemma parsed_scores (text : str) (d : dict) k v :
  parse_judge_feedback text = Ok d -> In (k, v) d ->
  plain_score (score v) = true.
Proof.
  rewrite parse_records. intros E Hin. inversion E; subst d; clear E.
  apply in_assign_all in Hin as [[]|(k' & Hin)].
  pose proof (records_of_scores (re_split blank_re (strip text))) as F.
  rewrite Forall_forall in F. apply (F (k', v)). exact Hin.
Qed.

(** ** Entries without a score token in range are dropped *)

Lemma inline_parts_score cat d reason s :
  inline_parts cat d reason s -> has_inline_score s.
Proof.
  intros []. exists (cat ++ w1), w2, d, w3, (w4 ++ sp ++ w5 ++ reason ++ tl).
  repeat split; auto. norm_app. reflexivity.
Qed.

Lemma blank_tail_nil (l pre w : str) :
  stripped l = true -> l = pre ++ w -> forallb isspace w = true ->
  pre <> [] -> w = [].
Proof.
  intros Hs E Hw Hne. destruct w as [|c w]; auto. exfalso.
  destruct (@exists_last _ (c :: w)) as (w' & z & Ez); [discriminate|].
  rewrite Ez in E, Hw. rewrite app_assoc in E. subst l.
  rewrite forallb_app in Hw. apply andb_true_iff in Hw as [_ Hz].
  simpl in Hz. rewrite andb_true_r in Hz.
  apply stripped_last in Hs. congruence.
Qed.

Lemma header_parts_score cat d l :
  header_parts cat d l -> stripped l = true -> has_header_score l.
Proof.
  intros P Hs. destruct P as [w1 w2 tl Hc Hdot Hw1 Hd Hw2 Htl].
  assert (Hw : forallb isspace (w2 ++ tl) = true).
  { rewrite forallb_app, Hw2. destruct Htl as [->| ->]; reflexivity. }
  assert (E : w2 ++ tl = []).
  { apply (@blank_tail_nil _ (cat ++ lit ":" ++ w1 ++ [d]) _ Hs); auto.
    - norm_app. reflexivity.
    - destruct cat; [congruence|discriminate]. }
  apply app_eq_nil in E as [-> ->].
  exists cat, w1, d. repeat split; auto.
Qed.

Lemma has_inline_score_paren (s : str) :
  has_inline_score s -> In open_paren s.
Proof.
  intros (pre & w2 & d & w3 & post & -> & _).
  apply in_or_app. right. left. reflexivity.
Qed.

Lemma has_header_score_last (l : str) :
  has_header_score l -> digit14 (last l 0%N) = true.
Proof.
  intros (pre & w1 & d & -> & _ & Hd).
  rewrite !app_assoc, last_last. exact Hd.
Qed.

Lemma first_line_origin (entry l : str) (ls : list str) :
  List.map strip
    (filter (fun l => negb (str_eqb (strip l) [])) (splitlines entry)) = l :: ls ->
  exists l0, In l0 (splitlines entry) /\ l = strip l0.
Proof.
  intros E.
  assert (Hin : In l (List.map strip
            (filter (fun l => negb (str_eqb (strip l) [])) (splitlines entry)))).
  { rewrite E. left. reflexivity. }
  apply in_map_iff in Hin as (l0 & <- & Hin).
  apply filter_In in Hin as [Hin _]. eauto.
Qed.

Lemma parse_entry_dropped (fb : dict) (e : str) :
  ~ has_inline_score (str_replace LF SP (strip e)) ->
  (forall l, In l (splitlines (strip e)) -> ~ has_header_score (strip l)) ->
  parse_entry fb e = Ok fb.
Proof.
  intros Hi Hh. unfold parse_entry.
  destruct (strip e) as [|c t] eqn:E; [reflexivity|].
  destruct (re_match inline_re _) eqn:M1.
  - exfalso. apply inline_match_inv in M1 as (cat & d & reason & _ & P).
    apply Hi. eapply inline_parts_score; eauto.
  - destruct (@lines_nonempty c t) as (l & ls & El).
    { eapply strip_head; eauto. }
    rewrite El. cbn [first_item rbind].
    destruct (re_match header_re l) eqn:M2; [|reflexivity].
    exfalso. apply header_match_inv in M2 as (cat & d & _ & P).
    apply first_line_origin in El as (l0 & Hin & ->).
    apply (Hh l0 Hin). eapply header_parts_score; eauto.
    apply strip_stripped.
Qed.

(** ** A score in parentheses with nothing behind it *)

Lemma unique_occurrence (q : char) : forall (A B A' B' : str),
  ~ In q A -> ~ In q B -> A ++ q :: B = A' ++ q :: B' -> A = A' /\ B = B'.
Proof.
  induction A as [|a A IH]; intros B A' B' HA HB E.
  - destruct A' as [|a' A']; simpl in E.
    + inversion E. auto.
    + inversion E; subst. exfalso. apply HB. apply in_or_app. right. left.
      reflexivity.
  - destruct A' as [|a' A']; simpl in E; inversion E; subst.
    + exfalso. apply HA. left. reflexivity.
    + destruct (IH B A' B') as [-> ->]; auto.
      intros H. apply HA. right. exact H.
Qed.

Lemma forallb_not_in (q : char) (s : str) :
  forallb (fun c => negb (N.eqb c q)) s = true -> ~ In q s.
Proof.
  rewrite forallb_forall. intros H Hin. specialize (H _ Hin).
  rewrite N.eqb_refl in H. discriminate.
Qed.

Lemma digit_not_paren (d : char) : digit14 d = true -> d <> open_paren.
Proof.
  intros H ->. discriminate.
Qed.

(** [label (d)] has no inline reading: nothing is left for the reasoning. *)
Lemma lone_score_no_inline (label : str) (d : char) :
  forallb (fun c => negb (N.eqb c open_paren)) label = true ->
  digit14 d = true ->
  re_match inline_re (label ++ lit " (" ++ [d] ++ lit ")") = None.
Proof.
  intros Hl Hd.
  destruct (re_match inline_re _) eqn:M; auto. exfalso.
  apply inline_match_inv in M as (cat & d' & reason & _ & P).
  inversion P as [w1 w2 w3 w4 sp w5 tl Hc _ Hw1 _ _ _ _ _ _ Hr _ _ E].
  change (lit " (") with [SP; open_paren] in E.
  change (lit "(") with [open_paren] in E. change (lit ")") with [0x29%N] in E.
  assert (E' : (cat ++ w1) ++ open_paren
                 :: (w2 ++ [d'] ++ w3 ++ [0x29%N] ++ w4 ++ sp ++ w5 ++ reason ++ tl)
               = (label ++ [SP]) ++ open_paren :: [d; 0x29%N]).
  { revert E. norm_app. intros E. exact E. }
  symmetry in E'. apply unique_occurrence in E' as [_ E2].
  - apply (f_equal (@length _)) in E2. rewrite !length_app in E2.
    simpl in E2. destruct reason; [congruence|]. simpl in E2. lia.
  - intros Hin. apply in_app_or in Hin as [Hin|[Hin|[]]].
    + apply (forallb_not_in _ _ Hl). exact Hin.
    + discriminate.
  - intros [Hin|[Hin|[]]]; [|discriminate].
    apply (digit_not_paren _ Hd). auto.
Qed.

Lemma splitlines_one (s : str) :
  s <> [] -> forallb (fun c => negb (islinebreak c)) s = true ->
  splitlines s = [s].
Proof.
  intros Hne H. unfold splitlines. rewrite <- (app_nil_r s) at 1.
  rewrite splitlines_from_plain by exact H. rewrite app_nil_r. simpl.
  destruct (rev s) eqn:E.
  - apply (f_equal (@rev _)) in E. rewrite rev_involutive in E. simpl in E.
    congruence.
  - rewrite <- E, rev_involutive. reflexivity.
Qed.

Lemma lone_score_text (label : str) (d : char) :
  plain_label label = true -> digit14 d = true ->
  stripped (label ++ lit " (" ++ [d] ++ lit ")") = true
  /\ forallb (fun c => negb (islinebreak c))
             (label ++ lit " (" ++ [d] ++ lit ")") = true
  /\ last (label ++ lit " (" ++ [d] ++ lit ")") 0%N = 0x29%N
  /\ str_eqb (label ++ lit " (" ++ [d] ++ lit ")") [] = false.
Proof.
  intros Hl Hd.
  apply plain_label_parts in Hl as (x & t & -> & Hs & Hnb & Hnp).
  split; [|split; [|split]].
  - cbn [app].
    apply (@stripped_intro x 0x29%N _ (x :: t ++ lit " (" ++ [d])).
    + eapply stripped_head; eauto.
    + reflexivity.
    + norm_app. reflexivity.
  - rewrite !forallb_app, Hnb.
    change (lit " (") with [0x20; 0x28]%N. change (lit ")") with [0x29]%N.
    cbn [forallb]. rewrite (digit_not_break _ Hd). reflexivity.
  - change (lit ")") with [0x29%N]. rewrite !app_assoc. apply last_last.
  - reflexivity.
Qed.

(** [label (d)] does not read as a first line either: it ends in a
    parenthesis, not in a digit. *)
Lemma lone_score_no_header (label : str) (d : char) :
  plain_label label = true -> digit14 d = true ->
  re_match header_re (label ++ lit " (" ++ [d] ++ lit ")") = None.
Proof.
  intros Hl Hd.
  destruct (lone_score_text label d Hl Hd) as (Hstr & _ & Hlast & _).
  destruct (re_match header_re _) eqn:M2; [|reflexivity].
  exfalso. apply header_match_inv in M2 as (cat & d' & _ & P).
  apply header_parts_score in P; [|exact Hstr].
  apply has_header_score_last in P. rewrite Hlast in P. discriminate.
Qed.

Lemma lone_score_dropped (fb : dict) (label : str) (d : char) :
  plain_label label = true -> digit14 d = true ->
  parse_entry fb (label ++ lit " (" ++ [d] ++ lit ")") = Ok fb.
Proof.
  intros Hl Hd.
  destruct (lone_score_text label d Hl Hd) as (Hstr & Hplain & _ & N1).
  assert (Hnp : forallb (fun c => negb (N.eqb c open_paren)) label = true).
  { apply plain_label_parts in Hl as (x & t & _ & _ & _ & H). exact H. }
  assert (Hne : label ++ lit " (" ++ [d] ++ lit ")" <> []).
  { intros E. rewrite E in N1. discriminate. }
  unfold parse_entry. rewrite (strip_id _ Hstr).
  rewrite (str_replace_absent _ Hplain).
  rewrite (lone_score_no_inline label d Hnp Hd).
  rewrite (@splitlines_one _ Hne Hplain). cbn [filter].
  rewrite (strip_id _ Hstr), N1.
  cbn [negb List.map first_item rbind]. rewrite (strip_id _ Hstr).
  rewrite (lone_score_no_header label d Hl Hd).
  destruct (label ++ lit " (" ++ [d] ++ lit ")"); reflexivity.
Qed.

(** After the parenthesis, a lone colon is taken as the reasoning. *)
Lemma inline_tail_colon pos caps :
  exec inline_tail pos [colon] caps found
  = Some (("reason"%string, [colon]) :: caps).
Proof.
  unfold inline_tail. cbn [exec].
  rewrite star_greedy_stop by reflexivity.
  rewrite star_greedy_back; [| reflexivity | reflexivity].
  rewrite star_greedy_stop by reflexivity.
  apply (@reason_group_run "reason" colon []); reflexivity.
Qed.

Lemma colon_scored (fb : dict) (label : str) (d : char) :
  plain_label label = true -> digit14 d = true ->
  parse_entry fb (label ++ lit " (" ++ [d] ++ lit "):")
  = Ok (dict_set label {| score := [d]; reasoning := lit ":" |} fb).
Proof.
  intros Hl Hd. pose proof Hl as Hl2.
  apply plain_label_parts in Hl2 as (x & t & -> & Hs & Hnb & Hnp).
  set (entry := (x :: t) ++ lit " (" ++ [d] ++ lit "):").
  assert (Hstr : stripped entry = true).
  { unfold entry. cbn [app].
    apply (@stripped_intro x colon _ (x :: t ++ lit " (" ++ [d] ++ lit ")")).
    - eapply stripped_head; eauto.
    - reflexivity.
    - norm_app. reflexivity. }
  assert (Hplain : forallb (fun c => negb (islinebreak c)) entry = true).
  { unfold entry. rewrite !forallb_app, Hnb.
    change (lit " (") with [0x20; 0x28]%N. change (lit "):") with [0x29; 0x3a]%N.
    cbn [forallb]. rewrite (digit_not_break _ Hd). reflexivity. }
  unfold parse_entry. rewrite (strip_id _ Hstr).
  rewrite (str_replace_absent _ Hplain).
  assert (M : re_match inline_re entry
              = Some [("reason"%string, [colon]); ("score"%string, [d]);
                      ("cat"%string, x :: t)]).
  { unfold entry. change (lit "):") with (lit ")" ++ [colon]).
    apply inline_front; auto. intros pos. apply inline_tail_colon. }
  rewrite M. unfold entry at 1. cbn [app].
  unfold group_strip, group_val. cbn [group String.eqb Ascii.eqb Bool.eqb rbind].
  rewrite (strip_id _ Hs). reflexivity.
Qed.

(** ** [story_editor] and the revision loop *)

Lemma has_int_parts (cat : str) (info : critique) :
  has_int (cat, info) = true ->
  exists n, int_of (score info) = Ok n
            /\ below4 (cat, info) = (n <? 4)%Z
            /\ issue_of (cat, info) = issue_line cat n info.
Proof.
  unfold has_int, int_of, below4, issue_of. cbn [fst snd].
  destruct (py_int (score info)) as [n|]; [|discriminate].
  intros _. exists n. repeat split; reflexivity.
Qed.

Lemma collect_issues_spec : forall (items : dict) (issues : list str),
  forallb has_int items = true ->
  collect_issues issues items
  = Ok (issues ++ List.map issue_of (filter below4 items)).
Proof.
  induction items as [|[cat info] items IH]; intros issues H.
  - simpl. rewrite app_nil_r. reflexivity.
  - cbn [forallb] in H. apply andb_true_iff in H as [Hi H].
    destruct (has_int_parts cat info Hi) as (n & E1 & E2 & E3).
    cbn [collect_issues filter]. rewrite E1, E2. cbn [rbind].
    destruct (n <? 4)%Z.
    + rewrite IH by exact H. cbn [List.map]. rewrite E3, <- app_assoc.
      reflexivity.
    + apply IH. exact H.
Qed.

Lemma low_entries_spec (items : dict) :
  forallb has_int items = true -> low_entries items = Ok (filter below4 items).
Proof.
  induction items as [|[cat info] items IH]; intros H; [reflexivity|].
  cbn [forallb] in H. apply andb_true_iff in H as [Hi H].
  destruct (has_int_parts cat info Hi) as (n & E1 & E2 & _).
  cbn [low_entries filter]. rewrite IH by exact H. rewrite E1, E2.
  cbn [rbind]. destruct (n <? 4)%Z; reflexivity.
Qed.

(** An [Ok] answer of [collect_issues] lists the entries below 4. *)
Lemma collect_issues_ok : forall (items : dict) (issues res : list str),
  collect_issues issues items = Ok res ->
  forallb has_int items = true.
Proof.
  induction items as [|[cat info] items IH]; intros issues res H; [reflexivity|].
  cbn [collect_issues] in H. cbn [forallb]. unfold int_of, has_int in *.
  cbn [snd]. destruct (py_int (score info)) as [n|]; [|discriminate].
  cbn [rbind] in H. destruct (n <? 4)%Z; eapply IH; eauto.
Qed.

Lemma story_editor_unchanged (prompt story : str) (fb : dict) mt temp :
  forallb has_int fb = true -> filter below4 fb = [] ->
  story_editor prompt story fb mt temp = Ret (Ok story).
Proof.
  intros Hi Hf. unfold story_editor.
  rewrite collect_issues_spec by exact Hi. rewrite Hf. reflexivity.
Qed.

Lemma story_editor_revises (prompt story : str) (fb : dict) mt temp :
  forallb has_int fb = true -> filter below4 fb <> [] ->
  story_editor prompt story fb mt temp
  = (resp <- ITree.trigger (revision_request prompt story fb mt temp);;
     Ret (Ok (strip resp))).
Proof.
  intros Hi Hf. unfold story_editor.
  rewrite collect_issues_spec by exact Hi. cbn [app].
  destruct (filter below4 fb) as [|e l] eqn:E; [congruence|].
  unfold revision_request. rewrite E. reflexivity.
Qed.

Lemma filter_nil_iff {A} (p : A -> bool) (l : list A) :
  filter p l = [] <-> forall x, In x l -> p x = false.
Proof.
  induction l as [|a l IH]; simpl.
  - split; auto. intros _ x [].
  - destruct (p a) eqn:E.
    + split; [discriminate|]. intros H. specialize (H a (or_introl eq_refl)).
      congruence.
    + rewrite IH. split.
      * intros H x [<-|Hx]; auto.
      * intros H x Hx. apply H. auto.
Qed.

Lemma filter_not_nil {A} (p : A -> bool) (l : list A) :
  filter p l <> [] <-> exists x, In x l /\ p x = true.
Proof.
  split.
  - intros H. destruct (filter p l) as [|x l'] eqn:E; [congruence|].
    exists x. apply filter_In. rewrite E. left. reflexivity.
  - intros (x & Hx & Hp) E.
    assert (Hin : In x (filter p l)) by (apply filter_In; auto).
    rewrite E in Hin. destruct Hin.
Qed.

(** *** Scores of parsed entries *)

Lemma py_int_digit (d : char) :
  digit14 d = true ->
  exists n, py_int [d] = Some n /\ (1 <= n <= 4)%Z
            /\ ((n <? 4)%Z = negb (N.eqb d 0x34%N))
            /\ str_of_int n = [d].
Proof.
  intros H. destruct (digit_cases _ H) as [->|[->|[->| ->]]];
    [exists 1%Z | exists 2%Z | exists 3%Z | exists 4%Z];
    repeat split; try reflexivity; lia.
Qed.

(** [int] at its edges: an information separator of ASCII is no blank for
    it, a decimal digit of another script is read, a sign and an
    underscore are accepted, and a literal of more than 4300 digits is
    refused. *)
Lemma py_int_edges :
  py_int [0x1c; 0x35]%N = None
  /\ py_int [0x665]%N = Some 5%Z
  /\ py_int (lit " -1_0 ") = Some (-10)%Z
  /\ py_int (repeat 0x39%N 4301) = None
  /\ py_int (repeat 0x39%N 4300) <> None.
Proof.
  repeat split; try (vm_compute; reflexivity).
  vm_compute. discriminate.
Qed.

(** A score that [int] refuses stops [story_editor], also when the text
    would read as 5 without its separator. *)
Lemma story_editor_separator (prompt story : str) (max_tokens : Z)
      (temperature : QArith_base.Q) :
  story_editor prompt story
    [(lit "tone", {| score := [0x1c; 0x35]%N; reasoning := [] |})]
    max_tokens temperature
  = Ret (Raise ValueError).
Proof. reflexivity. Qed.

Lemma plain_score_int (v : critique) :
  plain_score (score v) = true ->
  exists n, py_int (score v) = Some n /\ (1 <= n <= 4)%Z
            /\ ((n <? 4)%Z = true <-> score v <> lit "4")
            /\ str_of_int n = score v.
Proof.
  intros H. apply plain_score_parts in H as (d & E & Hd). rewrite E.
  destruct (py_int_digit d Hd) as (n & Hn & [Hr1 Hr2] & Hlt & Hs).
  exists n. repeat split; auto.
  - intros L. rewrite L in Hlt. symmetry in Hlt. apply negb_true_iff in Hlt.
    apply N.eqb_neq in Hlt. intros F. inversion F. congruence.
  - intros F. rewrite Hlt. apply negb_true_iff. apply N.eqb_neq.
    intros ->. apply F. reflexivity.
Qed.

Lemma parsed_has_int (text : str) (d : dict) :
  parse_judge_feedback text = Ok d -> forallb has_int d = true.
Proof.
  intros H. apply forallb_forall. intros [k v] Hin.
  pose proof (parsed_scores text d k v H Hin) as Hs.
  destruct (plain_score_int v Hs) as (n & Hn & _).
  unfold has_int. cbn [snd]. rewrite Hn. reflexivity.
Qed.

Lemma parsed_below4 (text : str) (d : dict) k v :
  parse_judge_feedback text = Ok d -> In (k, v) d ->
  (below4 (k, v) = true <-> score v <> lit "4").
Proof.
  intros H Hin. pose proof (parsed_scores text d k v H Hin) as Hs.
  destruct (plain_score_int v Hs) as (n & Hn & _ & Hlt & _).
  
  unfold below4. cbn [snd]. rewrite Hn. exact Hlt.
Qed.

Lemma after_judge_cases (user_input story : str) (iteration : Z) (j : str) :
  exists parsed,
    parse_judge_feedback j = Ok parsed
    /\ ((filter below4 parsed = []
         /\ after_judge user_input (story, iteration) j = Ret (inr (Ok story)))
        \/ (filter below4 parsed <> []
            /\ after_judge user_input (story, iteration) j
               = (r <- (resp <- ITree.trigger
                                  (revision_request user_input story parsed 1200
                                                    (QArith_base.Qmake 7 10));;
                        Ret (Ok (strip resp)));;
                  match r with
                  | Raise e => Ret (inr (Raise e))
                  | Ok revised_story =>
                      Ret (inl (revised_story, (iteration + 1)%Z))
                  end))).
Proof.
  destruct (parse_entries_ok (re_split blank_re (strip j)) []) as [parsed E].
  change (parse_judge_feedback j = Ok parsed) in E.
  exists parsed. split; [exact E|].
  pose proof (parsed_has_int j parsed E) as Hi.
  unfold after_judge. rewrite E, (low_entries_spec parsed Hi).
  destruct (filter below4 parsed) as [|e l] eqn:F.
  - left. auto.
  - right. split; [discriminate|].
    rewrite story_editor_revises; auto. rewrite F. discriminate.
Qed.

Lemma asks_revision (user_input story : str) (parsed : dict) (iteration : Z)
      (e : llmE str) :
  asks (r <- (resp <- ITree.trigger
                        (revision_request user_input story parsed 1200
                                          (QArith_base.Qmake 7 10));;
              Ret (Ok (strip resp)));;
        match r with
        | Raise x => Ret (inr (Raise x))
        | Ok revised_story =>
            (Ret (inl (revised_story, (iteration + 1)%Z))
             : itree llmE ((str * Z) + result str))
        end) e
  <-> e = revision_request user_input story parsed 1200 (QArith_base.Qmake 7 10).
Proof.
  unfold asks, first_request. cbn. split.
  - intros E. inversion E. reflexivity.
  - intros ->. reflexivity.
Qed.

Lemma revise_then_continue (e : llmE str) (iteration : Z) :
  (r <- (resp <- ITree.trigger e;; Ret (Ok (strip resp)));;
   match r with
   | Raise x => Ret (inr (Raise x))
   | Ok revised_story => Ret (inl (revised_story, (iteration + 1)%Z))
   end)
  ≈ (resp <- ITree.trigger e;;
     (Ret (inl (strip resp, (iteration + 1)%Z))
      : itree llmE ((str * Z) + result str))).
Proof.
  rewrite bind_bind. apply eutt_eq_bind. intros resp.
  rewrite bind_ret_l. reflexivity.
Qed.

Lemma loop_unfold (user_input : str) (st : str * Z) :
  ITree.iter (revision_step user_input) st
  ≈ (j <- ITree.trigger (JudgeStory (fst st) user_input 2000
                                    (QArith_base.Qmake 1 10));;
     r <- after_judge user_input st j;;
     match r with
     | inl st' => ITree.iter (revision_step user_input) st'
     | inr res => Ret res
     end).
Proof.
  rewrite unfold_iter. unfold revision_step at 1. rewrite bind_bind.
  apply eutt_eq_bind. intros j. apply eutt_eq_bind. intros [st'|res].
  - apply tau_eutt.
  - reflexivity.
Qed.

(** ** Entries that match neither shape *)

Lemma parse_entry_unmatched (fb : dict) (e : str) :
  (forall cat d r, ~ inline_parts cat d r (str_replace LF SP (strip e))) ->
  (forall l cat d, In l (splitlines (strip e)) -> ~ header_parts cat d (strip l)) ->
  parse_entry fb e = Ok fb.
Proof.
  intros Hi Hh. unfold parse_entry.
  destruct (strip e) as [|c t] eqn:E; [reflexivity|].
  destruct (re_match inline_re _) eqn:M1.
  - exfalso. apply inline_match_inv in M1 as (cat & d & reason & _ & P).
    eapply Hi; eauto.
  - destruct (@lines_nonempty c t) as (l & ls & El).
    { eapply strip_head; eauto. }
    rewrite El. cbn [first_item rbind].
    destruct (re_match header_re l) eqn:M2; [|reflexivity].
    exfalso. apply header_match_inv in M2 as (cat & d & _ & P).
    apply first_line_origin in El as (l0 & Hin & ->).
    eapply Hh; eauto.
Qed.

Lemma str_eq_dec (a b : str) : {a = b} + {a <> b}.
Proof. apply list_eq_dec, N.eq_dec. Qed.

(** ** The scenarios of the specification, run on the model *)

Example scenario_two_line :
  parse_judge_feedback
    (lit "theme: 4" ++ [LF] ++ lit "Reasoning: Good fit." ++ [LF; LF]
     ++ lit "language: 2" ++ [LF] ++ lit "Reasoning: Too complex.")
  = Ok [(lit "theme", {| score := lit "4"; reasoning := lit "Good fit." |});
        (lit "language", {| score := lit "2"; reasoning := lit "Too complex." |})].
Proof. vm_compute. reflexivity. Qed.

Example scenario_inline :
  parse_judge_feedback
    (lit "theme (4): Good fit." ++ [LF; LF] ++ lit "language (4) - Very clear.")
  = Ok [(lit "theme", {| score := lit "4"; reasoning := lit "Good fit." |});
        (lit "language", {| score := lit "4"; reasoning := lit "Very clear." |})].
Proof. vm_compute. reflexivity. Qed.

Example scenario_stray_prose :
  parse_judge_feedback
    (lit "theme (4): Good fit." ++ [LF; LF]
     ++ lit "The story is lovely and I enjoyed it." ++ [LF; LF]
     ++ lit "language: 3")
  = Ok [(lit "theme", {| score := lit "4"; reasoning := lit "Good fit." |});
        (lit "language", {| score := lit "3"; reasoning := [] |})].
Proof. vm_compute. reflexivity. Qed.

Example scenario_empty : parse_judge_feedback [] = Ok [].
Proof. reflexivity. Qed.

Example scenario_duplicate :
  parse_judge_feedback (lit "a: 2" ++ [LF; LF] ++ lit "a: 4")
  = Ok [(lit "a", {| score := lit "4"; reasoning := [] |})].
Proof. vm_compute. reflexivity. Qed.

(** Entries that do not come back as they were written: a label that holds
    a score in parentheses, an inline reasoning of two lines, a two-line
    reasoning that holds a score in parentheses. *)
Example written_entries_that_change :
  parse_judge_feedback
    (write_all [(Inline, (lit "pace (2)",
                          {| score := lit "3"; reasoning := lit "ok" |}))])
  = Ok [(lit "pace", {| score := lit "2"; reasoning := lit "(3): ok" |})]
  /\ parse_judge_feedback
       (write_all [(Inline, (lit "tone",
                             {| score := lit "2";
                                reasoning := lit "flat," ++ [LF] ++ lit "slow" |}))])
     = Ok [(lit "tone", {| score := lit "2"; reasoning := lit "flat, slow" |})]
  /\ parse_judge_feedback
       (write_all [(TwoLine, (lit "a",
                              {| score := lit "3";
                                 reasoning := lit "see (2) there" |}))])
     = Ok [(lit "a: 3 Reasoning: see",
            {| score := lit "2"; reasoning := lit "there" |})].
Proof. repeat split; vm_compute; reflexivity. Qed.

(** A pass that revises, and the pass after it that ends the loop. *)
Example pass_that_revises :
  after_judge (lit "a fox") (lit "The fox slept.", 1%Z) (lit "tone (2): flat")
  ≈ (resp <- ITree.trigger
               (ChatCompletion "gpt-3.5-turbo" editor_system
                  (editor_user_msg (lit "a fox") (lit "The fox slept.")
                                   (lit "- tone: score 2 because flat"))
                  1200 (QArith_base.Qmake 7 10));;
     Ret (inl (strip resp, 2%Z))).
Proof.
  assert (P : parse_judge_feedback (lit "tone (2): flat")
              = Ok [(lit "tone", {| score := lit "2"; reasoning := lit "flat" |})])
    by (vm_compute; reflexivity).
  assert (L : low_entries
                [(lit "tone", {| score := lit "2"; reasoning := lit "flat" |})]
              = Ok [(lit "tone", {| score := lit "2"; reasoning := lit "flat" |})])
    by (vm_compute; reflexivity).
  assert (C : collect_issues []
                [(lit "tone", {| score := lit "2"; reasoning := lit "flat" |})]
              = Ok [lit "- tone: score 2 because flat"])
    by (vm_compute; reflexivity).
  unfold after_judge. rewrite P, L. unfold story_editor. rewrite C.
  apply revise_then_continue.
Qed.

Example pass_that_stops (revised : str) :
  after_judge (lit "a fox") (revised, 2%Z) (lit "tone (4): calm")
  = Ret (inr (Ok revised)).
Proof.
  assert (P : parse_judge_feedback (lit "tone (4): calm")
              = Ok [(lit "tone", {| score := lit "4"; reasoning := lit "calm" |})])
    by (vm_compute; reflexivity).
  unfold after_judge. rewrite P. reflexivity.
Qed.

(** * The claims *)

(** C1. Once the judge has answered, the pass of the loop ends the loop
    with the story it was given exactly when every entry of the parsed
    CritiqueSet has score 4, which is so when there is no entry at all, and
    the loop then returns that story; the pass calls the reviser exactly
    when some entry has a score below 4, and then the request is that of
    [story_editor] and the answer, stripped, is the story of the next
    pass. *)
Theorem convergence_rule (user_input story : str) (iteration : Z)
        (judge_feedback : str) :
  exists parsed,
    parse_judge_feedback judge_feedback = Ok parsed
    /\ (stops_with (after_judge user_input (story, iteration) judge_feedback)
                   story
        <-> forall k v, In (k, v) parsed -> score v = lit "4")
    /\ ((exists e,
            asks (after_judge user_input (story, iteration) judge_feedback) e)
        <-> exists k v n,
             In (k, v) parsed /\ py_int (score v) = Some n /\ (n < 4)%Z)
    /\ (parsed = [] ->
        stops_with (after_judge user_input (story, iteration) judge_feedback)
                   story)
    /\ (forall e,
           asks (after_judge user_input (story, iteration) judge_feedback) e ->
           e = revision_request user_input story parsed 1200
                                (QArith_base.Qmake 7 10)
           /\ after_judge user_input (story, iteration) judge_feedback
              ≈ (resp <- ITree.trigger e;;
                 Ret (inl (strip resp, (iteration + 1)%Z))))
    /\ (stops_with (after_judge user_input (story, iteration) judge_feedback)
                   story ->
        (r <- after_judge user_input (story, iteration) judge_feedback;;
         match r with
         | inl st' => ITree.iter (revision_step user_input) st'
         | inr res => Ret res
         end) ≈ Ret (Ok story)).
Proof.
  destruct (after_judge_cases user_input story iteration judge_feedback)
    as (parsed & E & [[F A]|[F A]]); exists parsed; (split; [exact E|]).
  - (* no entry below 4 *)
    assert (Hall : forall k v, In (k, v) parsed -> score v = lit "4").
    { intros k v Hin. destruct (str_eq_dec (score v) (lit "4")) as [|Hne]; auto.
      apply (parsed_below4 judge_feedback parsed k v E Hin) in Hne.
      rewrite filter_nil_iff in F. rewrite (F _ Hin) in Hne. discriminate. }
    assert (Hstop : stops_with
                      (after_judge user_input (story, iteration) judge_feedback)
                      story).
    { rewrite A. reflexivity. }
    assert (Hask : forall e,
               ~ asks (after_judge user_input (story, iteration) judge_feedback) e).
    { intros e H. rewrite A in H. discriminate. }
    split; [split; auto|]. split; [split|]; [| |split; [auto|split]].
    + intros (e & H). exfalso. eapply Hask; eauto.
    + intros (k & v & n & Hin & Hn & Hlt). exfalso.
      rewrite filter_nil_iff in F. specialize (F _ Hin).
      unfold below4 in F. cbn [snd] in F. rewrite Hn in F.
      apply Z.ltb_ge in F. lia.
    + intros e H. exfalso. eapply Hask; eauto.
    + intros _. rewrite A, bind_ret_l. reflexivity.
  - (* some entry below 4 *)
    assert (Hlow : exists k v n,
               In (k, v) parsed /\ py_int (score v) = Some n /\ (n < 4)%Z).
    { apply filter_not_nil in F as ([k v] & Hin & Hb).
      unfold below4 in Hb. cbn [snd] in Hb.
      destruct (py_int (score v)) as [n|] eqn:Hn; [|discriminate].
      exists k, v, n. repeat split; auto. apply Z.ltb_lt. exact Hb. }
    assert (Hnot4 : ~ forall k v, In (k, v) parsed -> score v = lit "4").
    { intros Hall. destruct Hlow as (k & v & n & Hin & Hn & Hlt).
      rewrite (Hall k v Hin) in Hn. vm_compute in Hn. inversion Hn. lia. }
    assert (Hstop : forall s,
               ~ stops_with
                   (after_judge user_input (story, iteration) judge_feedback) s).
    { intros s H. rewrite A in H. unfold stops_with in H. cbn in H.
      discriminate. }
    split; [split|]; [| |split; [split|]; [| |split; [|split]]].
    + intros H. exfalso. eapply Hstop; eauto.
    + intros H. exfalso. auto.
    + intros _. exact Hlow.
    + intros _. eexists. rewrite A. apply asks_revision. reflexivity.
    + intros ->. exfalso. apply F. reflexivity.
    + intros e H. rewrite A in H. apply asks_revision in H. subst e.
      split; [reflexivity|]. rewrite A. apply revise_then_continue.
    + intros H. exfalso. eapply Hstop; eauto.
Qed.

(** C2. The empty text holds no record and parses to the empty
    CritiqueSet. Whenever the text of the judge holds no record, it parses
    to the empty CritiqueSet and the pass ends the loop with the story it
    was given, as it does when every entry has score 4: it makes no call,
    and the loop, which is the call to the judge followed by that pass,
    returns the story. *)
Theorem empty_feedback_converges (user_input story : str) (iteration : Z)
        (judge_feedback : str) :
  records judge_feedback = [] ->
  records [] = []
  /\ parse_judge_feedback [] = Ok []
  /\ parse_judge_feedback judge_feedback = Ok []
  /\ after_judge user_input (story, iteration) judge_feedback
     = Ret (inr (Ok story))
  /\ first_request (after_judge user_input (story, iteration) judge_feedback)
     = None
  /\ (r <- after_judge user_input (story, iteration) judge_feedback;;
      match r with
      | inl st' => ITree.iter (revision_step user_input) st'
      | inr res => Ret res
      end) ≈ Ret (Ok story)
  /\ ITree.iter (revision_step user_input) (story, iteration)
     ≈ (j <- ITree.trigger (JudgeStory story user_input 2000
                                       (QArith_base.Qmake 1 10));;
        r <- after_judge user_input (story, iteration) j;;
        match r with
        | inl st' => ITree.iter (revision_step user_input) st'
        | inr res => Ret res
        end).
Proof.
  intros Hrec.
  assert (E : parse_judge_feedback judge_feedback = Ok []).
  { rewrite parse_records, Hrec. reflexivity. }
  assert (A : after_judge user_input (story, iteration) judge_feedback
              = Ret (inr (Ok story))).
  { unfold after_judge. rewrite E. reflexivity. }
  split; [reflexivity|]. split; [reflexivity|]. split; [exact E|].
  split; [exact A|]. split; [rewrite A; reflexivity|].
  split.
  - rewrite A, bind_ret_l. reflexivity.
  - apply (loop_unfold user_input (story, iteration)).
Qed.

Lemma empty_feedback_converges_witness :
  after_judge (lit "a fox") (lit "The fox slept.", 1%Z)
              (lit "I could not rate this story.")
  = Ret (inr (Ok (lit "The fox slept."))).
Proof.
  apply (empty_feedback_converges (lit "a fox") (lit "The fox slept.") 1%Z
                                  (lit "I could not rate this story.")).
  vm_compute. reflexivity.
Defined.

(** C3. [parse_judge_feedback] returns a mapping for every text and raises
    nothing. An entry whose block has no inline reading and none of whose
    lines reads as a first line with a score leaves the mapping as it was.
    The mapping can be empty, as it is for the empty text. *)
Theorem parse_judge_feedback_total :
  (forall text, exists d, parse_judge_feedback text = Ok d)
  /\ (forall fb e,
        (forall cat d r,
            ~ inline_parts cat d r (str_replace LF SP (strip e))) ->
        (forall l cat d,
            In l (splitlines (strip e)) -> ~ header_parts cat d (strip l)) ->
        parse_entry fb e = Ok fb)
  /\ parse_judge_feedback [] = Ok [].
Proof.
  split; [|split].
  - intros text. apply parse_entries_ok.
  - apply parse_entry_unmatched.
  - reflexivity.
Qed.

Lemma parse_judge_feedback_total_witness :
  parse_entry [] (lit "Once there was a sleepy fox.") = Ok [].
Proof.
  apply (proj1 (proj2 parse_judge_feedback_total)).
  - intros cat d r P. apply inline_parts_match in P as [m E].
    vm_compute in E. discriminate.
  - intros l cat d Hin P. vm_compute in Hin. destruct Hin as [<-|[]].
    apply header_parts_match in P as [m E]. vm_compute in E. discriminate.
Defined.

(** C4, as stated, fails: the line that [story_editor] builds for an entry
    starts with a dash and a blank, which the wording of the claim does not
    have. *)
Lemma issue_line_not_as_worded :
  collect_issues []
    [(lit "tone", {| score := lit "2"; reasoning := lit "flat" |})]
  = Ok [lit "- tone: score 2 because flat"]
  /\ lit "- tone: score 2 because flat"
     <> worded_line (lit "tone") (lit "2") (lit "flat").
Proof. split; [vm_compute; reflexivity | vm_compute; discriminate]. Qed.

(** C4, amended. When some entry reads below 4, [story_editor] sends one
    request: its message holds the topic, the story and, one per line and
    in the order of the CritiqueSet, every entry that reads below 4 as
    [- <category>: score <n> because <reasoning>]; the answer, stripped, is
    what it returns. For a score that is a digit, [<n>] is that digit. *)
Theorem revision_request_built (prompt story : str) (feedback : dict)
        (max_tokens : Z) (temperature : QArith_base.Q) :
  forallb has_int feedback = true ->
  filter below4 feedback <> [] ->
  story_editor prompt story feedback max_tokens temperature
  = (resp <- ITree.trigger
               (ChatCompletion "gpt-3.5-turbo" editor_system
                  (editor_user_msg prompt story
                     (join [LF] (List.map issue_of (filter below4 feedback))))
                  max_tokens temperature);;
     Ret (Ok (strip resp)))
  /\ (forall e,
         In e feedback -> plain_score (score (snd e)) = true ->
         issue_of e
         = lit "- " ++ worded_line (fst e) (score (snd e)) (reasoning (snd e)))
  /\ (forall suggestions,
         editor_user_msg prompt story suggestions
         = lit "Original prompt:" ++ [LF] ++ prompt ++ [LF; LF]
           ++ lit "Original story:" ++ [LF] ++ story ++ [LF; LF]
           ++ lit "Critiques to address:" ++ [LF] ++ suggestions ++ [LF; LF]
           ++ lit "Please rewrite the entire story, incorporating improvements for each critique. Maintain a clear beginning, middle, and end. Do not start with 'Once upon a time.'").
Proof.
  intros Hi Hf. split; [|split].
  - apply story_editor_revises; auto.
  - intros [k v] _ Hs. cbn [fst snd] in *.
    destruct (plain_score_int v Hs) as (n & Hn & _ & _ & Hstr).
    unfold issue_of. cbn [fst snd]. rewrite Hn, Hstr. reflexivity.
  - intros suggestions. reflexivity.
Qed.

Lemma revision_request_built_witness :
  story_editor (lit "a fox") (lit "The fox slept.")
    [(lit "theme", {| score := lit "4"; reasoning := lit "Good fit." |});
     (lit "tone", {| score := lit "2"; reasoning := lit "flat" |});
     (lit "language", {| score := lit "3"; reasoning := lit "long words" |})]
    1200 (QArith_base.Qmake 7 10)
  = (resp <- ITree.trigger
               (ChatCompletion "gpt-3.5-turbo" editor_system
                  (editor_user_msg (lit "a fox") (lit "The fox slept.")
                     (lit "- tone: score 2 because flat" ++ [LF]
                      ++ lit "- language: score 3 because long words"))
                  1200 (QArith_base.Qmake 7 10));;
     Ret (Ok (strip resp))).
Proof.
  apply (revision_request_built (lit "a fox") (lit "The fox slept.")
    [(lit "theme", {| score := lit "4"; reasoning := lit "Good fit." |});
     (lit "tone", {| score := lit "2"; reasoning := lit "flat" |});
     (lit "language", {| score := lit "3"; reasoning := lit "long words" |})]
    1200 (QArith_base.Qmake 7 10)).
  - vm_compute. reflexivity.
  - vm_compute. discriminate.
Defined.

(** C5, as stated, fails: the block [x (5): see (3) above] carries the
    token 5, and yet it is recorded, under the category [x (5): see] with
    the score 3 found further on. *)
Lemma out_of_range_token_recorded :
  plain_score (lit "5") = false
  /\ parse_judge_feedback
       (lit "x" ++ lit " (" ++ lit "5" ++ lit "): " ++ lit "see (3) above")
     = Ok [(lit "x (5): see",
            {| score := lit "3"; reasoning := lit "above" |})]
  /\ parse_judge_feedback
       (lit "x" ++ lit " (" ++ lit "5" ++ lit "): " ++ lit "see (3) above")
     <> Ok [].
Proof.
  split; [reflexivity|]. split; [vm_compute; reflexivity|].
  vm_compute. discriminate.
Qed.

(** C5, amended. Every score of the CritiqueSet is one of the characters
    1, 2, 3, 4, read from the text and never a default. An entry is
    dropped when its block holds no digit from 1 to 4 in parentheses and
    none of its lines ends in a colon, blanks and a digit from 1 to 4; so
    are the blocks whose only score token is 0, 5 or [four]. *)
Theorem score_domain :
  (forall text d k v,
      parse_judge_feedback text = Ok d -> In (k, v) d ->
      exists c, score v = [c] /\ digit14 c = true)
  /\ (forall fb e,
        ~ has_inline_score (str_replace LF SP (strip e)) ->
        (forall l, In l (splitlines (strip e)) -> ~ has_header_score (strip l)) ->
        parse_entry fb e = Ok fb)
  /\ parse_judge_feedback (lit "x: 0") = Ok []
  /\ parse_judge_feedback (lit "x (5): r") = Ok []
  /\ parse_judge_feedback (lit "x: four") = Ok [].
Proof.
  split; [|split; [|repeat split; vm_compute; reflexivity]].
  - intros text d k v E Hin. apply plain_score_parts.
    eapply parsed_scores; eauto.
  - apply parse_entry_dropped.
Qed.

Lemma score_domain_witness :
  parse_entry [] (lit "language: four") = Ok []
  /\ exists c, lit "2" = [c] /\ digit14 c = true.
Proof.
  split.
  - apply (proj1 (proj2 score_domain)).
    + intros H. apply has_inline_score_paren in H. vm_compute in H.
      repeat (destruct H as [H|H]; [discriminate|]). exact H.
    + intros l Hin H. vm_compute in Hin. destruct Hin as [<-|[]].
      apply has_header_score_last in H. vm_compute in H. discriminate.
  - apply (proj1 score_domain (lit "language: 2")
             [(lit "language", {| score := lit "2"; reasoning := [] |})]
             (lit "language") {| score := lit "2"; reasoning := [] |}).
    + vm_compute. reflexivity.
    + left. reflexivity.
Defined.

(** C6. When a label is matched in several blocks, the CritiqueSet holds
    it once, at the place of its first occurrence and with the score and
    reasoning of its last occurrence: the keys are the labels of the
    records in the order of their first occurrence, without repetition, and
    the value under a key is that of the last record with this label. A
    label scored 2 and later 4 ends with score 4, before a label that came
    between the two. *)
Theorem duplicate_labels :
  (forall text,
      exists d,
        parse_judge_feedback text = Ok d
        /\ NoDup (keys d)
        /\ keys d = first_occurrences [] (List.map fst (records text))
        /\ forall k, dict_get k d = last_value k (records text))
  /\ parse_judge_feedback
       (lit "a: 2" ++ [LF; LF] ++ lit "b: 3" ++ [LF; LF] ++ lit "a: 4")
     = Ok [(lit "a", {| score := lit "4"; reasoning := [] |});
           (lit "b", {| score := lit "3"; reasoning := [] |})].
Proof.
  split; [|vm_compute; reflexivity].
  intros text. exists (fold_left assign (records text) []).
  split; [apply parse_records|]. split; [|split].
  - apply NoDup_keys_assign_all. constructor.
  - rewrite (keys_assign_all (records text) [] []); [reflexivity|].
    intros k. simpl. tauto.
  - intros k. rewrite dict_get_assign_all.
    destruct (last_value k (records text)); reflexivity.
Qed.

(** C7. When the block of an entry matches the inline pattern, the
    reasoning group runs to the end of the block, and so does the reasoning
    that is stored, whatever colons or dashes it holds; the category group
    is the shortest text after which the rest of the block reads as a
    score in parentheses followed by a reasoning. *)
Theorem inline_reasoning_to_end (fb : dict) (entry : str) (m : captures) :
  re_match inline_re (str_replace LF SP (strip entry)) = Some m ->
  exists cat d reason,
    m = [("reason"%string, reason); ("score"%string, [d]); ("cat"%string, cat)]
    /\ inline_parts cat d reason (str_replace LF SP (strip entry))
    /\ (forall cat' d' reason',
          inline_parts cat' d' reason' (str_replace LF SP (strip entry)) ->
          length cat <= length cat')
    /\ (exists before, str_replace LF SP (strip entry) = before ++ reason)
    /\ (exists before, str_replace LF SP (strip entry) = before ++ strip reason)
    /\ parse_entry fb entry
       = Ok (dict_set (strip cat)
                      {| score := [d]; reasoning := strip reason |} fb).
Proof.
  intros H. pose proof H as H0.
  apply inline_match_shortest in H0 as (cat & d & reason & -> & P & Hmin).
  exists cat, d, reason.
  assert (Hne : strip entry <> []).
  { intros E. rewrite E in H. discriminate. }
  destruct (@inline_parts_end _ _ _ _ P (@str_replace_no_LF _)) as (before & Eb).
  destruct (entry_block_end entry Hne) as (m0 & z & Em & Hz).
  assert (Hr : reason <> []) by (destruct P; assumption).
  repeat split; auto.
  - eauto.
  - eapply suffix_strip; eauto.
  - unfold parse_entry. destruct (strip entry) as [|c t] eqn:E; [congruence|].
    rewrite H. reflexivity.
Qed.

Lemma inline_reasoning_to_end_witness :
  parse_entry [] (lit "tone (2): flat: no rhythm - at all")
  = Ok [(lit "tone",
         {| score := lit "2"; reasoning := lit "flat: no rhythm - at all" |})].
Proof.
  destruct (inline_reasoning_to_end [] (lit "tone (2): flat: no rhythm - at all")
              [("reason"%string, lit "flat: no rhythm - at all");
               ("score"%string, lit "2"); ("cat"%string, lit "tone")])
    as (cat & d & reason & E & _ & _ & _ & _ & P).
  - vm_compute. reflexivity.
  - injection E as <- <- <-. exact P.
Defined.

(** C8, as stated, fails: an entry with empty reasoning, written in the
    inline shape, comes back with the colon of the separator as its
    reasoning. *)
Lemma inline_empty_reasoning_lost :
  parse_judge_feedback
    (write_all [(Inline, (lit "theme",
                          {| score := lit "4"; reasoning := [] |}))])
  <> Ok [(lit "theme", {| score := lit "4"; reasoning := [] |})].
Proof. vm_compute. discriminate. Qed.

(** C8, amended. A CritiqueSet whose labels are plain (not empty, on one
    line, no blank at either end, no opening parenthesis), whose scores are
    digits from 1 to 4 and whose reasonings are plain (on one line, no
    blank at either end; in the inline shape not empty, in the two-line
    shape without an opening parenthesis), written entry by entry in
    either shape with blank lines between the entries, is read back as it
    was: same keys in the same order, same scores, same reasonings. *)
Theorem round_trip (l : list (shape * (str * critique))) :
  forallb plain_entry l = true ->
  NoDup (List.map (fun x => fst (snd x)) l) ->
  parse_judge_feedback (write_all l) = Ok (List.map snd l).
Proof.
  intros H Hnd. unfold write_all.
  rewrite parse_blocks by (apply written_blocks_like; exact H).
  rewrite parse_entries_records, records_written by exact H.
  rewrite assign_all_fresh; [reflexivity|].
  simpl. rewrite List.map_map. exact Hnd.
Qed.

Lemma round_trip_witness :
  parse_judge_feedback
    (write_all
       [(TwoLine, (lit "theme", {| score := lit "4"; reasoning := lit "Good fit." |}));
        (Inline, (lit "language", {| score := lit "2"; reasoning := lit "Too complex." |}));
        (TwoLine, (lit "tone", {| score := lit "3"; reasoning := [] |}))])
  = Ok [(lit "theme", {| score := lit "4"; reasoning := lit "Good fit." |});
        (lit "language", {| score := lit "2"; reasoning := lit "Too complex." |});
        (lit "tone", {| score := lit "3"; reasoning := [] |})].
Proof.
  apply (round_trip
           [(TwoLine, (lit "theme", {| score := lit "4"; reasoning := lit "Good fit." |}));
            (Inline, (lit "language", {| score := lit "2"; reasoning := lit "Too complex." |}));
            (TwoLine, (lit "tone", {| score := lit "3"; reasoning := [] |}))]).
  - vm_compute. reflexivity.
  - repeat constructor; vm_compute; intuition discriminate.
Defined.

(** C9. On a feedback in which every score reads as an integer of 4 or
    more, [story_editor] returns the story it was given and makes no call;
    and whenever [story_editor] makes a call, some entry of the feedback
    reads below 4. *)
Theorem story_editor_frame (prompt story : str) (feedback : dict)
        (max_tokens : Z) (temperature : QArith_base.Q) :
  ((forall e, In e feedback ->
              exists n, py_int (score (snd e)) = Some n /\ (4 <= n)%Z) ->
   story_editor prompt story feedback max_tokens temperature = Ret (Ok story)
   /\ first_request (story_editor prompt story feedback max_tokens temperature)
      = None)
  /\ (forall e,
         asks (story_editor prompt story feedback max_tokens temperature) e ->
         exists entry, In entry feedback /\ below4 entry = true).
Proof.
  split.
  - intros H.
    assert (Hi : forallb has_int feedback = true).
    { apply forallb_forall. intros e Hin. destruct (H e Hin) as (n & Hn & _).
      unfold has_int. rewrite Hn. reflexivity. }
    assert (Hf : filter below4 feedback = []).
    { apply filter_nil_iff. intros e Hin. destruct (H e Hin) as (n & Hn & Hge).
      unfold below4. rewrite Hn. apply Z.ltb_ge. exact Hge. }
    rewrite (story_editor_unchanged prompt story feedback max_tokens
                                    temperature Hi Hf).
    split; reflexivity.
  - intros e H. unfold story_editor in H.
    destruct (collect_issues [] feedback) as [issues|x] eqn:C;
      [|discriminate].
    pose proof (collect_issues_ok feedback [] issues C) as Hi.
    rewrite (collect_issues_spec feedback [] Hi) in C. cbn [app] in C.
    destruct issues as [|i l]; [discriminate|].
    apply filter_not_nil. intros F. rewrite F in C. discriminate.
Qed.

Lemma story_editor_frame_witness :
  story_editor (lit "a fox") (lit "The fox slept.")
    [(lit "theme", {| score := lit "4"; reasoning := lit "Good fit." |});
     (lit "tone", {| score := lit "4"; reasoning := [] |})]
    1200 (QArith_base.Qmake 7 10)
  = Ret (Ok (lit "The fox slept.")).
Proof.
  apply (proj1 (story_editor_frame (lit "a fox") (lit "The fox slept.")
    [(lit "theme", {| score := lit "4"; reasoning := lit "Good fit." |});
     (lit "tone", {| score := lit "4"; reasoning := [] |})]
    1200 (QArith_base.Qmake 7 10))).
  intros e [<-|[<-|[]]]; exists 4%Z; split; try reflexivity; lia.
Defined.

(** C10, as stated, fails: the block [theme (4):] is recorded, with the
    colon as its reasoning. *)
Lemma colon_after_score_recorded :
  parse_judge_feedback (lit "theme (4):")
  = Ok [(lit "theme", {| score := lit "4"; reasoning := lit ":" |})]
  /\ parse_judge_feedback (lit "theme (4):") <> Ok [].
Proof. split; [vm_compute; reflexivity | vm_compute; discriminate]. Qed.

(** C10, amended. A block made of a plain label and a score from 1 to 4 in
    parentheses, with nothing behind the closing parenthesis, adds no
    entry: the inline pattern wants a reasoning of one character at least,
    and the first-line pattern wants the line to end in a digit. With a
    colon behind the parenthesis the block is recorded, the colon being its
    reasoning. *)
Theorem bare_score (fb : dict) (label : str) (d : char) :
  plain_label label = true -> digit14 d = true ->
  re_match inline_re (label ++ lit " (" ++ [d] ++ lit ")") = None
  /\ re_match header_re (label ++ lit " (" ++ [d] ++ lit ")") = None
  /\ parse_entry fb (label ++ lit " (" ++ [d] ++ lit ")") = Ok fb
  /\ parse_entry fb (label ++ lit " (" ++ [d] ++ lit "):")
     = Ok (dict_set label {| score := [d]; reasoning := lit ":" |} fb).
Proof.
  intros Hl Hd. split; [|split; [|split]].
  - apply lone_score_no_inline; auto.
    apply plain_label_parts in Hl as (x & t & _ & _ & _ & H). exact H.
  - apply lone_score_no_header; auto.
  - apply lone_score_dropped; auto.
  - apply colon_scored; auto.
Qed.

Lemma bare_score_witness :
  parse_entry [] (lit "theme" ++ lit " (" ++ [0x34%N] ++ lit ")") = Ok []
  /\ parse_entry [] (lit "theme" ++ lit " (" ++ [0x34%N] ++ lit "):")
     = Ok [(lit "theme", {| score := lit "4"; reasoning := lit ":" |})].
Proof.
  destruct (bare_score [] (lit "theme") 0x34%N) as (_ & _ & H1 & H2).
  - vm_compute. reflexivity.
  - vm_compute. reflexivity.
  - split; [exact H1 | exact H2].
Defined.

(** * Further properties of the code *)

(** ** Blocks and what separates them *)

(** A greedy star passes over [a] when a longer attempt succeeds. *)
Lemma star_greedy_prefix (R : Type) (p : char -> bool)
      (k : nat -> str -> option R) : forall (a s : str) pos x,
  forallb p a = true ->
  star_greedy p (pos + length a) s k = Some x ->
  star_greedy p pos (a ++ s) k = Some x.
Proof.
  induction a as [|c a IH]; intros s pos x Ha H.
  - simpl in *. rewrite Nat.add_0_r in H. exact H.
  - simpl in Ha. apply andb_true_iff in Ha as [Hc Ha].
    cbn [app]. apply star_greedy_step; [exact Hc|].
    apply IH; [exact Ha|].
    replace (S pos + length a) with (pos + length (c :: a)) by (simpl; lia).
    exact H.
Qed.

(** The separator between two blocks: a newline, blanks, a newline. *)
Lemma blank_match_sep (pos : nat) (ws : str) (x : char) (t : str) :
  forallb isspace ws = true -> isspace x = false ->
  match_len blank_re pos (LF :: ws ++ LF :: x :: t) = Some (S (S (length ws))).
Proof.
  intros Hws Hx. unfold match_len, blank_re. cbn [exec].
  change (is_char LF LF) with true. cbv iota.
  apply star_greedy_prefix; [exact Hws|].
  rewrite star_greedy_back.
  - change (is_char LF LF) with true. cbv iota. f_equal. lia.
  - reflexivity.
  - rewrite star_greedy_stop by exact Hx.
    unfold is_char. rewrite (not_space_not_LF _ Hx). reflexivity.
Qed.

(** [re.split] passes over the characters of the separator it found. *)
Lemma split_skip : forall (a s : str) (pos : nat) (cur : str),
  s <> [] ->
  split_from blank_re pos (length a) cur (a ++ s)
  = split_from blank_re (pos + length a) 0 cur s.
Proof.
  induction a as [|c a IH]; intros s pos cur Hs.
  - simpl. rewrite Nat.add_0_r. reflexivity.
  - cbn [app length split_from]. rewrite IH by exact Hs.
    f_equal. lia.
Qed.

Lemma split_blank_sep (pos : nat) (cur ws : str) (x : char) (t : str) :
  forallb isspace ws = true -> isspace x = false ->
  split_from blank_re pos 0 cur (LF :: ws ++ LF :: x :: t)
  = rev cur :: split_from blank_re (pos + S (S (length ws))) 0 [] (x :: t).
Proof.
  intros Hws Hx.
  remember (split_from blank_re (pos + S (S (length ws))) 0 [] (x :: t)) as rhs.
  cbn [split_from]. rewrite (blank_match_sep pos ws x t Hws Hx).
  pose proof (split_skip (ws ++ [LF]) (x :: t) (S pos) []) as E.
  rewrite length_app, <- app_assoc in E. cbn [length app] in E.
  rewrite Nat.add_1_r in E. rewrite E by discriminate.
  subst rhs. f_equal. f_equal. lia.
Qed.

Lemma laid_out_cons_cons (ws : str) (seps : list str) (b b2 : str)
      (bs : list str) :
  laid_out (ws :: seps) (b :: b2 :: bs)
  = b ++ [LF] ++ ws ++ [LF] ++ laid_out seps (b2 :: bs).
Proof. reflexivity. Qed.

Lemma laid_out_plain (bs : list str) : laid_out [] bs = join [LF; LF] bs.
Proof.
  induction bs as [|b [|b2 bs] IH]; try reflexivity.
  change (laid_out [] (b :: b2 :: bs))
    with (b ++ [LF; LF] ++ laid_out [] (b2 :: bs)).
  rewrite IH. reflexivity.
Qed.

Lemma laid_out_head (seps : list str) (bs : list str) (x : char) (t : str) :
  exists t', laid_out seps ((x :: t) :: bs) = x :: t'.
Proof. destruct bs, seps; cbn [laid_out app]; eauto. Qed.

Lemma laid_out_block_head (seps bs : list str) (b : str) :
  block_like b = true ->
  exists x t, laid_out seps (b :: bs) = x :: t /\ isspace x = false.
Proof.
  intros H. apply block_like_parts in H as (x & t & -> & Hx & _).
  destruct (laid_out_head seps bs x t) as (t' & E). eauto.
Qed.

(** [re.split] finds the blocks, whatever blanks the separators hold. *)
Lemma split_laid_out : forall (bs : list str) (seps : list str) (b : str)
                              (pos : nat) (cur : str),
  forallb (forallb isspace) seps = true ->
  forallb block_like (b :: bs) = true ->
  split_from blank_re pos 0 cur (laid_out seps (b :: bs))
  = (rev cur ++ b) :: bs.
Proof.
  induction bs as [|b2 bs IH]; intros seps b pos cur Hs H;
    cbn [forallb] in H; apply andb_true_iff in H as [Hb Hbs].
  - apply block_like_parts in Hb as (x & t & -> & _ & Hn).
    cbn [laid_out]. rewrite <- (app_nil_r (x :: t)) at 1.
    rewrite split_block by exact Hn. cbn [split_from].
    rewrite rev_app_distr, rev_involutive. reflexivity.
  - destruct seps as [|ws seps].
    + rewrite laid_out_plain. apply split_join.
      cbn [forallb]. rewrite Hb. exact Hbs.
    + cbn [forallb] in Hs. apply andb_true_iff in Hs as [Hws Hs].
      pose proof Hbs as Hbs'. cbn [forallb] in Hbs'.
      apply andb_true_iff in Hbs' as [Hb2 _].
      apply block_like_parts in Hb as (x & t & -> & _ & Hn).
      apply block_like_parts in Hb2 as (x2 & t2 & -> & Hx2 & _).
      rewrite laid_out_cons_cons, split_block by exact Hn.
      destruct (laid_out_head seps bs x2 t2) as (t' & E).
      match goal with |- context [laid_out ?s ?l] =>
        replace (laid_out s l) with (x2 :: t') by (symmetry; exact E) end.
      cbn [app]. rewrite split_blank_sep by assumption.
      rewrite <- E, IH by assumption.
      rewrite rev_app_distr, rev_involutive. reflexivity.
Qed.

Lemma rstrip_laid_out : forall (bs : list str) (seps : list str),
  bs <> [] -> forallb block_like bs = true ->
  rstrip (laid_out seps bs) = laid_out seps (map_last rstrip bs).
Proof.
  induction bs as [|b [|b2 bs] IH]; intros seps Hne H;
    [congruence|reflexivity|].
  cbn [forallb] in H. apply andb_true_iff in H as [Hb H].
  change (map_last rstrip (b :: b2 :: bs))
    with (b :: map_last rstrip (b2 :: bs)).
  assert (E : exists y l, map_last rstrip (b2 :: bs) = y :: l).
  { destruct bs; cbn [map_last]; eauto. }
  destruct E as (y & l & E).
  assert (Hr : forall seps', rstrip (laid_out seps' (b2 :: bs)) <> []).
  { intros seps'. pose proof H as H'. cbn [forallb] in H'.
    apply andb_true_iff in H' as [Hb2 _].
    destruct (laid_out_block_head seps' bs b2 Hb2) as (x & t & -> & Hx).
    destruct (rstrip_head x t Hx) as (t'' & ->). discriminate. }
  destruct seps as [|ws seps].
  - rewrite E. change (laid_out [] (b :: y :: l))
      with (b ++ [LF; LF] ++ laid_out [] (y :: l)).
    rewrite <- E.
    change (laid_out [] (b :: b2 :: bs))
      with (b ++ [LF; LF] ++ laid_out [] (b2 :: bs)).
    rewrite app_assoc, rstrip_app_r, <- app_assoc by apply Hr.
    rewrite IH; auto. discriminate.
  - rewrite E, !laid_out_cons_cons, <- E.
    rewrite !app_assoc, rstrip_app_r by apply Hr.
    rewrite IH; auto. discriminate.
Qed.

Lemma strip_laid_out (seps bs : list str) :
  bs <> [] -> forallb block_like bs = true ->
  strip (laid_out seps bs) = laid_out seps (map_last rstrip bs).
Proof.
  intros Hne H. unfold strip.
  destruct bs as [|b bs]; [congruence|].
  pose proof H as H'. cbn [forallb] in H'. apply andb_true_iff in H' as [Hb _].
  destruct (laid_out_block_head seps bs b Hb) as (x & t & E & Hx).
  rewrite E, lstrip_keep, <- E by exact Hx.
  apply rstrip_laid_out; auto.
Qed.

(** The text of blocks is read block by block, whatever the layout. *)
Lemma parse_laid_out (seps bs : list str) :
  forallb (forallb isspace) seps = true ->
  forallb block_like bs = true ->
  parse_judge_feedback (laid_out seps bs) = parse_entries [] bs.
Proof.
  intros Hs H. unfold parse_judge_feedback. destruct bs as [|b bs].
  - reflexivity.
  - rewrite strip_laid_out by (auto; discriminate).
    pose proof (map_last_block_like _ H) as H'.
    destruct (map_last rstrip (b :: bs)) as [|y l] eqn:E.
    { destruct bs; discriminate. }
    unfold re_split. rewrite split_laid_out by assumption.
    transitivity (parse_entries [] (map_last rstrip (b :: bs)));
      [rewrite E; reflexivity | apply parse_entries_map_last].
Qed.

(** ** The shape of what the parser stores *)

Lemma dot_no_LF (s : str) : forallb dot s = true -> ~ In LF s.
Proof.
  rewrite forallb_forall. intros H Hin. specialize (H _ Hin). discriminate.
Qed.

Lemma strip_no_LF (s : str) : ~ In LF s -> ~ In LF (strip s).
Proof.
  intros H Hin. apply H. destruct (strip_split s) as (w1 & w2 & E & _).
  rewrite E. rewrite !in_app_iff. auto.
Qed.

(** A group that starts where a text without a leading blank starts is not
    blank. *)
Lemma strip_prefix_nonempty (g rest s : str) (c : char) (t : str) :
  s = g ++ rest -> s = c :: t -> isspace c = false -> g <> [] ->
  strip g <> [].
Proof.
  intros E1 E2 Hc Hg. destruct g as [|x g]; [congruence|].
  rewrite E2 in E1. cbn [app] in E1. inversion E1; subst.
  apply strip_cons_nonempty. exact Hc.
Qed.

Lemma scan_reason_shape : forall (ls : list str) (r : str),
  scan_reason ls = Ok r -> stripped r = true /\ ~ In LF r.
Proof.
  induction ls as [|l ls IH]; intros r H; cbn [scan_reason] in H.
  - inversion H; subst. split; [reflexivity | intros []].
  - destruct (re_match reason_re l) as [jm|] eqn:M; [|auto].
    apply reason_match_inv in M as (g & -> & _ & Hg).
    unfold group_strip in H. cbn [group String.eqb Ascii.eqb Bool.eqb] in H.
    inversion H; subst. split; [apply strip_stripped|].
    apply strip_no_LF, dot_no_LF, Hg.
Qed.

Lemma lines_stripped (entry l : str) :
  In l (List.map strip
          (filter (fun l => negb (str_eqb (strip l) [])) (splitlines entry))) ->
  exists c t, l = c :: t /\ isspace c = false.
Proof.
  rewrite in_map_iff. intros (l0 & <- & Hin).
  apply filter_In in Hin as [_ Hne]. apply negb_true_iff in Hne.
  apply str_eqb_neq in Hne.
  destruct (strip l0) as [|c t] eqn:E; [congruence|].
  exists c, t. split; [reflexivity|]. eapply strip_head; eauto.
Qed.

Lemma replace_head (c : char) (t : str) :
  isspace c = false ->
  str_replace LF SP (c :: t) = c :: str_replace LF SP t.
Proof.
  intros H. unfold str_replace. cbn [List.map].
  rewrite (not_space_not_LF _ H). reflexivity.
Qed.

(** The key of a record is not empty; neither the key nor the reasoning
    starts or ends with a blank or holds a newline. *)
Lemma entry_record_shape (e k : str) (v : critique) :
  entry_record e = Some (k, v) ->
  k <> [] /\ stripped k = true /\ ~ In LF k
  /\ stripped (reasoning v) = true /\ ~ In LF (reasoning v).
Proof.
  unfold entry_record, parse_entry.
  destruct (strip e) as [|c t] eqn:E; [discriminate|].
  assert (Hc : isspace c = false) by (eapply strip_head; eauto).
  destruct (re_match inline_re _) eqn:M1.
  - apply inline_match_inv in M1 as (cat & d & reason & -> & P).
    unfold group_strip, group_val.
    cbn [group String.eqb Ascii.eqb Bool.eqb rbind dict_set].
    intros H. inversion H; subst; clear H. cbn [reasoning].
    rewrite replace_head in P by exact Hc.
    inversion P as [w1 w2 w3 w4 sp w5 tl Hcat Hdc _ _ _ _ _ _ _ _ Hdr _ Eb].
    split; [|split; [|split; [|split]]].
    + eapply strip_prefix_nonempty; eauto.
    + apply strip_stripped.
    + apply strip_no_LF, dot_no_LF, Hdc.
    + apply strip_stripped.
    + apply strip_no_LF, dot_no_LF, Hdr.
  - destruct (@lines_nonempty c t Hc) as (l & ls & El).
    pose proof (lines_stripped (c :: t) l) as Hl.
    rewrite El in *. specialize (Hl (or_introl eq_refl)).
    destruct Hl as (x & t' & -> & Hx).
    cbn [first_item rbind tl].
    destruct (re_match header_re (x :: t')) eqn:M2; [|discriminate].
    apply header_match_inv in M2 as (cat & d & -> & P).
    unfold group_strip, group_val.
    cbn [group String.eqb Ascii.eqb Bool.eqb rbind].
    destruct (scan_reason ls) as [r|] eqn:S; [|discriminate].
    cbn [rbind dict_set]. intros H. inversion H; subst; clear H.
    cbn [reasoning].
    apply scan_reason_shape in S as [S1 S2].
    inversion P as [w1 w2 tl Hcat Hdc _ _ _ _ Eb].
    split; [|split; [|split; [|split]]]; auto.
    + eapply strip_prefix_nonempty; eauto.
    + apply strip_stripped.
    + apply strip_no_LF, dot_no_LF, Hdc.
Qed.

(** What holds of every record holds of every entry of the CritiqueSet. *)
Lemma dict_set_all (P : str * critique -> Prop) (k : str) (v : critique) :
  forall d : dict, Forall P d -> P (k, v) -> Forall P (dict_set k v d).
Proof.
  induction d as [|[k' v'] d IH]; intros Hd Hkv; cbn [dict_set].
  - constructor; auto.
  - inversion Hd; subst. destruct (str_eqb k' k) eqn:E.
    + apply str_eqb_eq in E. subst. constructor; auto.
    + constructor; auto.
Qed.

Lemma assign_all_all (P : str * critique -> Prop) :
  forall (recs : list (str * critique)) (d : dict),
    Forall P d -> Forall P recs -> Forall P (fold_left assign recs d).
Proof.
  induction recs as [|[k v] recs IH]; intros d Hd Hr; cbn [fold_left]; auto.
  inversion Hr; subst. apply IH; auto.
  unfold assign. cbn [fst snd]. apply dict_set_all; auto.
Qed.

Lemma records_of_all (P : str * critique -> Prop) :
  (forall e k v, entry_record e = Some (k, v) -> P (k, v)) ->
  forall es, Forall P (records_of es).
Proof.
  intros H. induction es as [|e es IH]; cbn [records_of]; auto.
  destruct (entry_record e) as [[k v]|] eqn:E; auto.
  constructor; eauto.
Qed.

Lemma parsed_all (P : str * critique -> Prop) (text : str) (d : dict) :
  (forall e k v, entry_record e = Some (k, v) -> P (k, v)) ->
  parse_judge_feedback text = Ok d -> Forall P d.
Proof.
  intros H E. rewrite parse_records in E. inversion E; subst.
  apply assign_all_all; [constructor|]. apply records_of_all. exact H.
Qed.

(** ** Lines of a text *)

Lemma str_split_from_plain (sep : char) :
  forall (a cur rest : str),
    ~ In sep a ->
    str_split_from sep cur (a ++ rest) = str_split_from sep (rev a ++ cur) rest.
Proof.
  induction a as [|c a IH]; intros cur rest H; [reflexivity|].
  cbn [app str_split_from rev].
  destruct (N.eqb c sep) eqn:E.
  - apply N.eqb_eq in E. subst. exfalso. apply H. left. reflexivity.
  - rewrite IH, <- app_assoc; [reflexivity|].
    intros Hin. apply H. right. exact Hin.
Qed.

Lemma str_split_one (sep : char) (a : str) :
  ~ In sep a -> str_split sep a = [a].
Proof.
  intros H. unfold str_split. rewrite <- (app_nil_r a) at 1.
  rewrite str_split_from_plain by exact H. cbn [str_split_from].
  rewrite app_nil_r, rev_involutive. reflexivity.
Qed.

Lemma str_split_cons (sep : char) (a rest : str) :
  ~ In sep a ->
  str_split sep (a ++ sep :: rest) = a :: str_split sep rest.
Proof.
  intros H. unfold str_split. rewrite str_split_from_plain by exact H.
  cbn [str_split_from]. rewrite N.eqb_refl, app_nil_r, rev_involutive.
  reflexivity.
Qed.

(** [sep.join(ls).split(sep)] gives [ls] back when no piece holds [sep]. *)
Lemma str_split_join (sep : char) : forall ls : list str,
  ls <> [] -> Forall (fun l => ~ In sep l) ls ->
  str_split sep (join [sep] ls) = ls.
Proof.
  induction ls as [|l [|l2 ls] IH]; intros Hne H; [congruence| |].
  - inversion H; subst. apply str_split_one. assumption.
  - inversion H; subst.
    change (join [sep] (l :: l2 :: ls))
      with (l ++ sep :: join [sep] (l2 :: ls)).
    rewrite str_split_cons by assumption. f_equal. apply IH; auto.
    discriminate.
Qed.

(** The line [story_editor] writes for a parsed entry holds no newline. *)
Lemma issue_of_no_LF (k : str) (v : critique) :
  plain_score (score v) = true -> ~ In LF k -> ~ In LF (reasoning v) ->
  ~ In LF (issue_of (k, v)).
Proof.
  intros Hs Hk Hr.
  destruct (plain_score_int v Hs) as (n & Hn & _ & _ & Hstr).
  apply plain_score_parts in Hs as (d & Ed & Hd).
  unfold issue_of, worded_line. cbn [fst snd]. rewrite Hn, Hstr, Ed.
  rewrite !in_app_iff. intros [H|[H|[H|[H|[H|H]]]]]; auto.
  - vm_compute in H. intuition discriminate.
  - vm_compute in H. intuition discriminate.
  - destruct H as [H|[]]. subst d. discriminate.
  - vm_compute in H. intuition discriminate.
Qed.

Lemma parsed_no_LF (text : str) (d : dict) :
  parse_judge_feedback text = Ok d ->
  Forall (fun kv => ~ In LF (fst kv) /\ ~ In LF (reasoning (snd kv))) d.
Proof.
  apply parsed_all. intros e k v H.
  apply entry_record_shape in H as (_ & _ & Hk & _ & Hr). auto.
Qed.

(** ** The lines of a two-line entry *)

Lemma same_letters_ci : forall (kw w : str),
  str_eqb (List.map ascii_lower kw) (List.map ascii_lower w) = true ->
  length kw = length w
  /\ forallb (fun xy => ci_char (fst xy) (snd xy)) (combine w kw) = true.
Proof.
  induction kw as [|x kw IH]; intros [|y w] H; try discriminate.
  - split; reflexivity.
  - cbn [List.map str_eqb] in H. apply andb_true_iff in H as [Hx H].
    destruct (IH w H) as [L F]. split; [simpl; congruence|].
    cbn [combine forallb fst snd]. rewrite F, andb_true_r.
    unfold ci_char. rewrite Hx. reflexivity.
Qed.

Lemma same_letters_head (w : string) (kw : str) (y : char) (l : str) :
  same_letters w kw = true -> lit w = y :: l ->
  exists x t, kw = x :: t /\ ascii_lower x = ascii_lower y.
Proof.
  unfold same_letters. intros H E. rewrite E in H.
  destruct kw as [|x t]; [discriminate|].
  cbn [List.map str_eqb] in H. apply andb_true_iff in H as [Hx _].
  apply N.eqb_eq in Hx. eauto.
Qed.

(** Either keyword is passed over, in any case of its letters. *)
Lemma keyword_run (R : Type) (kw s : str) pos c
      (k : nat -> str -> captures -> option R) :
  reason_keyword kw = true ->
  exec (Alt (word ci_char "Justification") (word ci_char "Reasoning"))
       pos (kw ++ s) c k
  = k (pos + length kw) s c.
Proof.
  unfold reason_keyword. intros H. apply orb_true_iff in H as [H|H].
  - destruct (same_letters_ci kw _ H) as [L F].
    cbn [exec]. rewrite (word_run R ci_char "Justification" kw s pos c k L F).
    destruct (k (pos + length kw) s c) eqn:K; [reflexivity|].
    destruct (same_letters_head _ _ _ _ H eq_refl) as (x & t & -> & Hx).
    cbn [app]. eapply word_stop; [reflexivity|].
    unfold ci_char. rewrite Hx. reflexivity.
  - destruct (same_letters_ci kw _ H) as [L F].
    cbn [exec].
    assert (E : exec (word ci_char "Justification") pos (kw ++ s) c k = None).
    { destruct (same_letters_head _ _ _ _ H eq_refl) as (x & t & -> & Hx).
      cbn [app]. eapply word_stop; [reflexivity|].
      unfold ci_char. rewrite Hx. reflexivity. }
    rewrite E. apply word_run; assumption.
Qed.

(** A line made of a keyword, a colon, blanks and a text is a reasoning
    line, and the text is its reasoning. *)
Lemma reason_line_match (kw ws : str) (c : char) (t : str) :
  reason_keyword kw = true -> forallb isspace ws = true ->
  isspace c = false -> forallb dot (c :: t) = true ->
  re_match reason_re (kw ++ lit ":" ++ ws ++ c :: t)
  = Some [("1"%string, c :: t)].
Proof.
  intros Hkw Hws Hc Hdot. pose proof Hdot as Hdot'.
  simpl in Hdot. apply andb_true_iff in Hdot as [Hd Hdot].
  unfold re_match, reason_re.
  rewrite exec_seq, exec_bol, exec_seq, keyword_run by exact Hkw.
  cbn [exec app lit List.map list_ascii_of_string].
  change (ci_char (N_of_ascii ":") (N_of_ascii ":")) with true. cbv iota.
  erewrite star_greedy_all; [reflexivity | exact Hws | exact Hc |].
  apply (@reason_group_run "1" c t); auto.
Qed.

(** Lines the pattern does not match are passed over. *)
Lemma scan_reason_skip : forall (pre rest : list str),
  (forall l, In l pre -> re_match reason_re l = None) ->
  scan_reason (pre ++ rest) = scan_reason rest.
Proof.
  induction pre as [|l pre IH]; intros rest H; [reflexivity|].
  cbn [app scan_reason]. rewrite (H l (or_introl eq_refl)).
  apply IH. intros l' Hin. apply H. right. exact Hin.
Qed.

Lemma splitlines_join : forall ls : list str,
  Forall (fun l => l <> []
                   /\ forallb (fun c => negb (islinebreak c)) l = true) ls ->
  splitlines (join [LF] ls) = ls.
Proof.
  induction ls as [|l [|l2 ls] IH]; intros H; [reflexivity| |].
  - inversion H as [|? ? [Hne Hnb] _]; subst. cbn [join].
    unfold splitlines. rewrite <- (app_nil_r l) at 1.
    rewrite splitlines_from_plain by exact Hnb.
    rewrite app_nil_r. cbn [splitlines_from].
    destruct (rev l) eqn:E.
    + apply (f_equal (@rev char)) in E. rewrite rev_involutive in E.
      simpl in E. congruence.
    + rewrite <- E, rev_involutive. reflexivity.
  - inversion H as [|? ? [Hne Hnb] Hrest]; subst.
    change (join [LF] (l :: l2 :: ls)) with (l ++ LF :: join [LF] (l2 :: ls)).
    unfold splitlines. rewrite splitlines_from_plain by exact Hnb.
    rewrite app_nil_r. cbn [splitlines_from].
    change (islinebreak LF) with true. cbv iota.
    change (N.eqb LF CR) with false. cbv iota.
    rewrite rev_involutive. f_equal. apply IH. exact Hrest.
Qed.

Lemma lines_kept : forall ls : list str,
  Forall (fun l => l <> [] /\ stripped l = true) ls ->
  List.map strip (filter (fun l => negb (str_eqb (strip l) [])) ls) = ls.
Proof.
  induction ls as [|l ls IH]; intros H; [reflexivity|].
  inversion H as [|? ? [Hne Hs] Hrest]; subst.
  cbn [filter]. rewrite (strip_id _ Hs).
  destruct l as [|x t]; [congruence|].
  rewrite str_eqb_nil_cons. cbn [negb List.map].
  rewrite (strip_id _ Hs), IH by exact Hrest. reflexivity.
Qed.

Lemma plain_line_parts (l : str) :
  plain_label l = true ->
  exists x t m z, l = x :: t /\ l = m ++ [z] /\ isspace x = false
                  /\ isspace z = false.
Proof.
  intros H. apply plain_label_parts in H as (x & t & -> & Hs & _ & _).
  destruct (@stripped_nonempty_last (x :: t)) as (m & z & E & Hz);
    [discriminate | exact Hs |].
  exists x, t, m, z. repeat split; auto. eapply stripped_head; eauto.
Qed.

(** Lines that are plain, joined by newlines, make a text without a blank
    at either end. *)
Lemma join_lines_ends : forall (ls : list str) (l : str),
  forallb plain_label (l :: ls) = true ->
  exists x t m z, join [LF] (l :: ls) = x :: t
                  /\ join [LF] (l :: ls) = m ++ [z]
                  /\ isspace x = false /\ isspace z = false.
Proof.
  induction ls as [|l2 ls IH]; intros l H; cbn [forallb] in H;
    apply andb_true_iff in H as [Hl H].
  - cbn [join]. apply plain_line_parts. exact Hl.
  - destruct (IH l2 H) as (x2 & t2 & m2 & z2 & _ & E2 & _ & Hz2).
    destruct (plain_line_parts l Hl) as (x & t & _ & _ & -> & _ & Hx & _).
    change (join [LF] ((x :: t) :: l2 :: ls))
      with ((x :: t) ++ LF :: join [LF] (l2 :: ls)).
    rewrite E2. exists x, (t ++ LF :: m2 ++ [z2]), ((x :: t) ++ LF :: m2), z2.
    repeat split; auto. rewrite <- app_assoc. reflexivity.
Qed.

Lemma join_lines_no_paren : forall ls : list str,
  forallb plain_label ls = true ->
  forallb (fun c => negb (N.eqb c open_paren)) (join [LF] ls) = true.
Proof.
  induction ls as [|l [|l2 ls] IH]; intros H; [reflexivity| |];
    cbn [forallb] in H; apply andb_true_iff in H as [Hl H].
  - cbn [join]. apply plain_label_parts in Hl as (x & t & _ & _ & _ & Hp).
    exact Hp.
  - change (join [LF] (l :: l2 :: ls)) with (l ++ LF :: join [LF] (l2 :: ls)).
    apply plain_label_parts in Hl as (x & t & _ & _ & _ & Hp).
    rewrite forallb_app. apply andb_true_iff. split; [exact Hp|].
    cbn [forallb]. apply andb_true_iff. split; [reflexivity|].
    apply IH. exact H.
Qed.

Lemma header_line_plain (cat : str) (d : char) :
  plain_label cat = true -> digit14 d = true ->
  plain_label (cat ++ lit ": " ++ [d]) = true.
Proof.
  intros Hcat Hd.
  apply plain_label_parts in Hcat as (x & t & -> & Hs & Hnb & Hnp).
  unfold plain_label. rewrite !andb_true_iff. split; [split|].
  - reflexivity.
  - cbn [app]. apply (@stripped_intro x d _ (x :: t ++ lit ": ")).
    + eapply stripped_head; eauto.
    + apply digit_not_space; auto.
    + norm_app. reflexivity.
  - rewrite forallb_forall in *. intros c Hc.
    apply in_app_or in Hc as [Hc|Hc].
    + rewrite (Hnb c Hc), (Hnp c Hc). reflexivity.
    + apply in_app_or in Hc as [Hc|[Hc|[]]].
      * destruct Hc as [<-|[<-|[]]]; reflexivity.
      * subst c. rewrite (digit_not_break _ Hd).
        destruct (digit_cases _ Hd) as [->|[->|[->| ->]]]; reflexivity.
Qed.

(** An entry of plain lines has no inline reading: its first line and the
    scan of the lines under it decide. *)
Lemma parse_plain_lines (fb : dict) (line1 : str) (lines : list str) :
  forallb plain_label (line1 :: lines) = true ->
  parse_entry fb (join [LF] (line1 :: lines))
  = match re_match header_re line1 with
    | Some m2 =>
        do cat <- group_strip m2 "cat";
        do score <- group_val m2 "score";
        do reason <- scan_reason lines;
        Ok (dict_set cat {| score := score; reasoning := reason |} fb)
    | None => Ok fb
    end.
Proof.
  intros Hall.
  destruct (join_lines_ends lines line1 Hall)
    as (x & t & m & z & Ext & Emz & Hx & Hz).
  assert (Hse : stripped (join [LF] (line1 :: lines)) = true).
  { rewrite Ext. apply (@stripped_intro x z t m); auto. congruence. }
  unfold parse_entry. rewrite (strip_id _ Hse).
  rewrite inline_needs_paren.
  2:{ unfold str_replace. rewrite forallb_forall. intros c Hc.
      apply in_map_iff in Hc as (c0 & <- & Hc0).
      destruct (N.eqb c0 LF) eqn:E0; [reflexivity|].
      pose proof (join_lines_no_paren _ Hall) as Hp.
      rewrite forallb_forall in Hp. apply Hp. exact Hc0. }
  rewrite splitlines_join.
  2:{ apply Forall_forall. intros l Hl.
      rewrite forallb_forall in Hall. specialize (Hall l Hl).
      apply plain_label_parts in Hall as (y & u & -> & _ & Hnb & _).
      split; [discriminate | exact Hnb]. }
  rewrite lines_kept.
  2:{ apply Forall_forall. intros l Hl.
      rewrite forallb_forall in Hall. specialize (Hall l Hl).
      apply plain_label_parts in Hall as (y & u & -> & Hs & _ & _).
      split; [discriminate | exact Hs]. }
  rewrite Ext at 1. reflexivity.
Qed.

(** An entry made of a first line with the score and of plain lines under
    it: the reasoning is what the scan of those lines finds. *)
Lemma parse_header_lines (fb : dict) (cat : str) (d : char)
      (lines : list str) (reason : str) :
  plain_label cat = true -> digit14 d = true ->
  forallb plain_label lines = true ->
  scan_reason lines = Ok reason ->
  parse_entry fb (join [LF] ((cat ++ lit ": " ++ [d]) :: lines))
  = Ok (dict_set cat {| score := [d]; reasoning := reason |} fb).
Proof.
  intros Hcat Hd Hlines Hscan.
  rewrite parse_plain_lines.
  2:{ cbn [forallb]. rewrite (header_line_plain cat d Hcat Hd), Hlines.
      reflexivity. }
  pose proof Hcat as Hc2.
  apply plain_label_parts in Hc2 as (y & u & Ecat & Hs & Hnb & _).
  rewrite header_run; auto.
  - unfold group_strip, group_val.
    cbn [group String.eqb Ascii.eqb Bool.eqb rbind].
    rewrite Hscan. cbn [rbind]. rewrite (strip_id _ Hs). reflexivity.
  - subst cat. discriminate.
  - apply no_break_dot. exact Hnb.
Qed.

(** The line that carries the reasoning is a plain line. *)
Lemma reason_line_plain (kw ws r : str) :
  reason_keyword kw = true -> forallb inline_blank ws = true ->
  plain_label r = true ->
  plain_label (kw ++ lit ":" ++ ws ++ r) = true.
Proof.
  intros Hkw Hws Hr.
  destruct (plain_line_parts r Hr) as (x & t & m & z & _ & Ez & _ & Hz).
  apply plain_label_parts in Hr as (x' & t' & _ & _ & Hnb & Hnp).
  assert (Hletters : forall c, In c kw ->
            isspace c = false /\ islinebreak c = false
            /\ N.eqb c open_paren = false).
  { unfold reason_keyword, same_letters in Hkw.
    assert (G : forall w : str,
               forallb (fun c => (0x61 <=? c)%N && (c <=? 0x7a)%N) w = true ->
               forall kw', str_eqb (List.map ascii_lower kw') w = true ->
               forall c, In c kw' ->
                 isspace c = false /\ islinebreak c = false
                 /\ N.eqb c open_paren = false).
    { clear. induction w as [|y w IH]; intros Hw [|x kw'] H c Hc;
        try discriminate; [destruct Hc|].
      cbn [forallb] in Hw. apply andb_true_iff in Hw as [Hy Hw].
      cbn [List.map str_eqb] in H. apply andb_true_iff in H as [Hx H].
      destruct Hc as [<-|Hc]; [|eapply IH; eauto].
      apply N.eqb_eq in Hx. subst y. unfold ascii_lower in Hy.
      apply andb_true_iff in Hy as [Y1 Y2].
      unfold isspace, islinebreak, open_paren.
      destruct ((65 <=? x)%N && (x <=? 90)%N) eqn:U.
      - apply andb_true_iff in U as [U1 U2]. apply N.leb_le in U1, U2.
        repeat rewrite orb_false_iff. repeat rewrite andb_false_iff.
        repeat rewrite N.leb_gt. repeat rewrite N.eqb_neq.
        change (N_of_ascii "(") with 40%N. repeat split; lia.
      - apply N.leb_le in Y1, Y2.
        repeat rewrite orb_false_iff. repeat rewrite andb_false_iff.
        repeat rewrite N.leb_gt. repeat rewrite N.eqb_neq.
        change (N_of_ascii "(") with 40%N. repeat split; lia. }
    apply orb_true_iff in Hkw as [H|H]; eapply G; eauto; reflexivity. }
  assert (Hk : exists y u, kw = y :: u).
  { unfold reason_keyword in Hkw. apply orb_true_iff in Hkw as [H|H];
      destruct (same_letters_head _ _ _ _ H eq_refl) as (y & u & -> & _); eauto. }
  destruct Hk as (y & u & ->).
  unfold plain_label. rewrite !andb_true_iff. split; [split|].
  - reflexivity.
  - cbn [app]. apply (@stripped_intro y z _ (y :: u ++ lit ":" ++ ws ++ m)).
    + apply Hletters. left. reflexivity.
    + exact Hz.
    + rewrite Ez. norm_app. reflexivity.
  - rewrite forallb_forall in *. intros c Hc.
    apply in_app_or in Hc as [Hc|Hc].
    + destruct (Hletters c Hc) as (_ & -> & ->). reflexivity.
    + apply in_app_or in Hc as [Hc|Hc].
      * destruct Hc as [<-|[]]. reflexivity.
      * apply in_app_or in Hc as [Hc|Hc].
        -- specialize (Hws c Hc). unfold inline_blank in Hws.
           apply andb_true_iff in Hws as [Hsp Hlb]. rewrite Hlb.
           destruct (N.eqb c open_paren) eqn:E; [|reflexivity].
           apply N.eqb_eq in E. subst c. discriminate.
        -- rewrite (Hnb c Hc), (Hnp c Hc). reflexivity.
Qed.

(** ** [story_editor] on a score that is not an integer *)

Lemma collect_issues_raises : forall (items : dict) (issues : list str)
                                     (e : str * critique),
  In e items -> py_int (score (snd e)) = None ->
  collect_issues issues items = Raise ValueError.
Proof.
  induction items as [|[cat info] items IH]; intros issues e Hin He;
    [destruct Hin|].
  cbn [collect_issues]. unfold int_of.
  destruct (py_int (score info)) as [n|] eqn:Hn; [|reflexivity].
  cbn [rbind]. destruct Hin as [<-|Hin].
  - cbn [snd] in He. congruence.
  - destruct (n <? 4)%Z; eapply IH; eauto.
Qed.

(** ** What a pass of the revision loop can return *)

Lemma revision_pass (user_input story : str) (iteration : Z) (j : str) :
  exists parsed,
    parse_judge_feedback j = Ok parsed
    /\ ((filter below4 parsed = []
         /\ after_judge user_input (story, iteration) j = Ret (inr (Ok story)))
        \/ (filter below4 parsed <> []
            /\ after_judge user_input (story, iteration) j
               ≈ (resp <- ITree.trigger
                            (revision_request user_input story parsed 1200
                                              (QArith_base.Qmake 7 10));;
                  Ret (inl (strip resp, (iteration + 1)%Z))))).
Proof.
  destruct (after_judge_cases user_input story iteration j)
    as (parsed & E & [[F A]|[F A]]); exists parsed; (split; [exact E|]).
  - left. auto.
  - right. split; [exact F|]. rewrite A. apply revise_then_continue.
Qed.

Lemma revision_step_leaf (user_input story : str) (iteration : Z)
      (r : (str * Z) + result str) :
  Leaf r (revision_step user_input (story, iteration)) ->
  r = inr (Ok story) \/ exists resp, r = inl (strip resp, (iteration + 1)%Z).
Proof.
  unfold revision_step. intros H.
  apply Leaf_bind_inv in H as (j & _ & H). cbn [fst] in H.
  destruct (revision_pass user_input story iteration j)
    as (parsed & _ & [[_ A]|[_ A]]).
  - rewrite A in H. apply Leaf_Ret_inv in H. left. congruence.
  - rewrite A in H. apply Leaf_bind_inv in H as (resp & _ & H).
    apply Leaf_Ret_inv in H. right. exists resp. congruence.
Qed.

(** ** The loop against collaborators that answer by a function *)

Lemma answered_step (o : forall T, llmE T -> T) (user_input story : str)
      (iteration : Z) :
  interp (answer o) (revision_step user_input (story, iteration))
  ≈ Ret (match next_story o user_input story with
         | None => inr (Ok story)
         | Some story' => inl (story', (iteration + 1)%Z)
         end).
Proof.
  unfold revision_step. rewrite interp_bind, interp_trigger.
  unfold answer at 1. rewrite bind_ret_l. cbn [fst].
  unfold next_story.
  destruct (revision_pass user_input story iteration
              (o _ (JudgeStory story user_input 2000 (QArith_base.Qmake 1 10))))
    as (parsed & E & [[F A]|[F A]]); rewrite E.
  - rewrite A, F, interp_ret. reflexivity.
  - rewrite A, interp_bind, interp_trigger. unfold answer at 1.
    rewrite bind_ret_l, interp_ret.
    destruct (filter below4 parsed); [congruence|reflexivity].
Qed.

Lemma answered_loop (o : forall T, llmE T -> T) (user_input : str) :
  forall st : str * Z,
  interp (answer o) (ITree.iter (revision_step user_input) st)
  ≈ ITree.iter (fun st : str * Z =>
                  Ret (match next_story o user_input (fst st) with
                       | None => inr (Ok (fst st))
                       | Some story' => inl (story', (snd st + 1)%Z)
                       end)) st.
Proof.
  apply interp_iter'_eutt. intros [story iteration].
  apply answered_step.
Qed.

(** When the judge is satisfied after [n] revisions at most, the loop
    returns the story it is satisfied with. *)
Lemma answered_loop_returns (o : forall T, llmE T -> T) (user_input : str) :
  forall (n : nat) (story story' : str) (iteration : Z),
    final_story n o user_input story = Some story' ->
    interp (answer o) (ITree.iter (revision_step user_input) (story, iteration))
    ≈ Ret (Ok story').
Proof.
  intros n story story' iteration H. rewrite answered_loop.
  revert story iteration H.
  induction n as [|n IH]; intros story iteration H; rewrite unfold_iter;
    cbn [fst snd]; rewrite bind_ret_l; cbn [final_story] in H;
    destruct (next_story o user_input story) as [s2|] eqn:N.
  - discriminate.
  - inversion H; subst. reflexivity.
  - rewrite tau_eutt. apply IH. exact H.
  - inversion H; subst. reflexivity.
Qed.

(** When no number of revisions satisfies the judge, no pass ends the
    loop. *)
Lemma never_satisfied_next (o : forall T, llmE T -> T) (user_input story : str) :
  (forall n, final_story n o user_input story = None) ->
  exists story',
    next_story o user_input story = Some story'
    /\ forall n, final_story n o user_input story' = None.
Proof.
  intros H. pose proof (H 0) as H0. cbn [final_story] in H0.
  destruct (next_story o user_input story) as [s2|] eqn:N; [|discriminate].
  exists s2. split; [reflexivity|]. intros n. specialize (H (S n)).
  cbn [final_story] in H. rewrite N in H. exact H.
Qed.

(** ** The suggestions read from a numbered list *)

Lemma lstrip_by_app (p : char -> bool) : forall (a s : str),
  forallb p a = true -> lstrip_by p (a ++ s) = lstrip_by p s.
Proof.
  induction a as [|c a IH]; intros s H; [reflexivity|].
  cbn [forallb] in H. apply andb_true_iff in H as [Hc Ha].
  cbn [app lstrip_by]. rewrite Hc. apply IH. exact Ha.
Qed.

Lemma lstrip_by_keep (p : char -> bool) (c : char) (t : str) :
  p c = false -> lstrip_by p (c :: t) = c :: t.
Proof. intros H. cbn [lstrip_by]. rewrite H. reflexivity. Qed.

Lemma lstrip_by_split (p : char -> bool) : forall s : str,
  exists a, s = a ++ lstrip_by p s /\ forallb p a = true
            /\ match lstrip_by p s with
               | c :: _ => p c = false
               | [] => True
               end.
Proof.
  induction s as [|c s IH].
  - exists []. repeat split.
  - cbn [lstrip_by]. destruct (p c) eqn:E.
    + destruct IH as (a & Ea & Ha & Hh). exists (c :: a).
      cbn [app forallb]. rewrite E, Ha, <- Ea. repeat split. exact Hh.
    + exists []. repeat split. exact E.
Qed.

Lemma strip_nil_blank (s : str) : strip s = [] -> forallb isspace s = true.
Proof.
  intros H. destruct (strip_split s) as (w1 & w2 & E & H1 & H2).
  rewrite H in E. rewrite E, !forallb_app, H1, H2. reflexivity.
Qed.

(** A numbering before a line is removed with the numbering of the line. *)
Lemma clean_line_numbering (p rest : str) :
  forallb (char_in numbering) p = true ->
  clean_line (p ++ rest) = clean_line rest.
Proof.
  intros H. unfold clean_line, lstrip_chars.
  change (lit "0123456789. ") with numbering.
  rewrite lstrip_by_app by exact H. reflexivity.
Qed.

Lemma plain_topic_parts (t : str) :
  plain_topic t = true ->
  exists c u, t = c :: u /\ stripped t = true
              /\ char_in numbering c = false /\ ~ In LF t.
Proof.
  unfold plain_topic. destruct t as [|c u]; [discriminate|].
  rewrite !andb_true_iff, negb_true_iff. intros [[Hs Hc] Hl].
  exists c, u. repeat split; auto.
  rewrite forallb_forall in Hl. intros Hin. specialize (Hl _ Hin).
  discriminate.
Qed.

Lemma clean_line_topic (t : str) : plain_topic t = true -> clean_line t = t.
Proof.
  intros H. apply plain_topic_parts in H as (c & u & -> & Hs & Hc & _).
  unfold clean_line, lstrip_chars.
  change (lit "0123456789. ") with numbering.
  rewrite lstrip_by_keep by exact Hc. apply strip_id. exact Hs.
Qed.

Lemma numbering_no_LF (p : str) :
  forallb (char_in numbering) p = true -> ~ In LF p.
Proof.
  rewrite forallb_forall. intros H Hin. specialize (H _ Hin). discriminate.
Qed.

Lemma numbered_line (x : str * str) :
  numbered_ok x = true ->
  ~ In LF (numbered x) /\ strip (numbered x) <> []
  /\ clean_line (numbered x) = snd x.
Proof.
  destruct x as [p t]. unfold numbered_ok, numbered. cbn [fst snd].
  rewrite andb_true_iff. intros [Hp Ht]. split; [|split].
  - apply plain_topic_parts in Ht as (c & u & _ & _ & _ & Hl).
    rewrite in_app_iff. intros [H|H]; [|auto].
    eapply numbering_no_LF; eauto.
  - intros E. apply strip_nil_blank in E.
    apply plain_topic_parts in Ht as (c & u & -> & Hs & _ & _).
    rewrite forallb_app in E. apply andb_true_iff in E as [_ E].
    cbn [forallb] in E. apply andb_true_iff in E as [E _].
    rewrite (stripped_head _ _ Hs) in E. discriminate.
  - rewrite clean_line_numbering by exact Hp. apply clean_line_topic.
    exact Ht.
Qed.

(** The lines of a numbered list give their topics. *)
Lemma topics_of_lines : forall items : list (str * str),
  forallb numbered_ok items = true ->
  List.map clean_line
    (filter (fun line => negb (str_eqb (strip line) []))
            (List.map numbered items))
  = List.map snd items.
Proof.
  induction items as [|x items IH]; intros H; [reflexivity|].
  cbn [forallb] in H. apply andb_true_iff in H as [Hx H].
  destruct (numbered_line x Hx) as (_ & Hne & Hc).
  cbn [List.map filter].
  apply str_eqb_neq in Hne. rewrite Hne. cbn [negb List.map].
  rewrite Hc, IH by exact H. reflexivity.
Qed.

Lemma lstrip_before_text (p : str) (c : char) (t : str) :
  isspace c = false -> lstrip (p ++ c :: t) = lstrip p ++ c :: t.
Proof.
  intros Hc. destruct (lstrip p) as [|y u] eqn:E.
  - destruct (lstrip_split p) as (w & Ew & Hw). rewrite E, app_nil_r in Ew.
    subst w. rewrite lstrip_blank by exact Hw. cbn [app].
    apply lstrip_keep. exact Hc.
  - rewrite <- E. apply lstrip_app. rewrite E. discriminate.
Qed.

Lemma lstrip_before_topic (p t rest : str) :
  plain_topic t = true -> lstrip (p ++ t ++ rest) = lstrip p ++ t ++ rest.
Proof.
  intros H. apply plain_topic_parts in H as (c & u & -> & Hs & _ & _).
  cbn [app]. apply lstrip_before_text. eapply stripped_head; eauto.
Qed.

Lemma lstrip_numbering (p : str) :
  forallb (char_in numbering) p = true ->
  forallb (char_in numbering) (lstrip p) = true.
Proof.
  intros H. destruct (lstrip_split p) as (w & Ew & _).
  rewrite Ew, forallb_app in H. apply andb_true_iff in H as [_ H]. exact H.
Qed.

Lemma join_numbered_last : forall (items : list (str * str)) (x : str * str),
  forallb numbered_ok (x :: items) = true ->
  exists m z, join [LF] (List.map numbered (x :: items)) = m ++ [z]
              /\ isspace z = false.
Proof.
  induction items as [|y items IH]; intros x H; cbn [forallb] in H;
    apply andb_true_iff in H as [Hx H].
  - destruct x as [p t]. unfold numbered_ok in Hx. cbn [fst snd] in Hx.
    apply andb_true_iff in Hx as [_ Ht].
    apply plain_topic_parts in Ht as (c & u & Et & Hs & _ & _).
    destruct (@stripped_nonempty_last t) as (m & z & Ez & Hz);
      [congruence | exact Hs |].
    cbn [List.map join]. unfold numbered. cbn [fst snd].
    exists (p ++ m), z. rewrite Ez, app_assoc. auto.
  - destruct (IH y H) as (m & z & E & Hz).
    change (join [LF] (List.map numbered (x :: y :: items)))
      with (numbered x ++ LF :: join [LF] (List.map numbered (y :: items))).
    rewrite E. exists (numbered x ++ LF :: m), z.
    rewrite <- app_assoc. auto.
Qed.

(** The text of a numbered list, stripped, is the list with the blanks
    before its first numbering removed. *)
Lemma strip_numbered (p t : str) (items : list (str * str)) :
  forallb numbered_ok ((p, t) :: items) = true ->
  strip (join [LF] (List.map numbered ((p, t) :: items)))
  = join [LF] (List.map numbered ((lstrip p, t) :: items))
  /\ forallb numbered_ok ((lstrip p, t) :: items) = true.
Proof.
  intros H. pose proof H as H'. cbn [forallb] in H'.
  apply andb_true_iff in H' as [Hx Hi].
  unfold numbered_ok in Hx. cbn [fst snd] in Hx.
  apply andb_true_iff in Hx as [Hp Ht].
  assert (Hok : forallb numbered_ok ((lstrip p, t) :: items) = true).
  { cbn [forallb]. unfold numbered_ok at 1. cbn [fst snd].
    rewrite (lstrip_numbering p Hp), Ht, Hi. reflexivity. }
  split; [|exact Hok].
  destruct (join_numbered_last items (lstrip p, t) Hok) as (m & z & E & Hz).
  assert (L : lstrip (join [LF] (List.map numbered ((p, t) :: items)))
              = join [LF] (List.map numbered ((lstrip p, t) :: items))).
  { destruct items as [|y items].
    - cbn [List.map join]. unfold numbered. cbn [fst snd].
      rewrite <- (app_nil_r t). apply lstrip_before_topic. exact Ht.
    - change (join [LF] (List.map numbered ((p, t) :: y :: items)))
        with ((p ++ t) ++ LF :: join [LF] (List.map numbered (y :: items))).
      change (join [LF] (List.map numbered ((lstrip p, t) :: y :: items)))
        with ((lstrip p ++ t)
              ++ LF :: join [LF] (List.map numbered (y :: items))).
      rewrite <- !app_assoc. apply lstrip_before_topic. exact Ht. }
  unfold strip. rewrite L, E. apply rstrip_keep. exact Hz.
Qed.

Lemma str_split_from_head (sep : char) : forall (s cur : str),
  exists pre ls, str_split_from sep cur s = (rev cur ++ pre) :: ls.
Proof.
  induction s as [|c s IH]; intros cur; cbn [str_split_from].
  - exists [], []. rewrite app_nil_r. reflexivity.
  - destruct (N.eqb c sep).
    + exists [], (str_split_from sep [] s). rewrite app_nil_r. reflexivity.
    + destruct (IH (c :: cur)) as (pre & ls & ->).
      exists (c :: pre), ls. cbn [rev]. rewrite <- app_assoc. reflexivity.
Qed.

Lemma topics_stripped (content : str) :
  Forall (fun t => stripped t = true) (topics_of content).
Proof.
  unfold topics_of. apply Forall_forall. intros t Hin.
  apply in_map_iff in Hin as (l & <- & _). unfold clean_line.
  apply strip_stripped.
Qed.

(** ** Numbers as the user types them *)

Lemma existsb_find {A} (p : A -> bool) (l : list A) :
  existsb p l = true -> exists x, find p l = Some x /\ p x = true /\ In x l.
Proof.
  induction l as [|a l IH]; [discriminate|]. cbn [existsb find].
  destruct (p a) eqn:E.
  - intros _. exists a. repeat split; auto. left. reflexivity.
  - cbn [orb]. intros H. destruct (IH H) as (x & F & P & I).
    exists x. repeat split; auto. right. exact I.
Qed.

Lemma not_existsb_find {A} (p : A -> bool) (l : list A) :
  existsb p l = false -> find p l = None.
Proof.
  induction l as [|a l IH]; [reflexivity|]. cbn [existsb find].
  destruct (p a); [discriminate|]. exact IH.
Qed.

(** No blank is a digit. *)
Lemma space_not_digit (c : char) :
  isspace c = true -> isdigit_char c = false.
Proof.
  intros H.
  assert (P : In c [0x09; 0x0a; 0x0b; 0x0c; 0x0d; 0x1c; 0x1d; 0x1e; 0x1f;
                    0x20; 0x85; 0xa0; 0x1680; 0x2000; 0x2001; 0x2002; 0x2003;
                    0x2004; 0x2005; 0x2006; 0x2007; 0x2008; 0x2009; 0x200a;
                    0x2028; 0x2029; 0x202f; 0x205f; 0x3000]%N).
  { unfold isspace in H.
    repeat rewrite orb_true_iff in H. repeat rewrite andb_true_iff in H.
    repeat rewrite N.leb_le in H. repeat rewrite N.eqb_eq in H.
    cbn [In]. lia. }
  clear H. revert c P. apply Forall_forall.
  repeat (constructor; [vm_compute; reflexivity|]). constructor.
Qed.

Lemma digit_not_blank (c : char) : isdigit_char c = true -> isspace c = false.
Proof.
  intros H. destruct (isspace c) eqn:E; [|reflexivity].
  rewrite (space_not_digit c E) in H. discriminate.
Qed.

(** Below 127 the only decimal digits are the ASCII ones, and every other
    digit is beyond. *)
Lemma decimal_runs_ascii (r : N * N) :
  In r decimal_runs -> r = (0x30, 0x39)%N \/ (127 <= fst r)%N.
Proof.
  revert r. apply Forall_forall.
  repeat (constructor; [(left; reflexivity) || (right; vm_compute; discriminate)|]).
  constructor.
Qed.

Lemma other_runs_beyond (r : N * N) :
  In r other_digit_runs -> (127 <= fst r)%N.
Proof.
  revert r. apply Forall_forall.
  repeat (constructor; [vm_compute; discriminate|]). constructor.
Qed.

(** A decimal digit is read as the ASCII digit of its value. *)
Lemma decimal_to_ascii (c : char) :
  is_decimal c = true ->
  exists d, decimal_value c = Some d /\ (d < 10)%N
            /\ to_decimal_ascii c = (0x30 + d)%N.
Proof.
  intros H. pose proof H as H'. unfold is_decimal in H'.
  apply existsb_find in H' as (r & F & P & I).
  unfold decimal_value. rewrite F. eexists. split; [reflexivity|].
  split; [apply N.mod_lt; discriminate|].
  unfold in_run in P. apply andb_true_iff in P as [P1 P2].
  apply N.leb_le in P1, P2.
  unfold to_decimal_ascii. destruct (c <? 127)%N eqn:L.
  - apply N.ltb_lt in L. destruct (decimal_runs_ascii r I) as [->|Hr];
      [|lia]. cbn [fst snd] in *.
    rewrite N.mod_small by lia. lia.
  - rewrite digit_not_blank.
    + unfold decimal_value. rewrite F. reflexivity.
    + unfold isdigit_char. rewrite H. reflexivity.
Qed.

(** A digit that is not decimal is read as a question mark. *)
Lemma other_to_ascii (c : char) :
  isdigit_char c = true -> is_decimal c = false ->
  to_decimal_ascii c = 0x3f%N.
Proof.
  intros H Hd. pose proof H as H'. unfold isdigit_char in H'.
  rewrite Hd in H'. cbn [orb] in H'.
  apply existsb_find in H' as (r & _ & P & I).
  apply other_runs_beyond in I.
  unfold in_run in P. apply andb_true_iff in P as [P1 _].
  apply N.leb_le in P1.
  unfold to_decimal_ascii.
  assert (L : (c <? 127)%N = false) by (apply N.ltb_ge; lia).
  rewrite L, (digit_not_blank c H).
  unfold decimal_value. rewrite (not_existsb_find _ _ Hd). reflexivity.
Qed.

Lemma digit_value_ascii (d : N) :
  (d < 10)%N -> digit_value (0x30 + d)%N = Some (Z.of_N d).
Proof.
  intros H. unfold digit_value.
  assert (E : ((0x30 <=? 0x30 + d) && (0x30 + d <=? 0x39))%N = true).
  { apply andb_true_iff. split; apply N.leb_le; lia. }
  rewrite E. f_equal. f_equal. lia.
Qed.

(** What [int] reads of a digit is no blank and no sign. *)
Lemma read_digit_class (c : char) :
  isdigit_char c = true ->
  ascii_space (to_decimal_ascii c) = false
  /\ N.eqb (to_decimal_ascii c) 0x2d = false
  /\ N.eqb (to_decimal_ascii c) 0x2b = false.
Proof.
  intros H. destruct (is_decimal c) eqn:D.
  - destruct (decimal_to_ascii c D) as (d & _ & Hd & ->).
    unfold ascii_space.
    repeat rewrite orb_false_iff. repeat rewrite andb_false_iff.
    repeat rewrite N.leb_gt. repeat rewrite N.eqb_neq. repeat split; lia.
  - rewrite (other_to_ascii c H D). repeat split; reflexivity.
Qed.

Lemma rstrip_by_keep (p : char -> bool) (m : str) (z : char) :
  p z = false -> rstrip_by p (m ++ [z]) = m ++ [z].
Proof.
  intros H. unfold rstrip_by. rewrite rev_app_distr. cbn [rev app].
  rewrite lstrip_by_keep by exact H.
  cbn [rev]. rewrite rev_involutive. reflexivity.
Qed.

(** The digits read so far, in any script. *)
Lemma read_decimal : forall (s : str) (acc : Z) (b : bool),
  forallb is_decimal s = true -> s <> [] \/ b = true ->
  read_digits acc b (List.map to_decimal_ascii s)
  = Some (fold_left digit_step s acc).
Proof.
  induction s as [|c s IH]; intros acc b H Hb.
  - destruct Hb as [Hb|Hb]; [congruence|]. subst b. reflexivity.
  - cbn [forallb] in H. apply andb_true_iff in H as [Hc Hs].
    destruct (decimal_to_ascii c Hc) as (d & Ed & Hd & Ea).
    cbn [List.map read_digits fold_left]. rewrite Ea.
    rewrite (digit_value_ascii d Hd).
    rewrite IH by auto. f_equal. f_equal. unfold digit_step.
    rewrite Ed. reflexivity.
Qed.

Lemma read_question : forall (s : str) (acc : Z) (b : bool),
  In 0x3f%N s -> read_digits acc b s = None.
Proof.
  induction s as [|c s IH]; intros acc b H; [destruct H|].
  cbn [read_digits]. destruct H as [->|H].
  - reflexivity.
  - destruct (digit_value c); [apply IH; exact H|].
    destruct ((c =? 0x5f)%N && b); [apply IH; exact H | reflexivity].
Qed.

Lemma decimal_ascii_digits : forall s : str,
  forallb is_decimal s = true ->
  filter ascii_digit (List.map to_decimal_ascii s) = List.map to_decimal_ascii s.
Proof.
  induction s as [|c s IH]; intros H; [reflexivity|].
  cbn [forallb] in H. apply andb_true_iff in H as [Hc Hs].
  cbn [List.map filter].
  destruct (decimal_to_ascii c Hc) as (d & _ & Hd & ->).
  assert (E : ascii_digit (0x30 + d)%N = true).
  { unfold ascii_digit. apply andb_true_iff. split; apply N.leb_le; lia. }
  rewrite E, IH by exact Hs. reflexivity.
Qed.

(** [int] on a text that [isdigit] accepts: its value when all the digits
    are decimal and there are 4300 of them at most, and otherwise an
    error. *)
Lemma py_int_isdigit (s : str) :
  isdigit s = true ->
  py_int s
  = if forallb is_decimal s && (length s <=? 4300)
    then Some (digits_value s) else None.
Proof.
  unfold isdigit. rewrite andb_true_iff, negb_true_iff. intros [Hne Hall].
  apply str_eqb_neq in Hne.
  assert (Hcls : forall c, In c (List.map to_decimal_ascii s) ->
                   ascii_space c = false /\ N.eqb c 0x2d = false
                   /\ N.eqb c 0x2b = false).
  { intros c Hc. apply in_map_iff in Hc as (c0 & <- & Hc0).
    apply read_digit_class. rewrite forallb_forall in Hall. auto. }
  unfold py_int.
  destruct (List.map to_decimal_ascii s) as [|x a] eqn:Ea.
  { destruct s; [congruence|discriminate]. }
  assert (Hx := Hcls x (or_introl eq_refl)). destruct Hx as (Hx1 & Hx2 & Hx3).
  rewrite lstrip_by_keep by exact Hx1.
  destruct (exists_last (l := x :: a)) as (m & z & Emz); [discriminate|].
  assert (Hz : ascii_space z = false).
  { apply Hcls. rewrite Emz. apply in_or_app. right. left. reflexivity. }
  rewrite Emz, rstrip_by_keep, <- Emz by exact Hz.
  rewrite Hx2, Hx3. rewrite <- Ea.
  destruct (forallb is_decimal s) eqn:D.
  - rewrite decimal_ascii_digits by exact D. rewrite length_map.
    rewrite read_decimal by auto. cbn [andb].
    destruct (Nat.leb_spec (length s) 4300) as [L|L].
    + assert (E : (4300 <? length s) = false) by (apply Nat.ltb_ge; lia).
      rewrite E. reflexivity.
    + assert (E : (4300 <? length s) = true) by (apply Nat.ltb_lt; lia).
      rewrite E. reflexivity.
  - cbn [andb]. rewrite read_question.
    + destruct (4300 <? _); reflexivity.
    + assert (N : exists c, In c s /\ is_decimal c = false).
      { clear -D. induction s as [|c s IH]; [discriminate|].
        cbn [forallb] in D. destruct (is_decimal c) eqn:E.
        - destruct (IH D) as (c' & I & F). exists c'. split; auto.
          right. exact I.
        - exists c. split; auto. left. reflexivity. }
      destruct N as (c & I & F). apply in_map_iff. exists c. split; auto.
      apply other_to_ascii; auto. rewrite forallb_forall in Hall. auto.
Qed.

(** *** Numbers as [main] prints them *)

(** *** Numbers as [main] prints them *)

Lemma lit_cons (c : ascii) (s : string) :
  lit (String c s) = N_of_ascii c :: lit s.
Proof. reflexivity. Qed.

Lemma uint_chars (u : Decimal.uint) : forall acc : Z,
  fold_left digit_step (lit (NilEmpty.string_of_uint u)) acc = uint_value acc u
  /\ forallb is_decimal (lit (NilEmpty.string_of_uint u)) = true.
Proof.
  induction u as [|u IH|u IH|u IH|u IH|u IH|u IH|u IH|u IH|u IH|u IH];
    intros acc; [split; reflexivity|..];
    cbn [NilEmpty.string_of_uint]; rewrite lit_cons;
    cbn [fold_left forallb uint_value];
    match goal with |- fold_left _ _ ?a = _ /\ _ =>
      destruct (IH a) as [V F] end;
    rewrite V, F; split; reflexivity.
Qed.

Lemma uint_value_acc (u : Decimal.uint) : forall acc : positive,
  uint_value (Z.pos acc) u = Z.pos (Pos.of_uint_acc u acc).
Proof.
  induction u; intros acc; cbn [uint_value Pos.of_uint_acc];
    try reflexivity; rewrite <- IHu; f_equal; lia.
Qed.

Lemma uint_value_of_uint (u : Decimal.uint) :
  uint_value 0 u = Z.of_N (Pos.of_uint u).
Proof.
  induction u; cbn [uint_value Pos.of_uint]; try reflexivity;
    try exact IHu; apply (uint_value_acc u).
Qed.

(** A number that is not negative is printed in decimal digits, and these
    stand for the number. *)
Lemma printed_number (k : Z) :
  (0 <= k)%Z ->
  str_of_int k <> [] /\ forallb is_decimal (str_of_int k) = true
  /\ digits_value (str_of_int k) = k.
Proof.
  intros Hk. unfold str_of_int, digits_value. destruct k as [|p|p]; [| |lia].
  - repeat split; discriminate.
  - cbn [Z.to_int NilZero.string_of_int].
    pose proof (DecimalPos.Unsigned.of_to p) as E.
    assert (N : NilZero.string_of_uint (Pos.to_uint p)
                = NilEmpty.string_of_uint (Pos.to_uint p)).
    { destruct (Pos.to_uint p); [discriminate|reflexivity..]. }
    rewrite N. destruct (uint_chars (Pos.to_uint p) 0%Z) as [V D].
    split; [|split; [exact D|]].
    + destruct (Pos.to_uint p); [discriminate|discriminate..].
    + rewrite V, uint_value_of_uint, E. reflexivity.
Qed.

(** ** The loop that settles the topic *)

Lemma print_then_leaf {R : Type} (text : str) (k : itree progE R) (r : R) :
  Leaf r (print text;; k) -> Leaf r k.
Proof. intros H. apply Leaf_bind_inv in H as (u & _ & H). exact H. Qed.

Lemma print_ideas_then_leaf {R : Type} (k : itree progE R) (r : R) :
  forall (ideas : list str) (i : Z),
    Leaf r (print_ideas i ideas;; k) -> Leaf r k.
Proof.
  intros ideas i H. apply Leaf_bind_inv in H as (u & _ & H). exact H.
Qed.

Lemma suggest_leaf (n : Z) (l : list str) :
  Leaf l (suggest_safe_prompts n) -> exists content, l = topics_of content.
Proof.
  unfold suggest_safe_prompts. intros H.
  apply Leaf_bind_inv in H as (content & _ & H).
  apply Leaf_Ret_inv in H. eauto.
Qed.

(** What the chain on the verdict of the classifier can return. *)
Lemma after_classification_leaf (suggestions : list str)
      (user_input classification : str) (r : list str + result str) :
  Leaf r (after_classification suggestions user_input classification) ->
  (classification = lit "SAFE" /\ r = inr (Ok user_input))
  \/ (classification = lit "INAPPROPRIATE"
      /\ exists content, r = inl (topics_of content))
  \/ (classification <> lit "SAFE" /\ classification <> lit "INAPPROPRIATE"
      /\ r = inl suggestions).
Proof.
  unfold after_classification.
  destruct (str_eqb classification (lit "SAFE")) eqn:E1.
  { intros H. apply Leaf_Ret_inv in H. apply str_eqb_eq in E1. auto. }
  apply str_eqb_neq in E1.
  destruct (str_eqb classification (lit "AMBIGUOUS")) eqn:E2.
  { intros H. apply print_then_leaf, Leaf_Ret_inv in H.
    apply str_eqb_eq in E2. right. right. subst classification.
    repeat split; auto; discriminate. }
  destruct (str_eqb classification (lit "INAPPROPRIATE")) eqn:E3.
  { intros H. apply print_then_leaf in H.
    apply Leaf_bind_inv in H as (l & Hl & H).
    apply print_then_leaf, print_ideas_then_leaf, print_then_leaf in H.
    apply Leaf_Ret_inv in H. apply suggest_leaf in Hl as (content & ->).
    apply str_eqb_eq in E3. right. left. eauto. }
  apply str_eqb_neq in E3.
  intros H. apply print_then_leaf, Leaf_Ret_inv in H. auto.
Qed.

(** What a pass of the loop can return, from the answer of the user on. *)
Lemma after_input_leaf (suggestions : list str) (raw : str)
      (r : list str + result str) :
  Leaf r (after_input suggestions raw) ->
  r = inr (Raise ValueError)
  \/ r = inl suggestions
  \/ (exists content, r = inl (topics_of content))
  \/ r = inr (Ok (strip raw))
  \/ (exists idea, In idea suggestions /\ r = inr (Ok idea)).
Proof.
  unfold after_input.
  destruct (isdigit (strip raw) && truthy suggestions) eqn:C.
  - destruct (py_int (strip raw)) as [n|].
    + destruct ((0 <=? n - 1)%Z && (n - 1 <? Z.of_nat (length suggestions))%Z)
        eqn:B.
      * intros H. apply print_then_leaf, Leaf_Ret_inv in H.
        right. right. right. right.
        apply andb_true_iff in B as [B1 B2].
        apply Z.leb_le in B1. apply Z.ltb_lt in B2.
        eexists. split; [|exact H]. apply nth_In. lia.
      * intros H. apply print_then_leaf, Leaf_Ret_inv in H. auto.
    + intros H. apply Leaf_Ret_inv in H. auto.
  - intros H. apply Leaf_bind_inv in H as (classification & _ & H).
    apply after_classification_leaf in H
      as [[_ ->]|[[_ (content & ->)]|(_ & _ & ->)]]; eauto 6.
Qed.

Lemma choose_step_leaf (suggestions : list str) (r : list str + result str) :
  Forall (fun t => stripped t = true) suggestions ->
  Leaf r (choose_step suggestions) ->
  match r with
  | inl suggestions' => Forall (fun t => stripped t = true) suggestions'
  | inr (Ok topic) => stripped topic = true
  | inr (Raise e) => e = ValueError
  end.
Proof.
  intros Hs H. unfold choose_step in H.
  apply Leaf_bind_inv in H as (raw & _ & H).
  apply after_input_leaf in H
    as [->|[->|[(content & ->)|[->|(idea & Hin & ->)]]]].
  - reflexivity.
  - exact Hs.
  - apply topics_stripped.
  - apply strip_stripped.
  - rewrite Forall_forall in Hs. auto.
Qed.

(** The loop from any state whose suggestions are stripped. *)
Lemma choose_loop_leaf (suggestions : list str) (r : result str) :
  Forall (fun t => stripped t = true) suggestions ->
  Leaf r (ITree.iter choose_step suggestions) ->
  match r with
  | Ok topic => stripped topic = true
  | Raise e => e = ValueError
  end.
Proof.
  intros Hs.
  apply (Leaf_iter_inv choose_step suggestions
           (fun s => Forall (fun t => stripped t = true) s)
           (fun r => match r with
                     | Ok topic => stripped topic = true
                     | Raise e => e = ValueError
                     end)).
  - intros s r0 Hs0 H. apply choose_step_leaf in H; [|exact Hs0].
    destruct r0 as [s'|[t|e]]; cbn; auto.
  - exact Hs.
Qed.

(** The revision loop from any state returns a story, never an exception:
    the story of that state or an answer of the reviser, stripped. *)
Lemma revision_loop_leaf (user_input : str) (st : str * Z) (r : result str) :
  Leaf r (ITree.iter (revision_step user_input) st) ->
  exists s, r = Ok s /\ (s = fst st \/ exists resp, s = strip resp).
Proof.
  apply (Leaf_iter_inv (revision_step user_input) st
           (fun st' => fst st' = fst st \/ exists resp, fst st' = strip resp)
           (fun r => exists s, r = Ok s
                               /\ (s = fst st \/ exists resp, s = strip resp))).
  - intros [s it] r0 Hs H. cbn [fst] in Hs.
    apply revision_step_leaf in H as [->|(resp & ->)]; cbn.
    + eauto.
    + eauto.
  - left. reflexivity.
Qed.

(** ** Entries of several lines with a score in parentheses *)

Lemma text_line_parts (l : str) :
  text_line l = true ->
  exists x t m z, l = x :: t /\ l = m ++ [z] /\ isspace x = false
                  /\ isspace z = false
                  /\ forallb (fun c => negb (islinebreak c)) l = true.
Proof.
  unfold text_line. rewrite !andb_true_iff, negb_true_iff.
  intros [[Hne Hs] Hnb]. apply str_eqb_neq in Hne.
  destruct (@stripped_nonempty_last l Hne Hs) as (m & z & E & Hz).
  destruct l as [|x t]; [congruence|].
  exists x, t, m, z. repeat split; auto. eapply stripped_head; eauto.
Qed.

Lemma plain_label_text_line (l : str) :
  plain_label l = true -> text_line l = true.
Proof.
  intros H. apply plain_label_parts in H as (x & t & -> & Hs & Hnb & _).
  unfold text_line. rewrite Hs, Hnb. reflexivity.
Qed.

(** Lines of text joined by one character that is no line boundary. *)
Lemma join_text_lines (sep : char) : forall (ls : list str) (l : str),
  forallb text_line (l :: ls) = true ->
  exists x t m z, join [sep] (l :: ls) = x :: t
                  /\ join [sep] (l :: ls) = m ++ [z]
                  /\ isspace x = false /\ isspace z = false.
Proof.
  induction ls as [|l2 ls IH]; intros l H; cbn [forallb] in H;
    apply andb_true_iff in H as [Hl H].
  - cbn [join]. destruct (text_line_parts l Hl) as (x & t & m & z & E1 & E2 & Hx & Hz & _).
    exists x, t, m, z. auto.
  - destruct (IH l2 H) as (x2 & t2 & m2 & z2 & _ & E2 & _ & Hz2).
    destruct (text_line_parts l Hl) as (x & t & _ & _ & -> & _ & Hx & _ & _).
    change (join [sep] ((x :: t) :: l2 :: ls))
      with ((x :: t) ++ sep :: join [sep] (l2 :: ls)).
    rewrite E2. exists x, (t ++ sep :: m2 ++ [z2]), ((x :: t) ++ sep :: m2), z2.
    repeat split; auto. rewrite <- app_assoc. reflexivity.
Qed.

Lemma join_space_no_break : forall ls : list str,
  forallb text_line ls = true ->
  forallb (fun c => negb (islinebreak c)) (join [SP] ls) = true.
Proof.
  induction ls as [|l [|l2 ls] IH]; intros H; [reflexivity| |];
    cbn [forallb] in H; apply andb_true_iff in H as [Hl H].
  - cbn [join]. apply text_line_parts in Hl as (x & t & m & z & _ & _ & _ & _ & Hnb).
    exact Hnb.
  - change (join [SP] (l :: l2 :: ls)) with (l ++ SP :: join [SP] (l2 :: ls)).
    apply text_line_parts in Hl as (x & t & m & z & _ & _ & _ & _ & Hnb).
    rewrite forallb_app. apply andb_true_iff. split; [exact Hnb|].
    cbn [forallb]. apply andb_true_iff. split; [reflexivity|].
    apply IH. exact H.
Qed.

Lemma join_space_no_paren : forall ls : list str,
  forallb plain_label ls = true ->
  forallb (fun c => negb (N.eqb c open_paren)) (join [SP] ls) = true.
Proof.
  induction ls as [|l [|l2 ls] IH]; intros H; [reflexivity| |];
    cbn [forallb] in H; apply andb_true_iff in H as [Hl H].
  - cbn [join]. apply plain_label_parts in Hl as (x & t & _ & _ & _ & Hp).
    exact Hp.
  - change (join [SP] (l :: l2 :: ls)) with (l ++ SP :: join [SP] (l2 :: ls)).
    apply plain_label_parts in Hl as (x & t & _ & _ & _ & Hp).
    rewrite forallb_app. apply andb_true_iff. split; [exact Hp|].
    cbn [forallb]. apply andb_true_iff. split; [reflexivity|].
    apply IH. exact H.
Qed.

(** Replacing the newlines of lines joined by newlines joins them by
    spaces. *)
Lemma replace_join : forall ls : list str,
  forallb text_line ls = true ->
  str_replace LF SP (join [LF] ls) = join [SP] ls.
Proof.
  induction ls as [|l [|l2 ls] IH]; intros H; [reflexivity| |];
    cbn [forallb] in H; apply andb_true_iff in H as [Hl H].
  - cbn [join]. apply str_replace_absent.
    apply text_line_parts in Hl as (x & t & m & z & _ & _ & _ & _ & Hnb).
    exact Hnb.
  - change (join [LF] (l :: l2 :: ls)) with (l ++ LF :: join [LF] (l2 :: ls)).
    change (join [SP] (l :: l2 :: ls)) with (l ++ SP :: join [SP] (l2 :: ls)).
    rewrite str_replace_app.
    apply text_line_parts in Hl as (x & t & m & z & _ & _ & _ & _ & Hnb).
    rewrite (str_replace_absent _ Hnb). f_equal.
    change (str_replace LF SP (LF :: join [LF] (l2 :: ls)))
      with (SP :: str_replace LF SP (join [LF] (l2 :: ls))).
    f_equal. apply IH. exact H.
Qed.

(** The match of the inline pattern on an entry written in one line. *)
Lemma inline_written_match (cat r : str) (d : char) :
  plain_label cat = true -> digit14 d = true ->
  plain_reasoning Inline r = true ->
  re_match inline_re (cat ++ lit " (" ++ [d] ++ lit "): " ++ r)
  = Some [("reason"%string, r); ("score"%string, [d]); ("cat"%string, cat)].
Proof.
  intros Hcat Hd Hr.
  change (lit "): ") with (lit ")" ++ lit ": "). rewrite <- app_assoc.
  apply inline_front; auto. intros pos. apply inline_tail_reason. exact Hr.
Qed.

(** An entry whose block, the newlines replaced, reads as an entry
    written in one line, is read as that entry. *)
Lemma parse_entry_block_inline (fb : dict) (entry cat r : str) (d : char) :
  stripped entry = true ->
  str_replace LF SP entry = cat ++ lit " (" ++ [d] ++ lit "): " ++ r ->
  plain_label cat = true -> digit14 d = true ->
  plain_reasoning Inline r = true ->
  parse_entry fb entry
  = Ok (dict_set cat {| score := [d]; reasoning := r |} fb).
Proof.
  intros Hs Eb Hcat Hd Hr.
  unfold parse_entry. rewrite (strip_id _ Hs).
  destruct entry as [|c t].
  { apply plain_label_parts in Hcat as (x & u & -> & _). discriminate. }
  rewrite Eb, (inline_written_match cat r d Hcat Hd Hr).
  unfold group_strip, group_val.
  cbn [group String.eqb Ascii.eqb Bool.eqb rbind].
  apply plain_label_parts in Hcat as (x & u & -> & Hsc & _).
  rewrite (strip_id _ Hsc).
  apply plain_reasoning_inline in Hr as (c' & u' & -> & _ & _ & Hsr & _).
  rewrite (strip_id _ Hsr). reflexivity.
Qed.

(** A first line that does not end in a digit from 1 to 4 is no first line
    of a two-line entry. *)
Lemma header_needs_digit (l : str) :
  stripped l = true -> digit14 (last l 0%N) = false ->
  re_match header_re l = None.
Proof.
  intros Hs Hl. destruct (re_match header_re l) as [m|] eqn:M; [|reflexivity].
  apply header_match_inv in M as (cat & d & _ & P).
  apply header_parts_score in P; [|exact Hs].
  apply has_header_score_last in P. congruence.
Qed.

(** A digit from [0] to [9] is a decimal digit. *)
Lemma ascii_digit_decimal (c : char) :
  ascii_digit c = true -> is_decimal c = true.
Proof.
  unfold ascii_digit, is_decimal. intros H.
  apply existsb_exists. exists (0x30, 0x39)%N.
  split; [left; reflexivity | exact H].
Qed.

(** A score written in digits reads as an integer. *)
Lemma digits_score_int (e : str * critique) :
  digits_score e = true -> has_int e = true.
Proof.
  unfold digits_score, has_int. intros H.
  apply andb_true_iff in H as [H Hl]. apply andb_true_iff in H as [Hne Hd].
  assert (Hdec : forallb is_decimal (score (snd e)) = true).
  { rewrite forallb_forall in *. intros c Hc.
    apply ascii_digit_decimal. auto. }
  assert (Hi : isdigit (score (snd e)) = true).
  { unfold isdigit. rewrite Hne. cbn [andb].
    rewrite forallb_forall in *. intros c Hc.
    unfold isdigit_char. rewrite (Hdec c Hc). reflexivity. }
  rewrite (py_int_isdigit _ Hi), Hdec, Hl. reflexivity.
Qed.

(** ** A pass of the topic loop against answers that are a function of the
    request *)

Lemma reply_print (o : forall T, progE T -> T) (R : Type) (text : str)
      (k : itree progE R) :
  interp (reply o) (print text;; k) ≈ interp (reply o) k.
Proof.
  unfold print. rewrite interp_bind, interp_trigger.
  unfold reply at 1. rewrite bind_ret_l. reflexivity.
Qed.

Lemma reply_create (o : forall T, progE T -> T) (R : Type) (model : string)
      (system user : str) (stream : option bool) (max_tokens : option Z)
      (temperature : option QArith_base.Q) (k : str -> itree progE R) :
  interp (reply o)
         (content <- create model system user stream max_tokens temperature;;
          k content)
  ≈ interp (reply o)
           (k (chat_answer o (Create model system user stream max_tokens
                                     temperature))).
Proof.
  unfold create. rewrite interp_bind, interp_trigger.
  unfold reply at 1. rewrite bind_ret_l. reflexivity.
Qed.

Lemma reply_print_ideas (o : forall T, progE T -> T) (R : Type)
      (k : itree progE R) :
  forall (ideas : list str) (i : Z),
    interp (reply o) (print_ideas i ideas;; k) ≈ interp (reply o) k.
Proof.
  induction ideas as [|idea rest IH]; intros i; cbn [print_ideas].
  - rewrite bind_ret_l. reflexivity.
  - rewrite bind_bind, reply_print. apply IH.
Qed.

(** The request of [filter_user_input] and what it returns. *)
Lemma reply_filter (o : forall T, progE T -> T) (prompt : str)
      (classify : chatE str) :
  chat_request (filter_user_input prompt) = Some classify ->
  interp (reply o) (filter_user_input prompt)
  ≈ Ret (strip (chat_answer o classify)).
Proof.
  intros H. cbn in H. inversion H; subst classify; clear H.
  unfold filter_user_input. rewrite reply_create, interp_ret. reflexivity.
Qed.

(** The request of [suggest_safe_prompts] and what it returns. *)
Lemma reply_suggest (o : forall T, progE T -> T) (n : Z)
      (suggest : chatE str) :
  chat_request (suggest_safe_prompts n) = Some suggest ->
  interp (reply o) (suggest_safe_prompts n)
  ≈ Ret (topics_of (chat_answer o suggest)).
Proof.
  intros H. cbn in H. inversion H; subst suggest; clear H.
  unfold suggest_safe_prompts. rewrite reply_create, interp_ret. reflexivity.
Qed.

(** The chain on the verdict of the classifier. *)
Lemma reply_after_classification (o : forall T, progE T -> T)
      (suggestions : list str) (user_input classification : str)
      (suggest : chatE str) :
  chat_request (suggest_safe_prompts 3) = Some suggest ->
  interp (reply o) (after_classification suggestions user_input classification)
  ≈ Ret (if str_eqb classification (lit "SAFE") then inr (Ok user_input)
         else if str_eqb classification (lit "INAPPROPRIATE")
              then inl (topics_of (chat_answer o suggest))
              else inl suggestions).
Proof.
  intros Hs. unfold after_classification.
  destruct (str_eqb classification (lit "SAFE")) eqn:E1.
  { rewrite interp_ret. reflexivity. }
  destruct (str_eqb classification (lit "AMBIGUOUS")) eqn:E2.
  { apply str_eqb_eq in E2. subst classification.
    rewrite reply_print, interp_ret. reflexivity. }
  destruct (str_eqb classification (lit "INAPPROPRIATE")) eqn:E3.
  - rewrite reply_print, interp_bind, (reply_suggest o 3 suggest Hs),
      bind_ret_l, reply_print, reply_print_ideas, reply_print, interp_ret.
    reflexivity.
  - rewrite reply_print, interp_ret. reflexivity.
Qed.

(** ** Properties of the parser beyond the claims *)

(** X1. The layout of the judge text does not matter: blanks around the
    text, and any blanks between the two newlines that separate two blocks
    (further blank lines among them), leave the result what it is for the
    same blocks separated by single blank lines. *)
Theorem layout_free (w1 w2 : str) (seps bs : list str) :
  forallb isspace w1 = true -> forallb isspace w2 = true ->
  forallb (forallb isspace) seps = true ->
  forallb block_like bs = true ->
  parse_judge_feedback (w1 ++ laid_out seps bs ++ w2)
  = parse_judge_feedback (join [LF; LF] bs).
Proof.
  intros H1 H2 Hs Hb.
  transitivity (parse_judge_feedback (laid_out seps bs)).
  - unfold parse_judge_feedback.
    rewrite strip_blank_l by exact H1. rewrite strip_blank_r by exact H2.
    reflexivity.
  - rewrite parse_laid_out by assumption.
    rewrite parse_blocks by assumption. reflexivity.
Qed.

Lemma layout_free_witness :
  parse_judge_feedback
    ([LF; SP] ++ laid_out [[SP; LF; 0x09%N]]
                          [lit "theme: 4" ++ [LF] ++ lit "Reasoning: fits";
                           lit "tone (2): flat"]
            ++ [LF; LF])
  = parse_judge_feedback
      (join [LF; LF] [lit "theme: 4" ++ [LF] ++ lit "Reasoning: fits";
                      lit "tone (2): flat"]).
Proof.
  apply (layout_free [LF; SP] [LF; LF] [[SP; LF; 0x09%N]]
           [lit "theme: 4" ++ [LF] ++ lit "Reasoning: fits";
            lit "tone (2): flat"]); vm_compute; reflexivity.
Defined.

(** X2. Every entry of the CritiqueSet has a category that is not empty,
    and neither its category nor its reasoning starts or ends with a
    blank or holds a newline. *)
Theorem parsed_entry_shape (text : str) (d : dict) (k : str) (v : critique) :
  parse_judge_feedback text = Ok d -> In (k, v) d ->
  k <> [] /\ stripped k = true /\ ~ In LF k
  /\ stripped (reasoning v) = true /\ ~ In LF (reasoning v).
Proof.
  intros E Hin.
  pose proof (parsed_all
                (fun kv => fst kv <> [] /\ stripped (fst kv) = true
                           /\ ~ In LF (fst kv)
                           /\ stripped (reasoning (snd kv)) = true
                           /\ ~ In LF (reasoning (snd kv)))
                text d) as H.
  rewrite Forall_forall in H.
  apply (H (fun e k0 v0 => entry_record_shape e k0 v0) E (k, v) Hin).
Qed.

Lemma parsed_entry_shape_witness :
  lit "tone" <> [] /\ stripped (lit "tone") = true /\ ~ In LF (lit "tone")
  /\ stripped (lit "flat, no rhythm") = true
  /\ ~ In LF (lit "flat, no rhythm").
Proof.
  apply (parsed_entry_shape
           (lit "  tone  (2) -  flat," ++ [LF] ++ lit "no rhythm ")
           [(lit "tone",
             {| score := lit "2"; reasoning := lit "flat, no rhythm" |})]
           (lit "tone")
           {| score := lit "2"; reasoning := lit "flat, no rhythm" |}).
  - vm_compute. reflexivity.
  - left. reflexivity.
Defined.

(** X3. In the request that [story_editor] sends for a parsed
    CritiqueSet, every critique stands on a line of its own: the text of
    the critiques, split at its newlines, gives back the lines built for
    the entries below 4, one for one. *)
Theorem critiques_one_per_line (prompt story text : str) (d : dict) :
  parse_judge_feedback text = Ok d -> filter below4 d <> [] ->
  story_editor prompt story d 1200 (QArith_base.Qmake 7 10)
  = (resp <- ITree.trigger
               (ChatCompletion "gpt-3.5-turbo" editor_system
                  (editor_user_msg prompt story
                     (join [LF] (List.map issue_of (filter below4 d))))
                  1200 (QArith_base.Qmake 7 10));;
     Ret (Ok (strip resp)))
  /\ str_split LF (join [LF] (List.map issue_of (filter below4 d)))
     = List.map issue_of (filter below4 d)
  /\ length (str_split LF (join [LF] (List.map issue_of (filter below4 d))))
     = length (filter below4 d).
Proof.
  intros E F.
  assert (S : str_split LF (join [LF] (List.map issue_of (filter below4 d)))
              = List.map issue_of (filter below4 d)).
  { apply str_split_join.
    - destruct (filter below4 d); [congruence|discriminate].
    - apply Forall_forall. intros l Hl.
      apply in_map_iff in Hl as ([k v] & <- & Hin).
      apply filter_In in Hin as [Hin _].
      pose proof (parsed_no_LF text d E) as H.
      rewrite Forall_forall in H. specialize (H (k, v) Hin).
      cbn [fst snd] in H. destruct H as (Hk & Hr).
      apply issue_of_no_LF; auto.
      eapply parsed_scores; eauto. }
  split; [|split].
  - apply story_editor_revises; [|exact F].
    eapply parsed_has_int; eauto.
  - exact S.
  - rewrite S. apply length_map.
Qed.

Lemma critiques_one_per_line_witness :
  str_split LF
    (join [LF]
       (List.map issue_of
          (filter below4
             [(lit "tone", {| score := lit "2"; reasoning := lit "flat" |});
              (lit "theme", {| score := lit "4"; reasoning := lit "fits" |});
              (lit "language",
               {| score := lit "3"; reasoning := lit "long words" |})])))
  = [lit "- tone: score 2 because flat";
     lit "- language: score 3 because long words"].
Proof.
  apply (critiques_one_per_line (lit "a fox") (lit "The fox slept.")
           (lit "tone (2): flat" ++ [LF; LF] ++ lit "theme (4): fits"
            ++ [LF; LF] ++ lit "language: 3" ++ [LF]
            ++ lit "Reasoning: long words")
           [(lit "tone", {| score := lit "2"; reasoning := lit "flat" |});
            (lit "theme", {| score := lit "4"; reasoning := lit "fits" |});
            (lit "language",
             {| score := lit "3"; reasoning := lit "long words" |})]).
  - vm_compute. reflexivity.
  - vm_compute. discriminate.
Defined.

(** X4. In an entry whose first line gives the category and the score,
    the reasoning is that of the first line under it that reads
    [Reasoning:] or [Justification:], in any case of the letters, followed
    by a text: the lines before it that the pattern does not match are
    passed over, and the lines after it are not looked at. When the first
    line stands alone or no line under it matches, the entry is recorded
    with the empty reasoning. *)
Theorem reasoning_line_choice (fb : dict) (label : str) (d : char)
        (pre : list str) (kw ws r : str) (post : list str) :
  plain_label label = true -> digit14 d = true ->
  forallb plain_label pre = true -> forallb plain_label post = true ->
  (forall l, In l pre -> re_match reason_re l = None) ->
  reason_keyword kw = true -> forallb inline_blank ws = true ->
  plain_label r = true ->
  parse_entry fb
    (join [LF] ((label ++ lit ": " ++ [d])
                  :: pre ++ (kw ++ lit ":" ++ ws ++ r) :: post))
  = Ok (dict_set label {| score := [d]; reasoning := r |} fb)
  /\ parse_entry fb (join [LF] ((label ++ lit ": " ++ [d]) :: pre))
     = Ok (dict_set label {| score := [d]; reasoning := [] |} fb).
Proof.
  intros Hl Hd Hpre Hpost Hno Hkw Hws Hr. split.
  - apply parse_header_lines; auto.
    + rewrite forallb_app. cbn [forallb].
      rewrite Hpre, Hpost, (reason_line_plain kw ws r Hkw Hws Hr).
      reflexivity.
    + rewrite scan_reason_skip by exact Hno. cbn [scan_reason].
      pose proof Hr as Hr'.
      apply plain_label_parts in Hr' as (c & t & -> & Hs & Hnb & _).
      rewrite reason_line_match.
      * unfold group_strip. cbn [group String.eqb Ascii.eqb Bool.eqb].
        rewrite (strip_id _ Hs). reflexivity.
      * exact Hkw.
      * rewrite forallb_forall in *. intros x Hx.
        specialize (Hws x Hx). unfold inline_blank in Hws.
        apply andb_true_iff in Hws as [Hws _]. exact Hws.
      * eapply stripped_head; eauto.
      * apply no_break_dot. exact Hnb.
  - apply parse_header_lines; auto.
    rewrite <- (app_nil_r pre), scan_reason_skip by exact Hno. reflexivity.
Qed.

Lemma reasoning_line_choice_witness :
  parse_entry []
    (join [LF] ((lit "tone" ++ lit ": " ++ [0x32%N])
                  :: [lit "See the notes."]
                  ++ (lit "JUSTIFICATION" ++ lit ":" ++ [SP; 0x09%N]
                          ++ lit "flat rhythm")
                  :: [lit "Reasoning: another one"]))
  = Ok [(lit "tone", {| score := lit "2"; reasoning := lit "flat rhythm" |})].
Proof.
  apply (reasoning_line_choice [] (lit "tone") 0x32%N [lit "See the notes."]
           (lit "JUSTIFICATION") [SP; 0x09%N] (lit "flat rhythm")
           [lit "Reasoning: another one"]); try (vm_compute; reflexivity).
  intros l [<-|[]]. vm_compute. reflexivity.
Defined.

(** X5. The inline shape is tried first, on the whole block: an entry
    of several lines that holds a score in parentheses followed by a colon
    and a text is read in the inline shape even when its first line reads
    [<category>: <score>]. Everything before the parenthesis becomes the
    category and everything after the colon the reasoning, the newlines of
    both stored as spaces. *)
Theorem inline_shape_first (fb : dict) (clines rlines : list str) (d : char) :
  clines <> [] -> rlines <> [] ->
  forallb plain_label clines = true -> digit14 d = true ->
  forallb text_line rlines = true ->
  parse_entry fb (join [LF] clines ++ lit " (" ++ [d] ++ lit "): "
                       ++ join [LF] rlines)
  = Ok (dict_set (join [SP] clines)
                 {| score := [d]; reasoning := join [SP] rlines |} fb).
Proof.
  intros Hc Hr Hcl Hd Hrl.
  destruct clines as [|c1 clines]; [congruence|].
  destruct rlines as [|r1 rlines]; [congruence|].
  assert (Hct : forallb text_line (c1 :: clines) = true).
  { rewrite forallb_forall in *. intros l Hl.
    apply plain_label_text_line. auto. }
  destruct (join_text_lines LF clines c1 Hct)
    as (x & t & _ & _ & Ex & _ & Hx & _).
  destruct (join_text_lines LF rlines r1 Hrl)
    as (_ & _ & m & z & _ & Ez & _ & Hz).
  destruct (join_text_lines SP clines c1 Hct)
    as (x' & t' & m' & z' & Ex' & Ez' & Hx' & Hz').
  destruct (join_text_lines SP rlines r1 Hrl)
    as (x2 & t2 & m2 & z2 & Ex2 & Ez2 & Hx2 & Hz2).
  apply parse_entry_block_inline.
  - rewrite Ex, Ez. cbn [app].
    apply (@stripped_intro x z _ (x :: t ++ lit " (" ++ [d] ++ lit "): " ++ m));
      auto.
    norm_app. reflexivity.
  - rewrite !str_replace_app, !replace_join by assumption.
    rewrite (str_replace_absent (lit " (")) by reflexivity.
    rewrite (str_replace_absent (lit "): ")) by reflexivity.
    rewrite (str_replace_absent [d])
      by (cbn [forallb]; rewrite (digit_not_break _ Hd); reflexivity).
    reflexivity.
  - unfold plain_label. rewrite !andb_true_iff. split; [split|].
    + rewrite Ex'. reflexivity.
    + rewrite Ex'. apply (@stripped_intro x' z' t' m'); auto. congruence.
    + pose proof (join_space_no_break _ Hct) as B.
      pose proof (join_space_no_paren _ Hcl) as P.
      rewrite forallb_forall in *. intros c Hin.
      rewrite (B c Hin), (P c Hin). reflexivity.
  - exact Hd.
  - unfold plain_reasoning. rewrite !andb_true_iff. split; [split|].
    + rewrite Ex2. apply (@stripped_intro x2 z2 t2 m2); auto. congruence.
    + apply join_space_no_break. exact Hrl.
    + rewrite Ex2. reflexivity.
Qed.

Lemma inline_shape_first_witness :
  parse_entry []
    (join [LF] [lit "tone: 2"; lit "Reasoning: see point"]
     ++ lit " (" ++ [0x33%N] ++ lit "): "
     ++ join [LF] [lit "above (or below)"; lit "in the notes"])
  = Ok [(lit "tone: 2 Reasoning: see point",
         {| score := lit "3";
            reasoning := lit "above (or below) in the notes" |})].
Proof.
  apply (inline_shape_first [] [lit "tone: 2"; lit "Reasoning: see point"]
           [lit "above (or below)"; lit "in the notes"] 0x33%N);
    try discriminate; vm_compute; reflexivity.
Defined.

(** X6. Only the first line of a block is looked at for the category and
    the score of the two-line shape: a block of plain lines whose first
    line does not end in a digit from 1 to 4 adds nothing, whatever the
    lines under it are, a line [<category>: <score>] and its reasoning
    among them. *)
Theorem score_line_comes_first (fb : dict) (line1 : str) (lines : list str) :
  forallb plain_label (line1 :: lines) = true ->
  digit14 (last line1 0%N) = false ->
  parse_entry fb (join [LF] (line1 :: lines)) = Ok fb.
Proof.
  intros H Hl. rewrite parse_plain_lines by exact H.
  rewrite header_needs_digit; [reflexivity | | exact Hl].
  cbn [forallb] in H. apply andb_true_iff in H as [H _].
  apply plain_label_parts in H as (x & t & _ & Hs & _). exact Hs.
Qed.

Lemma score_line_comes_first_witness :
  parse_entry []
    (join [LF] [lit "Here is my evaluation:"; lit "theme: 4";
                lit "Reasoning: a gentle story"])
  = Ok [].
Proof.
  apply (score_line_comes_first [] (lit "Here is my evaluation:")
           [lit "theme: 4"; lit "Reasoning: a gentle story"]);
    vm_compute; reflexivity.
Defined.

(** ** [story_editor] and the revision loop beyond the claims *)

(** X7. A feedback with a score that [int] refuses, a text of ASCII
    characters that is no integer literal, makes [story_editor] raise
    [ValueError], whatever the other entries are, and no request is
    sent. *)
Theorem story_editor_value_error (prompt story : str) (feedback : dict)
        (max_tokens : Z) (temperature : QArith_base.Q) (e : str * critique) :
  In e feedback ->
  forallb (fun c => (c <? 128)%N) (score (snd e)) = true ->
  py_int (score (snd e)) = None ->
  story_editor prompt story feedback max_tokens temperature
  = Ret (Raise ValueError)
  /\ first_request (story_editor prompt story feedback max_tokens temperature)
     = None.
Proof.
  intros Hin _ He.
  assert (E : story_editor prompt story feedback max_tokens temperature
              = Ret (Raise ValueError)).
  { unfold story_editor.
    rewrite (collect_issues_raises feedback [] e Hin He). reflexivity. }
  rewrite E. split; reflexivity.
Qed.

Lemma story_editor_value_error_witness :
  story_editor (lit "a fox") (lit "The fox slept.")
    [(lit "tone", {| score := lit "2"; reasoning := lit "flat" |});
     (lit "theme", {| score := lit "four"; reasoning := lit "fits" |})]
    1200 (QArith_base.Qmake 7 10)
  = Ret (Raise ValueError).
Proof.
  apply (story_editor_value_error (lit "a fox") (lit "The fox slept.")
           [(lit "tone", {| score := lit "2"; reasoning := lit "flat" |});
            (lit "theme", {| score := lit "four"; reasoning := lit "fits" |})]
           1200 (QArith_base.Qmake 7 10)
           (lit "theme", {| score := lit "four"; reasoning := lit "fits" |})).
  - right. left. reflexivity.
  - vm_compute. reflexivity.
  - vm_compute. reflexivity.
Defined.

(** X8. [story_editor] tells the reviser nothing about the entries that
    score 4 or more: on a feedback whose scores are written in digits, it
    does what it does on the entries below 4 alone. *)
Theorem editor_sees_only_low (prompt story : str) (feedback : dict)
        (max_tokens : Z) (temperature : QArith_base.Q) :
  forallb digits_score feedback = true ->
  story_editor prompt story feedback max_tokens temperature
  = story_editor prompt story (filter below4 feedback) max_tokens temperature.
Proof.
  intros Hd.
  assert (Hi : forallb has_int feedback = true).
  { rewrite forallb_forall in *. intros e He.
    apply digits_score_int. auto. }
  clear Hd.
  assert (Hi' : forallb has_int (filter below4 feedback) = true).
  { rewrite forallb_forall in *. intros e He.
    apply filter_In in He as [He _]. auto. }
  assert (Hf : filter below4 (filter below4 feedback) = filter below4 feedback).
  { clear. induction feedback as [|e l IH]; [reflexivity|].
    cbn [filter]. destruct (below4 e) eqn:E; [|exact IH].
    cbn [filter]. rewrite E, IH. reflexivity. }
  assert (C : filter below4 feedback = [] \/ filter below4 feedback <> []).
  { destruct (filter below4 feedback); [left|right]; congruence. }
  destruct C as [F|F].
  - rewrite story_editor_unchanged by assumption.
    rewrite story_editor_unchanged; [reflexivity | exact Hi' |].
    rewrite Hf. exact F.
  - rewrite story_editor_revises by assumption.
    rewrite (story_editor_revises prompt story (filter below4 feedback));
      [| exact Hi' | rewrite Hf; exact F].
    unfold revision_request. rewrite Hf. reflexivity.
Qed.

Lemma editor_sees_only_low_witness :
  story_editor (lit "a fox") (lit "The fox slept.")
    [(lit "theme", {| score := lit "4"; reasoning := lit "fits" |});
     (lit "tone", {| score := lit "2"; reasoning := lit "flat" |})]
    1200 (QArith_base.Qmake 7 10)
  = story_editor (lit "a fox") (lit "The fox slept.")
      [(lit "tone", {| score := lit "2"; reasoning := lit "flat" |})]
      1200 (QArith_base.Qmake 7 10).
Proof.
  apply (editor_sees_only_low (lit "a fox") (lit "The fox slept.")
           [(lit "theme", {| score := lit "4"; reasoning := lit "fits" |});
            (lit "tone", {| score := lit "2"; reasoning := lit "flat" |})]
           1200 (QArith_base.Qmake 7 10)).
  vm_compute. reflexivity.
Defined.

(** X9. Whatever the judge and the reviser answer, the revision loop
    raises nothing: a pass ends the loop with the story it was given or
    goes on with the answer of the reviser, stripped, and one more on the
    counter; so what the loop returns is a story, the one [main] generated
    or a stripped answer of the reviser. *)
Theorem revision_loop_results (user_input story : str) (r : result str) :
  Leaf r (revision_loop user_input story) ->
  (exists s, r = Ok s /\ (s = story \/ exists resp, s = strip resp))
  /\ forall (s : str) (iteration : Z) (r' : (str * Z) + result str),
       Leaf r' (revision_step user_input (s, iteration)) ->
       r' = inr (Ok s)
       \/ exists resp, r' = inl (strip resp, (iteration + 1)%Z).
Proof.
  intros H. split.
  - exact (revision_loop_leaf user_input (story, 1%Z) r H).
  - intros s iteration r'.
    exact (revision_step_leaf user_input s iteration r').
Qed.

Lemma revision_loop_results_witness :
  exists s, Ok (lit "The fox slept.") = Ok s
            /\ (s = lit "The fox slept." \/ exists resp, s = strip resp).
Proof.
  apply (revision_loop_results (lit "a fox") (lit "The fox slept.")
                               (Ok (lit "The fox slept."))).
  unfold revision_loop. rewrite unfold_iter.
  apply Leaf_bind with (b := inr (Ok (lit "The fox slept.")));
    [|apply Leaf_Ret].
  unfold revision_step.
  apply Leaf_bind with (b := lit "theme: 4"); [|apply Leaf_Ret].
  unfold ITree.trigger. apply Leaf_Vis with (x := lit "theme: 4").
  apply Leaf_Ret.
Defined.

(** X10. Against a judge and a reviser that answer by a function of the
    request, the loop returns the story the judge is satisfied with, when
    some number of revisions leads to one: the story [main] generated if
    the first verdict has nothing below 4, and otherwise the stripped answer
    of the last revision. *)
Theorem loop_returns_final (o : forall T, llmE T -> T)
        (user_input story story' : str) (n : nat) :
  final_story n o user_input story = Some story' ->
  interp (answer o) (revision_loop user_input story) ≈ Ret (Ok story').
Proof.
  intros H. unfold revision_loop.
  apply (answered_loop_returns o user_input n story story' 1%Z H).
Qed.

Lemma loop_returns_final_witness :
  interp (answer pleased_after_one) (revision_loop (lit "a fox") (lit "draft"))
  ≈ Ret (Ok (lit "better")).
Proof.
  apply (loop_returns_final pleased_after_one (lit "a fox") (lit "draft")
                            (lit "better") 1).
  vm_compute. reflexivity.
Defined.

(** X11. The loop has no bound on its passes: against a judge and a
    reviser that answer by a function of the request, when no number of
    revisions leads to a story the judge is satisfied with, the loop
    returns nothing at all. *)
Theorem loop_has_no_bound (o : forall T, llmE T -> T)
        (user_input story : str) :
  (forall n, final_story n o user_input story = None) ->
  forall r, ~ Leaf r (interp (answer o) (revision_loop user_input story)).
Proof.
  intros H r Hr. unfold revision_loop in Hr.
  apply (Leaf_interp_iter_inv (answer o) (revision_step user_input)
           (story, 1%Z)
           (fun st => forall n, final_story n o user_input (fst st) = None)
           (fun _ => False)) in Hr; auto.
  intros [s it] r0 Hs H0. cbn [fst] in Hs.
  rewrite answered_step in H0. apply Leaf_Ret_inv in H0.
  destruct (never_satisfied_next o user_input s Hs) as (s' & N & Hs').
  rewrite N in H0. subst r0. cbn. exact Hs'.
Qed.

Lemma loop_has_no_bound_witness :
  ~ Leaf (Ok (lit "draft"))
         (interp (answer never_pleased)
                 (revision_loop (lit "a fox") (lit "draft"))).
Proof.
  apply (loop_has_no_bound never_pleased (lit "a fox") (lit "draft")).
  assert (N : forall s, next_story never_pleased (lit "a fox") s
                        = Some (lit "again")) by (intros s; reflexivity).
  intros n. generalize (lit "draft").
  induction n as [|n IH]; intros s; cbn [final_story]; rewrite N;
    [reflexivity | apply IH].
Defined.

(** ** The suggestions *)

(** X12. A numbered list is read back as its topics: when every line of
    the answer is a numbering (digits, dots and spaces) followed by a topic
    that is not empty, holds no newline, has no blank at either end and
    does not start with a digit or a dot, the suggestions are these topics,
    in the order of the lines. *)
Theorem numbered_list_topics (items : list (str * str)) :
  forallb numbered_ok items = true ->
  topics_of (join [LF] (List.map numbered items)) = List.map snd items.
Proof.
  intros H. destruct items as [|[p t] items]; [reflexivity|].
  unfold topics_of.
  destruct (strip_numbered p t items H) as [-> Hok].
  rewrite str_split_join.
  - rewrite topics_of_lines by exact Hok. reflexivity.
  - discriminate.
  - apply Forall_forall. intros l Hl.
    apply in_map_iff in Hl as (x & <- & Hx).
    rewrite forallb_forall in Hok.
    apply (numbered_line x (Hok x Hx)).
Qed.

Lemma numbered_list_topics_witness :
  topics_of (lit " 1. A sleepy fox" ++ [LF] ++ lit "2.  The moon boat" ++ [LF]
             ++ lit "3.Owl's lullaby")
  = [lit "A sleepy fox"; lit "The moon boat"; lit "Owl's lullaby"].
Proof.
  apply (numbered_list_topics
           [(lit " 1. ", lit "A sleepy fox"); (lit "2.  ", lit "The moon boat");
            (lit "3.", lit "Owl's lullaby")]).
  vm_compute. reflexivity.
Defined.

(** X13. What [suggest_safe_prompts] removes from a line is every digit,
    dot and space it starts with, also those that belong to the topic; and
    a line gives the empty suggestion exactly when it is made of such
    characters followed by blanks. Such a line is kept when it is not
    blank, so that a suggestion can be empty. *)
Theorem numbering_removed :
  (forall p rest,
      forallb (char_in numbering) p = true ->
      clean_line (p ++ rest) = clean_line rest)
  /\ (forall line,
         clean_line line = []
         <-> exists p w, line = p ++ w
                         /\ forallb (char_in numbering) p = true
                         /\ forallb isspace w = true)
  /\ clean_line (lit "1. 3 little pigs") = lit "little pigs"
  /\ topics_of (lit "1. fox" ++ [LF] ++ lit "2.") = [lit "fox"; []].
Proof.
  split; [|split; [|split]].
  - apply clean_line_numbering.
  - intros line. unfold clean_line, lstrip_chars.
    change (lit "0123456789. ") with numbering. split.
    + intros H. destruct (lstrip_by_split (char_in numbering) line)
        as (a & E & Ha & _).
      exists a, (lstrip_by (char_in numbering) line).
      repeat split; auto. apply strip_nil_blank. exact H.
    + intros (p & w & -> & Hp & Hw). rewrite lstrip_by_app by exact Hp.
      destruct (lstrip_by_split (char_in numbering) w) as (a & E & _ & _).
      apply strip_all_blank.
      rewrite E, forallb_app in Hw. apply andb_true_iff in Hw as [_ Hw].
      exact Hw.
  - vm_compute. reflexivity.
  - vm_compute. reflexivity.
Qed.

(** X14. There is no suggestion exactly when the answer of the model is
    blank; and no suggestion starts or ends with a blank. *)
Theorem suggestions_shape (content : str) :
  (topics_of content = [] <-> forallb isspace content = true)
  /\ Forall (fun t => stripped t = true) (topics_of content).
Proof.
  split; [|apply topics_stripped].
  unfold topics_of. split.
  - intros H. destruct (strip content) as [|c t] eqn:E.
    + apply strip_nil_blank. exact E.
    + exfalso. assert (Hc : isspace c = false) by (eapply strip_head; eauto).
      unfold str_split in H. cbn [str_split_from] in H.
      rewrite (not_space_not_LF _ Hc) in H.
      destruct (str_split_from_head LF t [c]) as (pre & ls & Es).
      rewrite Es in H. cbn [rev app filter] in H.
      assert (N : str_eqb (strip (c :: pre)) [] = false).
      { apply str_eqb_neq. apply strip_cons_nonempty. exact Hc. }
      rewrite N in H. discriminate.
  - intros H. rewrite (strip_all_blank _ H). reflexivity.
Qed.

(** ** The loop of [main] that settles the topic *)

(** X15. When suggestions are on offer and the user types decimal digits,
    of any script and 4300 at most, the number they stand for chooses: from
    1 to the number of suggestions it selects that suggestion, which [main]
    announces and takes as the topic without asking the classifier; any
    other number, 0 among them, is refused with a message and the same
    suggestions stay on offer. *)
Theorem number_choice (suggestions : list str) (raw : str) :
  truthy suggestions = true -> strip raw <> [] ->
  forallb is_decimal (strip raw) = true -> length (strip raw) <= 4300 ->
  after_input suggestions raw
  = let index := (digits_value (strip raw) - 1)%Z in
    if ((0 <=? index) && (index <? Z.of_nat (length suggestions)))%Z
    then print ([LF] ++ lit "Great, we'll use: " ++ [DQUOTE]
                     ++ nth (Z.to_nat index) suggestions [] ++ [DQUOTE]);;
         Ret (inr (Ok (nth (Z.to_nat index) suggestions [])))
    else print (lit "Invalid number. Please select a number from the list.");;
         Ret (inl suggestions).
Proof.
  intros Hs Hne Hd Hl.
  assert (Hi : isdigit (strip raw) = true).
  { unfold isdigit. apply andb_true_iff. split.
    - apply negb_true_iff, str_eqb_neq, Hne.
    - rewrite forallb_forall in *. intros c Hc. unfold isdigit_char.
      rewrite (Hd c Hc). reflexivity. }
  unfold after_input. rewrite Hi, Hs. cbn [andb].
  rewrite (py_int_isdigit _ Hi), Hd.
  assert (L : (length (strip raw) <=? 4300) = true) by (apply Nat.leb_le; lia).
  rewrite L. reflexivity.
Qed.

Lemma number_choice_witness :
  after_input [lit "A sleepy fox"; lit "The moon boat"; lit "Owl's lullaby"]
              [SP; 0x663%N; LF]
  = (print ([LF] ++ lit "Great, we'll use: " ++ [DQUOTE]
                 ++ lit "Owl's lullaby" ++ [DQUOTE]);;
     Ret (inr (Ok (lit "Owl's lullaby")))).
Proof.
  apply (number_choice
           [lit "A sleepy fox"; lit "The moon boat"; lit "Owl's lullaby"]
           [SP; 0x663%N; LF]).
  - reflexivity.
  - vm_compute. discriminate.
  - vm_compute. reflexivity.
  - vm_compute. lia.
Defined.

(** X16. The number that [main] prints before a suggestion selects that
    suggestion when the user types it, with or without blanks around it. *)
Theorem printed_number_selects (suggestions : list str) (k : Z) (raw : str) :
  (1 <= k <= Z.of_nat (length suggestions))%Z ->
  length (str_of_int k) <= 4300 ->
  strip raw = str_of_int k ->
  after_input suggestions raw
  = (print ([LF] ++ lit "Great, we'll use: " ++ [DQUOTE]
                 ++ nth (Z.to_nat (k - 1)) suggestions [] ++ [DQUOTE]);;
     Ret (inr (Ok (nth (Z.to_nat (k - 1)) suggestions [])))).
Proof.
  intros Hk Hl E.
  destruct (printed_number k) as (Hne & Hd & Hv); [lia|].
  assert (Hi : isdigit (str_of_int k) = true).
  { unfold isdigit. apply andb_true_iff. split.
    - apply negb_true_iff, str_eqb_neq, Hne.
    - rewrite forallb_forall in *. intros c Hc. unfold isdigit_char.
      rewrite (Hd c Hc). reflexivity. }
  assert (Hs : truthy suggestions = true).
  { destruct suggestions; [simpl in Hk; lia | reflexivity]. }
  unfold after_input. rewrite E, Hi, Hs. cbn [andb].
  rewrite (py_int_isdigit _ Hi), Hd, Hv.
  assert (L : (length (str_of_int k) <=? 4300) = true)
    by (apply Nat.leb_le; lia).
  rewrite L. cbn [andb].
  assert (B : ((0 <=? k - 1) && (k - 1 <? Z.of_nat (length suggestions)))%Z
              = true).
  { apply andb_true_iff. split; [apply Z.leb_le | apply Z.ltb_lt]; lia. }
  rewrite B. reflexivity.
Qed.

Lemma printed_number_selects_witness :
  after_input [lit "A sleepy fox"; lit "The moon boat"; lit "Owl's lullaby"]
              (lit " 2 ")
  = (print ([LF] ++ lit "Great, we'll use: " ++ [DQUOTE]
                 ++ lit "The moon boat" ++ [DQUOTE]);;
     Ret (inr (Ok (lit "The moon boat")))).
Proof.
  apply (printed_number_selects
           [lit "A sleepy fox"; lit "The moon boat"; lit "Owl's lullaby"]
           2%Z (lit " 2 ")).
  - simpl. lia.
  - vm_compute. lia.
  - vm_compute. reflexivity.
Defined.

(** X17. When suggestions are on offer and the user types a text that
    [isdigit] accepts and [int] refuses, a digit that is not decimal such as
    a superscript two, or more than 4300 digits, [main] ends with
    [ValueError]: nothing is printed and the classifier is not asked. *)
Theorem digit_not_decimal (suggestions : list str) (raw : str) :
  truthy suggestions = true -> isdigit (strip raw) = true ->
  forallb is_decimal (strip raw) && (length (strip raw) <=? 4300) = false ->
  after_input suggestions raw = Ret (inr (Raise ValueError)).
Proof.
  intros Hs Hi Hd. unfold after_input. rewrite Hi, Hs. cbn [andb].
  rewrite (py_int_isdigit _ Hi), Hd. reflexivity.
Qed.

Lemma digit_not_decimal_witness :
  after_input [lit "A sleepy fox"; lit "The moon boat"] [0xb2%N]
  = Ret (inr (Raise ValueError)).
Proof.
  apply (digit_not_decimal [lit "A sleepy fox"; lit "The moon boat"]
                           [0xb2%N]); vm_compute; reflexivity.
Defined.

(** X18. What the user types is sent to the classifier when it is not a
    choice among suggestions, and so is a number while no suggestion is on
    offer. It becomes the topic, stripped, when the answer of the
    classifier to that request, stripped, is [SAFE] letter for letter;
    when that answer is [INAPPROPRIATE], the pass hands on the suggestions
    read from the answer of the model to the request of
    [suggest_safe_prompts]; after any other answer it hands on the
    suggestions it had. The pass returns in each case, so the text
    becomes the topic only after [SAFE] and the suggestions change only
    after [INAPPROPRIATE]. The user and the model answer by a function of
    the request. *)
Theorem typed_topic (o : forall T, progE T -> T) (suggestions : list str)
        (raw : str) (classify suggest : chatE str) :
  isdigit (strip raw) && truthy suggestions = false ->
  chat_request (filter_user_input (strip raw)) = Some classify ->
  chat_request (suggest_safe_prompts 3) = Some suggest ->
  let verdict := strip (chat_answer o classify) in
  (verdict = lit "SAFE" ->
   interp (reply o) (after_input suggestions raw)
   ≈ Ret (inr (Ok (strip raw))))
  /\ (verdict = lit "INAPPROPRIATE" ->
      interp (reply o) (after_input suggestions raw)
      ≈ Ret (inl (topics_of (chat_answer o suggest))))
  /\ (verdict <> lit "SAFE" -> verdict <> lit "INAPPROPRIATE" ->
      interp (reply o) (after_input suggestions raw)
      ≈ Ret (inl suggestions)).
Proof.
  intros C Hc Hs verdict.
  assert (E : interp (reply o) (after_input suggestions raw)
              ≈ Ret (if str_eqb verdict (lit "SAFE")
                     then inr (Ok (strip raw))
                     else if str_eqb verdict (lit "INAPPROPRIATE")
                          then inl (topics_of (chat_answer o suggest))
                          else inl suggestions)).
  { unfold after_input. rewrite C.
    rewrite interp_bind, (reply_filter o (strip raw) classify Hc), bind_ret_l.
    apply reply_after_classification. exact Hs. }
  split; [|split].
  - intros V. rewrite E, V. reflexivity.
  - intros V. rewrite E, V. reflexivity.
  - intros V1 V2. apply str_eqb_neq in V1, V2. rewrite E, V1, V2.
    reflexivity.
Qed.

Lemma typed_topic_witness :
  interp (reply cautious_model) (after_input [lit "a cat"] (lit " dragons "))
  ≈ Ret (inl [lit "a sleepy fox"; lit "the moon"]).
Proof.
  eapply (proj1 (proj2 (typed_topic cautious_model [lit "a cat"]
                          (lit " dragons ") _ _ eq_refl eq_refl eq_refl))).
  vm_compute. reflexivity.
Defined.

(** X19. The topic that the loop settles on has no blank at either end: it
    is what the user typed, stripped, or a suggestion read from an answer
    of the model; and the only exception the loop can raise is the
    [ValueError] of a number that [int] refuses. *)
Theorem topic_shape (r : result str) :
  Leaf r choose_topic ->
  match r with
  | Ok topic => stripped topic = true
  | Raise e => e = ValueError
  end.
Proof.
  intros H. apply (choose_loop_leaf [] r); [constructor | exact H].
Qed.

Lemma topic_shape_witness : stripped (lit "a fox") = true.
Proof.
  apply (topic_shape (Ok (lit "a fox"))).
  unfold choose_topic. rewrite unfold_iter.
  apply Leaf_bind with (b := inr (Ok (lit "a fox"))); [|apply Leaf_Ret].
  unfold choose_step.
  apply Leaf_bind with (b := lit " a fox"); [|].
  - unfold input, ITree.trigger. apply Leaf_Vis with (x := lit " a fox").
    apply Leaf_Ret.
  - unfold after_input.
    apply Leaf_bind with (b := lit "SAFE"); [|apply Leaf_Ret].
    unfold filter_user_input.
    apply Leaf_bind with (b := lit "SAFE"); [|apply Leaf_Ret].
    unfold create, ITree.trigger.
    apply Leaf_Vis with (x := lit "SAFE"). apply Leaf_Ret.
Defined.

(** X20. [main] as a whole: it ends with [ValueError], raised while the
    topic is settled, or it returns after adding exactly one story to
    [generated_stories]; no other exception comes from the parser, the
    reviser or the loop. *)
Theorem main_result (generated_stories : list str)
        (r : result (list str)) :
  Leaf r (main generated_stories) ->
  r = Raise ValueError
  \/ exists story, r = Ok (generated_stories ++ [story]).
Proof.
  unfold main. intros H.
  apply Leaf_bind_inv in H as (t & Ht & H).
  apply (choose_loop_leaf [] t (Forall_nil _)) in Ht.
  destruct t as [user_input|e].
  - apply Leaf_bind_inv in H as (story & _ & H).
    apply Leaf_bind_inv in H as (r' & Hr & H).
    rewrite translate_to_interp in Hr. apply Leaf_interp_inv in Hr.
    apply (revision_loop_leaf user_input (story, 1%Z)) in Hr as (s & -> & _).
    apply print_then_leaf, Leaf_Ret_inv in H. right. eauto.
  - subst e. apply Leaf_Ret_inv in H. left. exact H.
Qed.

Lemma main_result_witness :
  @Raise (list str) ValueError = Raise ValueError
  \/ exists story : str, Raise ValueError = Ok ([] ++ [story]).
Proof.
  apply (main_result [] (Raise ValueError)).
  unfold main.
  apply Leaf_bind with (b := Raise ValueError); [|apply Leaf_Ret].
  unfold choose_topic. rewrite unfold_iter.
  apply Leaf_bind with (b := inl [lit "The moon boat"]).
  - unfold choose_step.
    apply Leaf_bind with (b := lit "a war"); [|].
    + unfold input, ITree.trigger. apply Leaf_Vis with (x := lit "a war").
      apply Leaf_Ret.
    + unfold after_input.
      apply Leaf_bind with (b := lit "INAPPROPRIATE").
      * unfold filter_user_input.
        apply Leaf_bind with (b := lit "INAPPROPRIATE"); [|apply Leaf_Ret].
        unfold create, ITree.trigger.
        apply Leaf_Vis with (x := lit "INAPPROPRIATE"). apply Leaf_Ret.
      * unfold after_classification. cbn [str_eqb].
        change (str_eqb (lit "INAPPROPRIATE") (lit "SAFE")) with false.
        change (str_eqb (lit "INAPPROPRIATE") (lit "AMBIGUOUS")) with false.
        change (str_eqb (lit "INAPPROPRIATE") (lit "INAPPROPRIATE")) with true.
        cbv iota.
        apply Leaf_bind with (b := tt);
          [unfold print, ITree.trigger; apply Leaf_Vis with (x := tt);
           apply Leaf_Ret|].
        apply Leaf_bind with (b := [lit "The moon boat"]).
        -- unfold suggest_safe_prompts.
           apply Leaf_bind with (b := lit "1. The moon boat");
             [|apply Leaf_Ret].
           unfold create, ITree.trigger.
           apply Leaf_Vis with (x := lit "1. The moon boat"). apply Leaf_Ret.
        -- apply Leaf_bind with (b := tt);
             [unfold print, ITree.trigger; apply Leaf_Vis with (x := tt);
              apply Leaf_Ret|].
           apply Leaf_bind with (b := tt).
           ++ cbn [print_ideas].
              apply Leaf_bind with (b := tt);
                [unfold print, ITree.trigger; apply Leaf_Vis with (x := tt);
                 apply Leaf_Ret|apply Leaf_Ret].
           ++ apply Leaf_bind with (b := tt);
                [unfold print, ITree.trigger; apply Leaf_Vis with (x := tt);
                 apply Leaf_Ret|apply Leaf_Ret].
  - rewrite tau_eutt, unfold_iter.
    apply Leaf_bind with (b := inr (Raise ValueError)); [|apply Leaf_Ret].
    unfold choose_step.
    apply Leaf_bind with (b := [0xb9%N]); [|apply Leaf_Ret].
    unfold input, ITree.trigger. apply Leaf_Vis with (x := [0xb9%N]).
    apply Leaf_Ret.
Defined.
